(** * The index manager of sugar-datastore

    A shallow embedding of [src/olpc/datastore/xapianindex.py]: the
    [IndexManager] class with its split write/read connections, the
    synchronous enqueue policy, the background worker loop, tagging over a
    version chain and the query translator.

    The manager is a Python object whose methods mutate it and may raise;
    it is embedded as a state-and-exception monad over a record holding the
    manager's attributes.  The search engine (secore/xapian) is external to
    the repository: its connections are modelled by finite maps from
    engine-document identity to stored document, with the visibility rule
    the source relies on (writes reach the read connection on
    [flush]). *)

From Stdlib Require Import ZArith Lia Ascii.
From stdpp Require Import base option list gmap strings sets pretty.

Set Warnings "-register-all".

(** ** Python values and string primitives *)

Module Py.

(** The values that travel through the untyped parts of the code
    (query dictionaries, popped properties). *)
Inductive value :=
| VNone
| VStr (s : string)
| VInt (z : Z)
| VList (l : list value)
| VDict (d : list (string * value))
| VObj (name : string).

(** Python truthiness ([if x:], [not x]). *)
Definition truthy (v : value) : bool :=
  match v with
  | VNone => false
  | VStr s => negb (bool_decide (s = ""))
  | VInt z => negb (z =? 0)%Z
  | VList l => negb (bool_decide (length l = 0))
  | VDict d => negb (bool_decide (length d = 0))
  | VObj _ => true
  end.

(** [sys.maxint] of a 64-bit CPython 2. *)
Definition maxint : Z := (2 ^ 63 - 1)%Z.

(** *** Dictionaries, in iteration order *)
Section Dict.
Context {V : Type}.

Fixpoint get (k : string) (d : list (string * V)) : option V :=
  match d with
  | [] => None
  | (k', v) :: d' => if decide (k' = k) then Some v else get k d'
  end.

Fixpoint remove (k : string) (d : list (string * V)) : list (string * V) :=
  match d with
  | [] => []
  | (k', v) :: d' => if decide (k' = k) then remove k d' else (k', v) :: remove k d'
  end.

(** [d.pop(k, default)]: the value and the dictionary without [k]. *)
Definition pop (k : string) (default : V) (d : list (string * V))
  : V * list (string * V) :=
  (from_option id default (get k d), remove k d).

(** [d[k] = v]: overwrite in place, or add a new entry. *)
Fixpoint set (k : string) (v : V) (d : list (string * V)) : list (string * V) :=
  match d with
  | [] => [(k, v)]
  | (k', v') :: d' => if decide (k' = k) then (k, v) :: d' else (k', v') :: set k v d'
  end.
End Dict.

(** *** [str] methods used by the tag grammar *)

Definition lower_char (c : ascii) : ascii :=
  let n := Ascii.nat_of_ascii c in
  if (65 <=? n)%nat && (n <=? 90)%nat then Ascii.ascii_of_nat (n + 32) else c.

Fixpoint lower (s : string) : string :=
  match s with
  | EmptyString => EmptyString
  | String c s' => String (lower_char c) (lower s')
  end.

(** [s.split()]: maximal runs of non-whitespace characters. [cur] is the
    word being read. *)
Fixpoint split_go (cur : string) (s : string) : list string :=
  match s with
  | EmptyString => if decide (cur = "") then [] else [cur]
  | String c s' =>
      if Ascii.is_space c
      then (if decide (cur = "") then [] else [cur]) ++ split_go "" s'
      else split_go (cur +:+ String c "") s'
  end.

Definition split (s : string) : list string := split_go "" s.

Fixpoint take (n : nat) (s : string) : string :=
  match n, s with
  | S n', String c s' => String c (take n' s')
  | _, _ => EmptyString
  end.

Fixpoint drop (n : nat) (s : string) : string :=
  match n, s with
  | S n', String _ s' => drop n' s'
  | _, _ => s
  end.

Definition startswith (p s : string) : bool :=
  bool_decide (take (String.length p) s = p).

Definition endswith (p s : string) : bool :=
  bool_decide (drop (String.length s - String.length p) s = p)
  && (String.length p <=? String.length s)%nat.

(** [s[1:]], [s[-2:]] and [s[:-2]]. *)
Definition from1 (s : string) : string := drop 1 s.
Definition last2 (s : string) : string := drop (String.length s - 2) s.
Definition but_last2 (s : string) : string := take (String.length s - 2) s.

Fixpoint contains_char (c : ascii) (s : string) : bool :=
  match s with
  | EmptyString => false
  | String c' s' => bool_decide (c' = c) || contains_char c s'
  end.

(** [str(x)] of an optional string ([None] prints as "None"). *)
Definition str_opt (o : option string) : string := from_option id "None" o.

End Py.

(** ** Exceptions and results *)

Inductive exn :=
| KeyError (msg : string)
| NameError (name : string)
| AttributeError (msg : string)
| IndexError
| TypeError (msg : string)
| ValueError (msg : string)
| OSError (path : string)
| QueryParserError (word : string)
| ExternalError (who : string).

Inductive res (A : Type) :=
| Ok (a : A)
| Raise (e : exn).
Arguments Ok {A} a.
Arguments Raise {A} e.

(** ** Indexer operations and tag modes *)

Definition CREATE : Z := 1.
Definition UPDATE : Z := 2.
Definition DELETE : Z := 3.

Definition ADD : Z := 1.
Definition REMOVE : Z := 2.

(** ** Engine documents *)

(** A [secore] document: identity, field list and the data blob that
    [tag] edits ([c._doc.data]). *)
Record document := Document {
  doc_id : string;
  doc_fields : list (string * string);
  doc_data : gmap string (list string)
}.

Definition set_data (f : gmap string (list string) → gmap string (list string))
    (d : document) : document :=
  Document (doc_id d) (doc_fields d) (f (doc_data d)).

Definition append_field (k v : string) (d : document) : document :=
  Document (doc_id d) (doc_fields d ++ [(k, v)]) (doc_data d).

(** What a connection keeps under an identity. *)
Record stored := Stored {
  st_fields : list (string * string);
  st_data : gmap string (list string)
}.

Definition to_stored (d : document) : stored := Stored (doc_fields d) (doc_data d).
Definition of_stored (kb : string * stored) : document :=
  Document kb.1 (st_fields kb.2) (st_data kb.2).

(** The documents of a connection, each with the identity it is kept under. *)
Definition store_docs (m : gmap string stored) : list document :=
  of_stored <$> map_to_list m.

Definition store_get (m : gmap string stored) (id : string) : option document :=
  (λ b, of_stored (id, b)) <$> m !! id.

(** ** Engine queries *)

Inductive qop := OP_AND | OP_OR.

Inductive Query :=
| QAll
| QField (k : string) (v : Py.value)
| QRange (k : string) (lo hi : Py.value)
| QComposite (op : qop) (qs : list Query)
| QFilter (q f : Query)
| QParsed (op : qop) (word : string) (flags : Z).

(** Flags of xapian's [QueryParser]. *)
Definition FLAG_BOOLEAN : Z := 1.
Definition FLAG_PHRASE : Z := 2.
Definition FLAG_LOVEHATE : Z := 4.
Definition FLAG_WILDCARD : Z := 16.

(** ** Work items *)

(** A file name as the worker may find it: a [str] path or an open [file]
    object, whose [name] is used. *)
Inductive fileref :=
| PathRef (p : string)
| FileObj (name : string).

(** The [filestuff] argument: [None], the pair [(filename, mimetype)], or a
    tuple of another length [n], which the worker cannot unpack. *)
Inductive filestuff :=
| FNone
| FPair (filename : fileref) (mimetype : string)
| FTuple (n : nat).

Definition filestuff_truthy (f : filestuff) : bool :=
  match f with
  | FNone => false
  | FPair _ _ => true
  | FTuple n => negb (bool_decide (n = 0))
  end.

Record item := Item {
  it_uid : string;
  it_vid : option string;
  it_doc : option document;
  it_op : Z;
  it_filestuff : filestuff
}.

(** A queue element: one work item, or a sequence put by [enqueSequence]. *)
Inductive qdata :=
| QOne (it : item)
| QSeq (its : list item).

(** ** Trace of observable actions *)

Inductive level := INFO | WARNING | DEBUG | ERROR.

Inductive event :=
| EvAcquire
| EvRelease
| EvAdd (d : document)
| EvReplace (d : document)
| EvDelete (id : string)
| EvFlush
| EvReopen
| EvFieldAction (key action : string)
| EvPut (q : qdata)
| EvGet (q : qdata)
| EvTaskDone
| EvParse (word : string) (flags : Z)
| EvUnlink (path : string)
| EvWarn (msg : string)
| EvLog (lvl : level) (msg : string).

(** A mutation of the write connection. *)
Definition is_write (e : event) : bool :=
  match e with
  | EvAdd _ | EvReplace _ | EvDelete _ | EvFieldAction _ _ => true
  | _ => false
  end.

(** Whether the lock is held after a trace, starting from [held]. *)
Fixpoint lock_after (held : bool) (t : list event) : bool :=
  match t with
  | [] => held
  | EvAcquire :: t' => lock_after true t'
  | EvRelease :: t' => lock_after false t'
  | _ :: t' => lock_after held t'
  end.

(** Every engine mutation of the trace happens while the lock is held. *)
Fixpoint writes_locked (held : bool) (t : list event) : bool :=
  match t with
  | [] => true
  | EvAcquire :: t' => writes_locked true t'
  | EvRelease :: t' => writes_locked false t'
  | e :: t' => (negb (is_write e) || held) && writes_locked held t'
  end.

(** ** The data model's view of properties and fields *)

(** A mapped property ([model.Property]): key, value and the string the
    engine stores ([for_xapian]). *)
Record property := Property {
  p_key : string;
  p_value : string;
  for_xapian : string
}.

(** A field descriptor of the data model: the arguments [apply] passes to
    [addField]. *)
Record descriptor := Descriptor {
  fd_key : string;
  fd_store : bool;
  fd_exact : bool;
  fd_sortable : bool;
  fd_type : string;
  fd_collapse : bool
}.

(** The backing store that [bind_to] attaches. *)
Record backing := Backing {
  capabilities : list string;
  tip : string → string
}.

(** ** Collaborators outside the source file

    Functions the source imports and calls but does not define.  They are
    parameters of the development. *)
Class Collaborators := {
  (** [olpc.datastore.utils.create_uid]: the n-th identifier it produces. *)
  uid_of : nat → string;
  (** [olpc.datastore.utils.parse_timestamp_or_float]. *)
  parse_timestamp_or_float : Py.value → res Py.value;
  (** [olpc.datastore.converter.converter]: the plain text of the file, a
      false value when conversion fails, or an exception. *)
  converter : string → string → res (option string);
  (** [datamodel.fromstring(k, v, allowAddition=True)] over the model's
      current fields: the property, and the descriptor it added if any. *)
  fromstring : list descriptor → string → string → res (property * option descriptor);
  (** [os.path.abspath]. *)
  abspath : string → string;
  (** Whether xapian's [QueryParser] accepts a word under given flags. *)
  qp_accepts : qop → string → Z → bool;
  (** The engine's matching of the leaves it interprets itself. *)
  engine_match_leaf : Query → document → bool;
  (** The engine's ordering of a result set by a sort specification. *)
  engine_sort : string → list document → list document
}.

(** ** The manager object *)

Record manager := Manager {
  (** documents as the write connection sees them, flushed or not *)
  write_index : gmap string stored;
  (** the committed index both connections open *)
  disk : gmap string stored;
  (** the snapshot the read connection last reopened *)
  read_index : gmap string stored;
  queue : list qdata;
  unfinished_tasks : nat;
  indexer_running : bool;
  fields : gset string;
  datamodel : list descriptor;
  language : string;
  backingstore : option backing;
  (** how many identifiers [create_uid] has produced *)
  uid_count : nat;
  (** the paths that exist on the file system *)
  files : gset string;
  trace : list event
}.

Definition with_write_index (f : gmap string stored → gmap string stored) (s : manager) :=
  Manager (f (write_index s)) (disk s) (read_index s) (queue s) (unfinished_tasks s)
    (indexer_running s) (fields s) (datamodel s) (language s) (backingstore s)
    (uid_count s) (files s) (trace s).
Definition with_disk (m : gmap string stored) (s : manager) :=
  Manager (write_index s) m (read_index s) (queue s) (unfinished_tasks s)
    (indexer_running s) (fields s) (datamodel s) (language s) (backingstore s)
    (uid_count s) (files s) (trace s).
Definition with_read_index (m : gmap string stored) (s : manager) :=
  Manager (write_index s) (disk s) m (queue s) (unfinished_tasks s)
    (indexer_running s) (fields s) (datamodel s) (language s) (backingstore s)
    (uid_count s) (files s) (trace s).
Definition with_queue (q : list qdata) (n : nat) (s : manager) :=
  Manager (write_index s) (disk s) (read_index s) q n
    (indexer_running s) (fields s) (datamodel s) (language s) (backingstore s)
    (uid_count s) (files s) (trace s).
Definition with_fields (f : gset string) (s : manager) :=
  Manager (write_index s) (disk s) (read_index s) (queue s) (unfinished_tasks s)
    (indexer_running s) f (datamodel s) (language s) (backingstore s)
    (uid_count s) (files s) (trace s).
Definition with_datamodel (dm : list descriptor) (s : manager) :=
  Manager (write_index s) (disk s) (read_index s) (queue s) (unfinished_tasks s)
    (indexer_running s) (fields s) dm (language s) (backingstore s)
    (uid_count s) (files s) (trace s).
Definition with_uid_count (n : nat) (s : manager) :=
  Manager (write_index s) (disk s) (read_index s) (queue s) (unfinished_tasks s)
    (indexer_running s) (fields s) (datamodel s) (language s) (backingstore s)
    n (files s) (trace s).
Definition with_files (f : gset string) (s : manager) :=
  Manager (write_index s) (disk s) (read_index s) (queue s) (unfinished_tasks s)
    (indexer_running s) (fields s) (datamodel s) (language s) (backingstore s)
    (uid_count s) f (trace s).
Definition with_trace (t : list event) (s : manager) :=
  Manager (write_index s) (disk s) (read_index s) (queue s) (unfinished_tasks s)
    (indexer_running s) (fields s) (datamodel s) (language s) (backingstore s)
    (uid_count s) (files s) t.

(** ** Methods as state-and-exception computations *)

Definition M (A : Type) : Type := manager → res A * manager.

Definition ret {A} (a : A) : M A := λ s, (Ok a, s).
Definition raise {A} (e : exn) : M A := λ s, (Raise e, s).
Definition bind {A B} (m : M A) (k : A → M B) : M B :=
  λ s, match m s with
       | (Ok a, s') => k a s'
       | (Raise e, s') => (Raise e, s')
       end.

Notation "x <- m ;; k" := (bind m (λ x, k))
  (at level 100, m at next level, right associativity).
Notation "m ;; k" := (bind m (λ _, k))
  (at level 100, right associativity).

(** [try: m except: h]. *)
Definition try_except {A} (m : M A) (h : exn → M A) : M A :=
  λ s, match m s with
       | (Ok a, s') => (Ok a, s')
       | (Raise e, s') => h e s'
       end.

Definition lift {A} (r : res A) : M A := λ s, (r, s).
Definition gets {A} (f : manager → A) : M A := λ s, (Ok (f s), s).
Definition modify (f : manager → manager) : M unit := λ s, (Ok tt, f s).
Definition emit (e : event) : M unit := modify (λ s, with_trace (trace s ++ [e]) s).
Definition log (lvl : level) (msg : string) : M unit := emit (EvLog lvl msg).
Definition warn (msg : string) : M unit := emit (EvWarn msg).

(** [for x in l: body x], stopping at the first exception. *)
Fixpoint for_each {A} (l : list A) (body : A → M unit) : M unit :=
  match l with
  | [] => ret tt
  | x :: l' => body x ;; for_each l' body
  end.

(** [with self._write_lock: body]: the lock is released on every exit. *)
Definition with_write_lock {A} (body : M A) : M A :=
  λ s, let '(r, s') := (emit EvAcquire ;; body) s in
       (r, with_trace (trace s' ++ [EvRelease]) s').

(** *** The two engine connections *)

Definition no_document {A} (method : string) : M A :=
  raise (AttributeError ("'NoneType' object passed to " +:+ method)).

(** [self.write_index.add(doc)] *)
Definition write_index_add (doc : option document) : M unit :=
  match doc with
  | None => no_document "add"
  | Some d =>
      emit (EvAdd d) ;;
      modify (with_write_index (<[doc_id d := to_stored d]>))
  end.

(** [self.write_index.replace(doc)] *)
Definition write_index_replace (doc : option document) : M unit :=
  match doc with
  | None => no_document "replace"
  | Some d =>
      emit (EvReplace d) ;;
      modify (with_write_index (<[doc_id d := to_stored d]>))
  end.

(** [self.write_index.delete(uid)] *)
Definition write_index_delete (uid : string) : M unit :=
  emit (EvDelete uid) ;;
  modify (with_write_index (delete uid)).

(** [self.write_index.flush()]: commit the pending changes. *)
Definition write_index_flush : M unit :=
  emit EvFlush ;;
  modify (λ s, with_disk (write_index s) s).

(** [self.read_index.reopen()]: move the snapshot to the committed state. *)
Definition read_index_reopen : M unit :=
  emit EvReopen ;;
  modify (λ s, with_read_index (disk s) s).

(** [self.queue.put(x)] and [self.queue.task_done()] *)
Definition queue_put (q : qdata) : M unit :=
  emit (EvPut q) ;;
  modify (λ s, with_queue (queue s ++ [q]) (S (unfinished_tasks s)) s).

Definition queue_task_done : M unit :=
  n <- gets unfinished_tasks ;;
  match n with
  | O => raise (ValueError "task_done() called too many times")
  | S n' =>
      emit EvTaskDone ;;
      modify (λ s, with_queue (queue s) n' s)
  end.

(** *** Flow control *)

(** [IndexManager.flush] *)
Definition flush : M unit :=
  with_write_lock (
    write_index_flush ;;
    read_index_reopen).

(** [IndexManager.enqueSequence] *)
Definition enqueSequence (commands : list item) : M unit :=
  queue_put (QSeq commands).

(** [IndexManager.enque]. The first computation is the [if]/[elif] block:
    it yields [None] where the source returns and the operation to queue
    where the source falls through to [self.queue.put]. *)
Definition enque (uid : string) (vid : option string) (doc : option document)
    (operation : Z) (fs : filestuff) : M unit :=
  r <- (if (operation =? CREATE)%Z || (operation =? UPDATE)%Z then
          with_write_lock (
            if (operation =? CREATE)%Z then
              write_index_add doc ;;
              log INFO ("created " +:+ uid +:+ ":" +:+ Py.str_opt vid)
            else if (operation =? UPDATE)%Z then
              write_index_replace doc ;;
              log INFO ("updated " +:+ uid +:+ ":" +:+ Py.str_opt vid)
            else ret tt) ;;
          flush ;;
          let operation := UPDATE in
          if negb (filestuff_truthy fs) then ret None
          else ret (Some operation)
        else if (operation =? DELETE)%Z then
          with_write_lock (
            write_index_delete uid ;;
            log INFO ("deleted content " +:+ uid)) ;;
          flush ;;
          ret None
        else ret (Some operation)) ;;
  match r with
  | None => ret tt
  | Some operation => queue_put (QOne (Item uid vid doc operation fs))
  end.

(** *** The worker loop *)

(** [self.versions] and [self.inplace] *)
Definition versions (s : manager) : bool :=
  match backingstore s with
  | Some b => bool_decide ("versions" ∈ capabilities b)
  | None => false
  end.

Definition inplace (s : manager) : bool :=
  match backingstore s with
  | Some b => bool_decide ("inplace" ∈ capabilities b)
  | None => false
  end.

(** The size of the reads of the converted text. *)
Definition chunk_size : nat := 2048.

(** The chunks [fp.read(2048)] returns until the stream is exhausted. The
    fuel bounds the number of reads; [String.length text] reads suffice. *)
Fixpoint read_chunks (fuel : nat) (text : string) : list string :=
  match fuel with
  | O => []
  | S fuel' =>
      let chunk := Py.take chunk_size text in
      if decide (chunk = "") then []
      else chunk :: read_chunks fuel' (Py.drop chunk_size text)
  end.

(** [os.unlink(filename)] *)
Definition os_unlink (filename : string) : M unit :=
  fs <- gets files ;;
  if decide (filename ∈ fs) then
    emit (EvUnlink filename) ;;
    modify (with_files (fs ∖ {[filename]}))
  else raise (OSError filename).

(** [filename, mimetype = filestuff] *)
Definition unpack_filestuff (fs : filestuff) : M (fileref * string) :=
  match fs with
  | FNone => raise (TypeError "'NoneType' object is not iterable")
  | FPair f m => ret (f, m)
  | FTuple _ => raise (ValueError "wrong number of values to unpack")
  end.

Section Worker.
Context `{Collaborators}.

(** The body of [for item in data] in [indexThread]. *)
Definition process_item (versions inplace : bool) (it : item) : M unit :=
  let uid := it_uid it in
  let vid := it_vid it in
  let doc := it_doc it in
  let operation := it_op it in
  if (operation =? DELETE)%Z then
    write_index_delete uid ;;
    log INFO ("deleted content " +:+ uid)
  else if (operation =? UPDATE)%Z then
    fm <- unpack_filestuff (it_filestuff it) ;;
    let mimetype := fm.2 in
    let filename := match fm.1 with FileObj name => name | PathRef p => p end in
    fs <- gets files ;;
    (if negb (bool_decide (filename = "")) && negb (bool_decide (filename ∈ fs))
     then log WARNING ("Expected file for indexing at " +:+ filename +:+ ". Not Found")
     else ret tt) ;;
    fp <- lift (converter filename mimetype) ;;
    match fp with
    | Some text =>
        let chunks := read_chunks (String.length text) text in
        doc <- match doc, chunks with
               | None, _ :: _ =>
                   raise (AttributeError "'NoneType' object has no attribute 'fields'")
               | None, [] => ret None
               | Some d, _ =>
                   ret (Some (foldl (λ d chunk, append_field "fulltext" chunk d) d chunks))
               end ;;
        write_index_replace doc ;;
        (if versions && negb inplace then os_unlink filename else ret tt) ;;
        log INFO ("update file content " +:+ uid +:+ ":" +:+ Py.str_opt vid)
    | None =>
        log DEBUG ("Conversion process failed for document " +:+ uid +:+ " " +:+ filename)
    end
  else
    log WARNING ("Unknown indexer operation ( " +:+ uid +:+ ": "
                 +:+ pretty operation +:+ ")").

(** The batch a dequeued element stands for: a single item is wrapped
    ([data = (data,)]), a sequence is taken as it is.  [data[0]] of an empty
    sequence raises [IndexError]. *)
Definition as_batch (d : qdata) : res (list item) :=
  match d with
  | QOne it => Ok [it]
  | QSeq [] => Raise IndexError
  | QSeq its => Ok its
  end.

(** The first [try] block: [q.get(True, 0.025)] and the wrapping of a
    single item.  [None] is the [Empty] case, the only exception the block
    catches. *)
Definition dequeue : M (option (list item)) :=
  q <- gets queue ;;
  match q with
  | [] => ret None
  | d :: q' =>
      emit (EvGet d) ;;
      modify (λ s, with_queue q' (unfinished_tasks s) s) ;;
      data <- lift (as_batch d) ;;
      ret (Some data)
  end.

(** The second [try] block, applied to a dequeued batch. *)
Definition apply_batch (versions inplace : bool) (data : list item) : M unit :=
  with_write_lock (
    for_each data (process_item versions inplace) ;;
    queue_task_done).

(** One pass through the body of [while self.indexer_running]. An
    exception it returns is one that leaves the loop. *)
Definition indexThread_pass (versions inplace : bool) : M unit :=
  data <- dequeue ;;
  match data with
  | None => ret tt
  | Some data =>
      try_except (apply_batch versions inplace data)
        (λ _, log ERROR "Error in indexer")
  end.

(** The loop, for at most [fuel] passes: [true] when it ended because
    [indexer_running] was cleared, [false] when the passes were used up
    with the worker still running. *)
Fixpoint indexThread_loop (fuel : nat) (versions inplace : bool) : M bool :=
  match fuel with
  | O => running <- gets indexer_running ;; ret (negb running)
  | S fuel' =>
      running <- gets indexer_running ;;
      if running then
        indexThread_pass versions inplace ;;
        indexThread_loop fuel' versions inplace
      else ret true
  end.

(** [IndexManager.indexThread] *)
Definition indexThread (fuel : nat) : M bool :=
  v <- gets versions ;;
  i <- gets inplace ;;
  indexThread_loop fuel v i.

End Worker.

(** *** Field management *)

(** [IndexManager.addField]; [xi] is [self.write_index.add_field_action]. *)
Definition addField (key : string) (store exact sortable : bool) (type : string)
    (collapse : bool) : M unit :=
  let xi := λ action, emit (EvFieldAction key action) in
  (if store then xi "STORE_CONTENT" else ret tt) ;;
  (if exact then xi "INDEX_EXACT" else xi "INDEX_FREETEXT") ;;
  (if sortable then xi ("SORTABLE:" +:+ type) else ret tt) ;;
  (if collapse then xi "COLLAPSE" else ret tt) ;;
  modify (λ s, with_fields (fields s ∪ {[key]}) s).

(** Modelled from the spec: [datamodel.apply] lives in [olpc.datastore.model],
    which is not in the source file.  The spec has it reapply the whole
    schema: every field of the model is registered through [addField]. *)
Definition datamodel_apply : M unit :=
  dm <- gets datamodel ;;
  for_each dm (λ fd,
    addField (fd_key fd) (fd_store fd) (fd_exact fd) (fd_sortable fd)
      (fd_type fd) (fd_collapse fd)).

(** Modelled from the spec: [create_uid] lives in [olpc.datastore.utils],
    which is not in the source file.  The spec names it unique-id
    generation: each call hands out the next identifier of the
    generator. *)
Definition create_uid `{Collaborators} : M string :=
  n <- gets uid_count ;;
  modify (with_uid_count (S n)) ;;
  ret (uid_of n).

(** A search hit wrapped by [model.Content]. *)
Record Content := MkContent { _doc : document }.

(** Modelled from the spec: [Content.get_property] lives in
    [olpc.datastore.model], which is not in the source file.  The spec
    attaches the tag set to the document's data blob, so the property is
    read from there, with the caller's default when it is absent. *)
Definition get_property (c : Content) (key : string) (default : list string)
  : list string :=
  from_option id default (doc_data (_doc c) !! key).

Section Indexing.
Context `{Collaborators}.

(** One turn of the loop of [_mapProperties]: the properties mapped so
    far and [add_anything]. *)
Definition map_property (acc : list (string * property) * bool)
    (kv : string * string) : M (list (string * property) * bool) :=
  dm <- gets datamodel ;;
  pa <- lift (fromstring dm kv.1 kv.2) ;;
  let p := pa.1 in
  match pa.2 with
  | Some fd =>
      modify (with_datamodel (dm ++ [fd])) ;;
      modify (λ s, with_fields (fields s ∪ {[p_key p]}) s) ;;
      ret (Py.set (p_key p) p acc.1, true)
  | None => ret (Py.set (p_key p) p acc.1, acc.2)
  end.

Fixpoint map_properties (props : list (string * string))
    (acc : list (string * property) * bool)
  : M (list (string * property) * bool) :=
  match props with
  | [] => ret acc
  | kv :: props' => acc' <- map_property acc kv ;; map_properties props' acc'
  end.

(** [IndexManager._mapProperties] *)
Definition _mapProperties (props : list (string * string))
  : M (list (string * property)) :=
  r <- map_properties props ([], false) ;;
  (if r.2 then with_write_lock datamodel_apply else ret tt) ;;
  ret r.1.

(** The property-indexing loop of [index]: the fields of the document. *)
Fixpoint index_fields (props : list (string * property)) (doc : document)
  : M document :=
  match props with
  | [] => ret doc
  | (k, prop) :: props' =>
      let value := for_xapian prop in
      known <- gets fields ;;
      if negb (bool_decide (k ∈ known)) then
        warn ("Missing field configuration for " +:+ k) ;;
        index_fields props' doc
      else index_fields props' (append_field k value doc)
  end.

(** The [filestuff] that [index] builds from a file name: the absolute path
    and the mime type of the mapped properties, ['text/plain'] by default. *)
Definition index_filestuff (filename : option string)
    (props : list (string * property)) : filestuff :=
  match filename with
  | Some f =>
      if decide (f = "") then FNone
      else
        let mimetype :=
          match Py.get "mime_type" props with
          | Some m => if decide (p_value m = "") then "text/plain" else p_value m
          | None => "text/plain"
          end in
        FPair (PathRef (abspath f)) mimetype
  | None => FNone
  end.

(** [IndexManager.index] *)
Definition index (props : list (string * string)) (filename : option string)
  : M string :=
  let operation := UPDATE in
  let uid := Py.get "uid" props in
  let props := Py.remove "uid" props in
  uo <- (match uid with
         | Some u => if decide (u = "") then u' <- create_uid ;; ret (u', CREATE)
                     else ret (u, operation)
         | None => u' <- create_uid ;; ret (u', CREATE)
         end) ;;
  let uid := uo.1 in
  let operation := uo.2 in
  let vid := None in
  v <- gets versions ;;
  vi <- (if v then
           let vid := Py.get "vid" props in
           (if bool_decide (vid = None) || bool_decide (vid = Some "")
            then log WARNING ("Didn't supply needed versioning information"
                              +:+ " on a backingstore which performs versioning")
            else ret tt) ;;
           id <- create_uid ;;
           ret (vid, id)
         else ret (vid, uid)) ;;
  let doc := Document vi.2 [] ∅ in
  let vid := match vi.1 with
             | Some v => if decide (v = "") then "1" else v
             | None => "1"
             end in
  let props := Py.set "uid" uid props in
  let props := Py.set "vid" vid props in
  props <- _mapProperties props ;;
  let filestuff := index_filestuff filename props in
  doc <- index_fields props doc ;;
  enque uid (Some vid) (Some doc) operation filestuff ;;
  ret (doc_id doc).

End Indexing.

(** *** Tagging *)

(** [IndexManager._parse_tags]: triples [(tag, all, mode)]. *)
Definition _parse_tags (tags : string) : list (string * bool * Z) :=
  let t := Py.split (Py.lower tags) in
  (λ tag,
     let all := true in
     let mode := ADD in
     let tm := if Py.startswith "-" tag then (Py.from1 tag, REMOVE) else (tag, mode) in
     let tag := tm.1 in
     let mode := tm.2 in
     let tag := if decide (Py.last2 tag = ":0") then Py.but_last2 tag else tag in
     (tag, all, mode)) <$> t.

(** The special case of ['-']: [del c._doc.data['tags']] when present. *)
Definition clear_tags (c : Content) : Content :=
  if decide (is_Some (doc_data (_doc c) !! "tags"))
  then MkContent (set_data (delete "tags") (_doc c))
  else c.

(** The edit of one tag on one document. *)
Definition edit_tag (tag : string) (mode : Z) (c : Content) : Content :=
  let existing : gset string := list_to_set (get_property c "tags" []) in
  let existing :=
    if bool_decide (tag ∈ existing) && (mode =? REMOVE)%Z
    then existing ∖ {[tag]}
    else existing ∪ {[tag]} in
  MkContent (set_data (<["tags" := elements existing]>) (_doc c)).

(** The loop over the parsed tags.  [results] is the list of content
    objects pulled from the search; [used] is the same list object whenever
    it is bound, so the edits made through it are edits of [results].
    [bound] tells whether [used] has been assigned. *)
Fixpoint apply_tags (tags : list (string * bool * Z)) (bound : bool)
    (results : list Content) : res (list Content) :=
  match tags with
  | [] => Ok results
  | (tag, all, mode) :: tags' =>
      let bound := if all then true else bound in
      if negb bound then Raise (NameError "used")
      else if bool_decide (tag = "") && (mode =? REMOVE)%Z then
        apply_tags tags' bound (clear_tags <$> results)
      else
        apply_tags tags' bound (edit_tag tag mode <$> results)
  end.

(** [self.write_index.replace_document(c)] *)
Definition write_index_replace_document (c : Content) : M unit :=
  emit (EvReplace (_doc c)) ;;
  modify (with_write_index (<[doc_id (_doc c) := to_stored (_doc c)]>)).

(** *** Searching *)

(** What [order_by] may be: nothing, one key, or a list of keys. *)
Inductive order :=
| ONone
| OKey (k : string)
| OList (ks : list string).

Section Search.
Context `{Collaborators}.

(** Which documents a query selects.  Field matches on strings, filters
    and non-empty composites are read structurally; every other leaf is
    left to the engine. *)
Fixpoint qmatch (q : Query) (d : document) : bool :=
  match q with
  | QAll => true
  | QField k (Py.VStr v) => bool_decide ((k, v) ∈ doc_fields d)
  | QFilter q1 f => qmatch q1 d && qmatch f d
  | QComposite OP_AND (q1 :: qs) => forallb (λ q', qmatch q' d) (q1 :: qs)
  | QComposite OP_OR (q1 :: qs) => existsb (λ q', qmatch q' d) (q1 :: qs)
  | _ => engine_match_leaf q d
  end.

(** The matches of a query in a connection, in the engine's order. *)
Definition matches (q : Query) (sortby : string) (m : gmap string stored)
  : list document :=
  engine_sort sortby (filter (λ d, qmatch q d = true) (store_docs m)).

(** [self.read_index.search(q, start, end, sortby=sortby)]: the hits of
    ranks [start, end) and [matches_estimated].  The engine reports an
    estimate of the number of matches; the model takes it to be that
    number. *)
Definition read_index_search (q : Query) (start_index end_index : nat)
    (sortby : string) : M (list document * nat) :=
  snapshot <- gets read_index ;;
  let ms := matches q sortby snapshot in
  ret (take (end_index - start_index) (drop start_index ms), length ms).

(** [IndexManager._search] *)
Definition _search (q : Query) (start_index end_index : nat)
    (sortby : option string) : M (list Content * nat) :=
  let sortby := Py.str_opt sortby in
  r <- read_index_search q start_index end_index sortby ;;
  let results := r.1 in
  let count := r.2 in
  ret (MkContent <$> results, count).

(** [IndexManager.get] *)
Definition get (uid : string) : M Content :=
  snapshot <- gets read_index ;;
  match store_get snapshot uid with
  | None => raise (KeyError uid)
  | Some doc => ret (MkContent doc)
  end.

(** [self.backingstore.tip(uid)] *)
Definition backingstore_tip (uid : string) : M string :=
  b <- gets backingstore ;;
  match b with
  | None => raise (AttributeError "'NoneType' object has no attribute 'tip'")
  | Some b => ret (tip b uid)
  end.

(** [IndexManager.get_by_uid_prop] *)
Definition get_by_uid_prop (uid : string) (rev : option string)
  : M (list Content * nat) :=
  let q := QField "uid" (Py.VStr uid) in
  q <- (match rev with
        | Some rev =>
            rev <- (if decide (rev = "tip") then backingstore_tip uid else ret rev) ;;
            ret (QFilter q (QField "vid" (Py.VStr rev)))
        | None => ret q
        end) ;;
  _search q 0 1000 (Some "-vid").

(** [IndexManager.tag] *)
Definition tag (uid : string) (tags : string) (rev : option string) : M unit :=
  rc <- get_by_uid_prop uid rev ;;
  let results := rc.1 in
  let count := rc.2 in
  if bool_decide (count = 0) then
    raise (KeyError ("unable to apply tags to uid " +:+ uid))
  else
    let tags := _parse_tags tags in
    results <- lift (apply_tags tags false results) ;;
    with_write_lock (for_each results write_index_replace_document).

(** [IndexManager.delete] *)
Definition delete (uid : string) : M unit :=
  enque uid None None DELETE FNone.

(** *** The query translator *)

(** The names bound where the [except] clause of [_query_parse] runs: the
    locals of the method, then the globals of the module.  None of
    Python's builtins is called [string]. *)
Definition _query_parse_locals (word : string) (flags : Z) : list (string * Py.value) :=
  [("self", Py.VObj "IndexManager"); ("word", Py.VStr word); ("flags", Py.VInt flags);
   ("op", Py.VObj "op"); ("ri", Py.VObj "SearchConnection");
   ("qp", Py.VObj "QueryParser"); ("e", Py.VObj "QueryParserError")].

Definition module_globals : list (string * Py.value) :=
  (λ n, (n, Py.VObj n)) <$>
  ["with_statement"; "__author__"; "__docformat__"; "__copyright__"; "__license__";
   "Queue"; "Empty"; "gc"; "logging"; "os"; "re"; "sys"; "time"; "thread";
   "threading"; "warnings"; "secore"; "_xapian"; "model"; "converter";
   "create_uid"; "parse_timestamp_or_float"; "logger"; "CREATE"; "UPDATE";
   "DELETE"; "ADD"; "REMOVE"; "ContentMappingIter"; "IndexManager"].

Definition lookup_name (locals : list (string * Py.value)) (name : string)
  : M Py.value :=
  match Py.get name (locals ++ module_globals) with
  | Some v => ret v
  | None => raise (NameError name)
  end.

(** [qp.parse_query(word, flags)] of the parser prepared for [op]. *)
Definition qp_parse_query (op : qop) (word : Py.value) (flags : Z) : M Query :=
  match word with
  | Py.VStr w =>
      emit (EvParse w flags) ;;
      if qp_accepts op w flags then ret (QParsed op w flags)
      else raise (QueryParserError w)
  | _ => raise (TypeError "parse_query expects a string")
  end.

(** [IndexManager._query_parse] *)
Definition _query_parse (word : string) (flags : Z) (op : option qop) : M Query :=
  let op := from_option id OP_AND op in
  try_except (qp_parse_query op (Py.VStr word) flags)
    (λ e, match e with
          | QueryParserError _ =>
              string <- lookup_name (_query_parse_locals word flags) "string" ;;
              qp_parse_query op string 0
          | _ => raise e
          end).

(** [nextword.match(query, start)]: the run of non-whitespace characters
    at [start], if there is one. *)
Fixpoint nonspace_run (s : string) : string :=
  match s with
  | EmptyString => EmptyString
  | String c s' => if Ascii.is_space c then EmptyString else String c (nonspace_run s')
  end.

Definition nextword_match (query : string) (start : nat) : option string :=
  let w := nonspace_run (Py.drop start query) in
  if decide (w = "") then None else Some w.

(** The double quote, character 34. *)
Definition quote_char : ascii := Ascii.ascii_of_nat 34.

(** [endquote.search(query, start)]: [qm.end(1)] for the first quote at or
    after [start]. *)
Fixpoint find_quote (s : string) (pos : nat) : option nat :=
  match s with
  | EmptyString => None
  | String c s' => if decide (c = quote_char) then Some (S pos) else find_quote s' (S pos)
  end.

Definition endquote_search (query : string) (start : nat) : option nat :=
  if decide (start ≤ String.length query) then find_quote (Py.drop start query) start
  else None.

(** [word.split(':', 1)] of a word that contains a colon. *)
Fixpoint split_colon (word : string) : string * string :=
  match word with
  | EmptyString => (EmptyString, EmptyString)
  | String c w' =>
      if decide (c = ":"%char) then (EmptyString, w')
      else let r := split_colon w' in (String c r.1, r.2)
  end.

(** The [while start < end] loop of [parse_query]; [fuel] bounds the
    number of turns. *)
Fixpoint parse_query_loop (fuel : nat) (query : string) (start : nat)
    (flags : Z) (queries : list Query) : M (list Query) :=
  match fuel with
  | O => ret queries
  | S fuel' =>
      if decide (start < String.length query) then
        match nextword_match query start with
        | None => ret queries
        | Some word =>
            let orig := start in
            let field : option string := None in
            let start := start + String.length word + 1 in
            known <- gets fields ;;
            let fw :=
              if Py.contains_char ":" word then
                let fieldname := (split_colon word).1 in
                let w := (split_colon word).2 in
                (if decide (fieldname ∈ known) then Some fieldname else field, w)
              else (field, word) in
            let field := fw.1 in
            let word := fw.2 in
            let wfs :=
              if Py.startswith (String quote_char "") word then
                match endquote_search query start with
                | Some qm_end =>
                    (Py.take (qm_end - orig) (Py.drop orig query),
                     Z.lor flags FLAG_PHRASE, qm_end + 1)
                | None => (word, flags, start)
                end
              else (word, flags, start) in
            let word := wfs.1.1 in
            let flags := wfs.1.2 in
            let start := wfs.2 in
            if bool_decide (field ≠ None) && bool_decide (field ≠ Some "") then
              parse_query_loop fuel' query start flags
                (queries ++ [QField (default "" field) (Py.VStr word)])
            else
              let flags := if Py.endswith "*" word then Z.lor flags FLAG_WILDCARD
                           else flags in
              q <- _query_parse word flags None ;;
              parse_query_loop fuel' query start flags (queries ++ [q])
        end
      else ret queries
  end.

(** [IndexManager.parse_query] *)
Definition parse_query (query : Py.value) : M Query :=
  match query with
  | Py.VStr query =>
      let flags := FLAG_LOVEHATE in
      queries <- parse_query_loop (String.length query) query 0 flags [] ;;
      ret (QComposite OP_AND queries)
  | _ => raise (TypeError "object of this type has no len()")
  end.

(** The clause a key of a structured query becomes. *)
Definition clause (k : string) (v : Py.value) : M Query :=
  match v with
  | Py.VDict v =>
      let start := (Py.pop "start" (Py.VInt 0) v).1 in
      let v := (Py.pop "start" (Py.VInt 0) v).2 in
      let end_ := (Py.pop "end" (Py.VInt Py.maxint) v).1 in
      start <- lift (parse_timestamp_or_float start) ;;
      end_ <- lift (parse_timestamp_or_float end_) ;;
      ret (QRange k start end_)
  | Py.VList v =>
      let ors := (λ item, QField k item) <$> v in
      ret (QComposite OP_OR ors)
  | _ => ret (QField k v)
  end.

Fixpoint clauses (query : list (string * Py.value)) (queries : list Query)
  : M (list Query) :=
  match query with
  | [] => ret queries
  | (k, v) :: query' => c <- clause k v ;; clauses query' (queries ++ [c])
  end.

(** The query that [search] builds before it runs it. *)
Definition search_query (query : Py.value) : M Query :=
  if negb (Py.truthy query) then ret QAll
  else
    match query with
    | Py.VDict query =>
        let queries := [] in
        let q := (Py.pop "query" Py.VNone query).1 in
        let query := (Py.pop "query" Py.VNone query).2 in
        queries <- (if Py.truthy q then pq <- parse_query q ;; ret (queries ++ [pq])
                    else ret queries) ;;
        if negb (Py.truthy (Py.VDict query)) && bool_decide (queries = []) then
          ret QAll
        else
          queries <- clauses query queries ;;
          ret (QComposite OP_AND queries)
    | _ => parse_query query
    end.

(** [IndexManager.search] *)
Definition search (query : Py.value) (start_index end_index : nat)
    (order_by : order) : M (list Content * nat) :=
  q <- search_query query ;;
  let order_by :=
    match order_by with
    | ONone => None
    | OKey k => Some k
    | OList [] => Some "[]"
    | OList (k :: _) => Some k
    end in
  _search q start_index end_index order_by.

End Search.

(** The tag set of a document, as [tag] reads it. *)
Definition tag_set (d : document) : gset string :=
  list_to_set (get_property (MkContent d) "tags" []).

(** ** A small concrete world

    An instance of the collaborators and a manager state on which the
    definitions can be run. *)
Module Demo.

(** A parser that rejects the words made of a lone boolean operator when
    boolean operators are interpreted, as xapian's does. *)
Definition demo_accepts (op : qop) (word : string) (flags : Z) : bool :=
  negb (Z.testbit flags 0
        && (bool_decide (word = "AND") || bool_decide (word = "OR")
            || bool_decide (word = "NOT"))).

#[export] Instance demo : Collaborators := {|
  uid_of n := "uid-" +:+ pretty n;
  parse_timestamp_or_float v := Ok v;
  converter filename mimetype :=
    if decide (mimetype = "text/plain") then Ok (Some ("text of " +:+ filename))
    else if decide (mimetype = "application/x-broken") then Raise (ExternalError "converter")
    else Ok None;
  fromstring dm k v := Ok (Property k v v, None);
  abspath f := "/" +:+ f;
  qp_accepts := demo_accepts;
  engine_match_leaf q d := false;
  engine_sort sortby ds := ds
|}.

Definition doc1 : document :=
  Document "d1" [("uid", "u1"); ("vid", "1")] ∅.

(** A connected manager over a plain store that holds [doc1], flushed. *)
Definition s0 : manager := {|
  write_index := {["d1" := to_stored doc1]};
  disk := {["d1" := to_stored doc1]};
  read_index := {["d1" := to_stored doc1]};
  queue := [];
  unfinished_tasks := 0;
  indexer_running := true;
  fields := {["uid"; "vid"]};
  datamodel := [];
  language := "en";
  backingstore := None;
  uid_count := 0;
  files := ∅;
  trace := []
|}.

Definition doc1_tagged : document :=
  Document "d1" [("uid", "u1"); ("vid", "1")] {["tags" := ["x"; "y"]]}.

(** The same manager when [doc1] carries tags, flushed. *)
Definition s1 : manager := {|
  write_index := {["d1" := to_stored doc1_tagged]};
  disk := {["d1" := to_stored doc1_tagged]};
  read_index := {["d1" := to_stored doc1_tagged]};
  queue := [];
  unfinished_tasks := 0;
  indexer_running := true;
  fields := {["uid"; "vid"]};
  datamodel := [];
  language := "en";
  backingstore := None;
  uid_count := 0;
  files := ∅;
  trace := []
|}.

(** The manager [s0] bound to a versioning backing store. *)
Definition s0_versioned : manager := {|
  write_index := {["d1" := to_stored doc1]};
  disk := {["d1" := to_stored doc1]};
  read_index := {["d1" := to_stored doc1]};
  queue := [];
  unfinished_tasks := 0;
  indexer_running := true;
  fields := {["uid"; "vid"]};
  datamodel := [];
  language := "en";
  backingstore := Some (Backing ["versions"] (λ _, "1"));
  uid_count := 0;
  files := ∅;
  trace := []
|}.

(** A work item that cannot be processed: an UPDATE without file
    information. *)
Definition bad_item : item := Item "u1" (Some "1") (Some doc1) UPDATE FNone.

(** The manager [s0] with [bad_item] queued. *)
Definition s0_bad : manager := with_queue [QOne bad_item] 1 s0.

(** A store with 1001 versions of one uid. *)
Definition version_doc (n : nat) : string * stored :=
  ("v" +:+ pretty n, Stored [("uid", "u9"); ("vid", pretty n)] ∅).

Definition long_store : gmap string stored :=
  list_to_map (version_doc <$> seq 0 1001).

Definition s_long : manager := with_read_index long_store s0.

(** The tag set of a document of the write connection. *)
Definition tags_of (id : string) (s : manager) : option (gset string) :=
  tag_set <$> store_get (write_index s) id.

End Demo.

(** * Notions used to state the properties *)

(** The events of one [flush]. *)
Definition flush_events : list event := [EvAcquire; EvFlush; EvReopen; EvRelease].

(** The events of the synchronous write of [enque], by operation. *)
Definition write_events (operation : Z) (uid : string) (vid : option string)
    (d : document) : list event :=
  if (operation =? CREATE)%Z then
    [EvAcquire; EvAdd d;
     EvLog INFO ("created " +:+ uid +:+ ":" +:+ Py.str_opt vid); EvRelease]
  else if (operation =? UPDATE)%Z then
    [EvAcquire; EvReplace d;
     EvLog INFO ("updated " +:+ uid +:+ ":" +:+ Py.str_opt vid); EvRelease]
  else
    [EvAcquire; EvDelete uid; EvLog INFO ("deleted content " +:+ uid); EvRelease].

(** The manager after a synchronous write [w] of [enque]: both connections
    show the written state, the trace has grown by [evs], by a flush and by
    one [put] for each element of [queued]. *)
Definition synced (w : gmap string stored → gmap string stored)
    (evs : list event) (queued : list qdata) (s : manager) : manager :=
  {| write_index := w (write_index s);
     disk := w (write_index s);
     read_index := w (write_index s);
     queue := queue s ++ queued;
     unfinished_tasks := length queued + unfinished_tasks s;
     indexer_running := indexer_running s;
     fields := fields s;
     datamodel := datamodel s;
     language := language s;
     backingstore := backingstore s;
     uid_count := uid_count s;
     files := files s;
     trace := trace s ++ evs ++ flush_events ++ (EvPut <$> queued) |}.

(** What [enque] puts on the queue for a write with file information. *)
Definition file_work (uid : string) (vid : option string) (d : document)
    (fs : filestuff) : list qdata :=
  if filestuff_truthy fs then [QOne (Item uid vid (Some d) UPDATE fs)] else [].

(** The query [get_by_uid_prop] searches with: the uid match, filtered by
    the revision when one is given ("tip" being resolved through the
    backing store, which must then be bound). *)
Definition chain_query (uid : string) (rev : option string) (s : manager)
  : option Query :=
  match rev with
  | None => Some (QField "uid" (Py.VStr uid))
  | Some r =>
      if decide (r = "tip") then
        (λ b, QFilter (QField "uid" (Py.VStr uid)) (QField "vid" (Py.VStr (tip b uid))))
          <$> backingstore s
      else Some (QFilter (QField "uid" (Py.VStr uid)) (QField "vid" (Py.VStr r)))
  end.

(** Whether a string has a whitespace character. *)
Fixpoint has_space (s : string) : bool :=
  match s with
  | EmptyString => false
  | String c s' => Ascii.is_space c || has_space s'
  end.

(** A token that the tag grammar hands back as it is: one word, in lower
    case, without the [:0] suffix. *)
Definition plain_token (t : string) : Prop :=
  t ≠ "" ∧ Py.lower t = t ∧ has_space t = false ∧ Py.last2 t ≠ ":0".

(** The write connection after [replace_document] of each element. *)
Definition replace_all (cs : list Content) (m : gmap string stored) : gmap string stored :=
  foldl (λ m c, <[doc_id (_doc c) := to_stored (_doc c)]> m) m cs.

(** The identities of a list of contents. *)
Definition ids (cs : list Content) : list string := (λ c, doc_id (_doc c)) <$> cs.

(** The manager after [tag] has written [cs] back. *)
Definition retagged (cs : list Content) (s : manager) : manager :=
  {| write_index := replace_all cs (write_index s);
     disk := disk s;
     read_index := read_index s;
     queue := queue s;
     unfinished_tasks := unfinished_tasks s;
     indexer_running := indexer_running s;
     fields := fields s;
     datamodel := datamodel s;
     language := language s;
     backingstore := backingstore s;
     uid_count := uid_count s;
     files := files s;
     trace := trace s ++ [EvAcquire] ++ ((λ c, EvReplace (_doc c)) <$> cs) ++ [EvRelease] |}.

(** A computation that relates every state it is run in to the state it
    leaves, whatever it returns. *)
Definition preserves {A} (P : manager → manager → Prop) (m : M A) : Prop :=
  ∀ s r s', m s = (r, s') → P s s'.

(** The number of [task_done] calls of a trace. *)
Fixpoint count_done (t : list event) : nat :=
  match t with
  | [] => 0
  | EvTaskDone :: t' => S (count_done t')
  | _ :: t' => count_done t'
  end.

(** What processing an item leaves alone: the queue, the number of
    unfinished tasks, the running flag and the number of [task_done]
    calls. *)
Definition same_control (s s' : manager) : Prop :=
  queue s' = queue s
  ∧ unfinished_tasks s' = unfinished_tasks s
  ∧ indexer_running s' = indexer_running s
  ∧ count_done (trace s') = count_done (trace s).

(** The manager when the worker has taken [d] off the queue and holds the
    write lock. *)
Definition entered (d : qdata) (q' : list qdata) (s : manager) : manager :=
  with_trace (trace s ++ [EvGet d; EvAcquire]) (with_queue q' (unfinished_tasks s) s).

(** The manager after a pass whose batch failed: lock released, error
    logged. *)
Definition failed (s2 : manager) : manager :=
  with_trace (trace s2 ++ [EvRelease; EvLog ERROR "Error in indexer"]) s2.

(** A computation that returns normally from every state, with a result
    satisfying [Q] and a final state related to the initial one by [P]. *)
Definition runs {A} (P : manager → manager → Prop) (Q : A → Prop) (m : M A) : Prop :=
  ∀ s, ∃ a s', m s = (Ok a, s') ∧ P s s' ∧ Q a.

(** What the mapping of properties leaves alone: the connections, the
    queue, the backing store and the identifier generator. *)
Definition index_frame (s s' : manager) : Prop :=
  write_index s' = write_index s
  ∧ disk s' = disk s
  ∧ read_index s' = read_index s
  ∧ queue s' = queue s
  ∧ unfinished_tasks s' = unfinished_tasks s
  ∧ backingstore s' = backingstore s
  ∧ uid_count s' = uid_count s.

(** The uid the caller supplied, when it is a true value. *)
Definition supplied_uid (props : list (string * string)) : option string :=
  match Py.get "uid" props with
  | Some u => if decide (u = "") then None else Some u
  | None => None
  end.

(** The identifiers produced once the logical uid is settled. *)
Definition uid_count_settled (props : list (string * string)) (s : manager) : nat :=
  match supplied_uid props with
  | Some _ => uid_count s
  | None => S (uid_count s)
  end.

Section Notions.
Context `{Collaborators}.

(** The whole version chain of the read snapshot, by version descending. *)
Definition version_chain (q : Query) (s : manager) : list document :=
  matches q "-vid" (read_index s).

(** [_query_parse] as its comment describes it: after a parse error the
    word is parsed again without flags. *)
Definition _query_parse_documented (word : string) (flags : Z) (op : option qop)
  : M Query :=
  let op := default OP_AND op in
  try_except (qp_parse_query op (Py.VStr word) flags)
    (λ e, match e with
          | QueryParserError _ => qp_parse_query op (Py.VStr word) 0
          | _ => raise e
          end).

(** The clause of a key, in the words of the specification: a mapping
    gives a range over the parsed bounds ([start] defaulting to 0 and
    [end] to the largest integer), a list gives the OR of one field match
    per element, anything else gives one field match. *)
Inductive spec_clause (k : string) : Py.value → Query → Prop :=
| spec_range (dv : list (string * Py.value)) (lo hi : Py.value) :
    parse_timestamp_or_float (default (Py.VInt 0) (Py.get "start" dv)) = Ok lo →
    parse_timestamp_or_float (default (Py.VInt Py.maxint) (Py.get "end" dv)) = Ok hi →
    spec_clause k (Py.VDict dv) (QRange k lo hi)
| spec_list (l : list Py.value) :
    spec_clause k (Py.VList l) (QComposite OP_OR ((λ x, QField k x) <$> l))
| spec_scalar (v : Py.value) :
    (∀ dv, v ≠ Py.VDict dv) → (∀ l, v ≠ Py.VList l) →
    spec_clause k v (QField k v).

(** The data model maps every property. *)
Definition maps_all : Prop :=
  ∀ dm k v, ∃ pa, fromstring dm k v = Ok pa.

(** The logical uid of the document: the supplied one, else a new one. *)
Definition logical_uid (props : list (string * string)) (s : manager) : string :=
  default (uid_of (uid_count s)) (supplied_uid props).

(** The engine identity: a further new identifier on a versioned store,
    the logical uid otherwise. *)
Definition engine_identity (props : list (string * string)) (s : manager) : string :=
  if versions s then uid_of (uid_count_settled props s) else logical_uid props s.

End Notions.

(** * Further notions: what the operations keep *)

(** What readers can see: the committed index and the read snapshot. *)
Definition same_published (s s' : manager) : Prop :=
  read_index s' = read_index s ∧ disk s' = disk s.

(** The events of the lock and of the flush protocol. *)
Definition is_protocol_event (e : event) : bool :=
  match e with
  | EvAcquire | EvRelease | EvFlush | EvReopen | EvTaskDone | EvGet _ | EvPut _ => true
  | _ => false
  end.

(** The trace has grown by events that are not of the lock, of the flush
    protocol or of the queue. *)
Definition grows_quietly (s s' : manager) : Prop :=
  ∃ t, trace s' = trace s ++ t ∧ Forall (λ e, is_protocol_event e = false) t.

(** [Queue.join] returns when no task is unfinished; every queued element
    is an unfinished task. *)
Definition accounted (s : manager) : Prop :=
  length (queue s) ≤ unfinished_tasks s.

(** The unfinished tasks that are no longer in the queue. *)
Definition debt (s : manager) : nat :=
  unfinished_tasks s - length (queue s).

(** The accounting is kept, and the debt does not shrink. *)
Definition keeps_account (s s' : manager) : Prop :=
  accounted s → accounted s' ∧ debt s ≤ debt s'.

(** The chunks the worker reads from a converted text, and the document
    with one [fulltext] field for each. *)
Definition fulltext_chunks (text : string) : list string :=
  read_chunks (String.length text) text.

Definition with_fulltext (d : document) (text : string) : document :=
  foldl (λ d chunk, append_field "fulltext" chunk d) d (fulltext_chunks text).

(** The name the worker uses for the file of a work item. *)
Definition file_name (f : fileref) : string :=
  match f with FileObj name => name | PathRef p => p end.

(** The manager after the worker has processed items: the write connection
    changed by [w], the file system by [f], the trace grown by [t]. *)
Definition after_update (w : gmap string stored → gmap string stored)
    (f : gset string → gset string) (t : list event) (s : manager) : manager :=
  {| write_index := w (write_index s);
     disk := disk s;
     read_index := read_index s;
     queue := queue s;
     unfinished_tasks := unfinished_tasks s;
     indexer_running := indexer_running s;
     fields := fields s;
     datamodel := datamodel s;
     language := language s;
     backingstore := backingstore s;
     uid_count := uid_count s;
     files := f (files s);
     trace := trace s ++ t |}.

(** The edit that the loop of [tag] makes to one content for one parsed
    tag: the ['-'] case clears, every other case edits the tag. *)
Definition edit_content (p : string * bool * Z) (c : Content) : Content :=
  if bool_decide (p.1.1 = "") && (p.2 =? REMOVE)%Z then clear_tags c
  else edit_tag p.1.1 p.2 c.

(** The same edit read on tag sets. *)
Definition edit_set (ts : gset string) (p : string * bool * Z) : gset string :=
  if bool_decide (p.1.1 = "") && (p.2 =? REMOVE)%Z then ∅
  else if bool_decide (p.1.1 ∈ ts) && (p.2 =? REMOVE)%Z then ts ∖ {[p.1.1]}
  else ts ∪ {[p.1.1]}.

(** The contents [tag] writes back for a tag string. *)
Definition edit_all (tags : string) (results : list Content) : list Content :=
  (λ c, foldl (λ c p, edit_content p c) c (_parse_tags tags)) <$> results.

(** A word of the normal form of tags: in lower case and without
    whitespace. *)
Definition word_ok (w : string) : Prop := has_space w = false ∧ Py.lower w = w.

(** The fields [index] builds from the mapped properties: one for each
    property whose key is a registered field, in order. *)
Definition known_fields (known : gset string) (props : list (string * property))
  : list (string * string) :=
  (λ kp, (kp.1, for_xapian kp.2)) <$> filter (λ kp, kp.1 ∈ known) props.

(** The warnings [index] gives for the other properties. *)
Definition missing_warnings (known : gset string) (props : list (string * property))
  : list event :=
  (λ kp, EvWarn ("Missing field configuration for " +:+ kp.1))
    <$> filter (λ kp, kp.1 ∉ known) props.

(** What the mapping of properties also leaves alone: the file system and
    the running flag of the worker. *)
Definition same_surroundings (s s' : manager) : Prop :=
  files s' = files s ∧ indexer_running s' = indexer_running s.

(** The mime type [index] hands to the worker: that of the mapped
    properties when it is a true value, ['text/plain'] otherwise. *)
Definition mimetype_of (props : list (string * property)) : string :=
  match Py.get "mime_type" props with
  | Some m => if decide (p_value m = "") then "text/plain" else p_value m
  | None => "text/plain"
  end.

(** The [filestuff] of a file name and a mime type. *)
Definition filestuff_of `{Collaborators} (filename : option string) (mimetype : string)
  : filestuff :=
  match filename with
  | Some f => if decide (f = "") then FNone else FPair (PathRef (abspath f)) mimetype
  | None => FNone
  end.

(** A computation that only reads the manager: run from a state, it
    returns a result that does not depend on the trace, and leaves the
    state as it was but for events added to the trace, each of which
    satisfies [P]. *)
Definition reads {A} (P : event → Prop) (m : M A) : Prop :=
  ∀ s, ∃ r ev, Forall P ev ∧ ∀ t, m (with_trace t s) = (r, with_trace (t ++ ev) s).

(** A call of the query parser whose flags satisfy [Q]. *)
Definition parse_with (Q : Z → Prop) (e : event) : Prop :=
  ∃ w fl, e = EvParse w fl ∧ Q fl.

(** Flags that ask for the [+]/[-] syntax and not for boolean operators. *)
Definition lovehate_no_boolean (fl : Z) : Prop :=
  Z.testbit fl 2 = true ∧ Z.testbit fl 0 = false.

(** The sort specification [search] hands to [_search]: [str] of the
    first key of a non-empty list, of the key, of [None], or of the empty
    list. *)
Definition sort_spec (order_by : order) : string :=
  Py.str_opt (match order_by with
              | ONone => None
              | OKey k => Some k
              | OList [] => Some "[]"
              | OList (k :: _) => Some k
              end).

(** The hits of ranks [a, b) of a list of matches, as contents. *)
Definition window (a b : nat) (ms : list document) : list Content :=
  MkContent <$> take (b - a) (drop a ms).

(** The words of a text joined by single spaces. *)
Fixpoint join_words (ws : list string) : string :=
  match ws with
  | [] => ""
  | [w] => w
  | w :: ws' => w +:+ " " +:+ join_words ws'
  end.

(** The flags a word is parsed with: those of the words before it, and
    the wildcard flag when it ends with a star. *)
Definition word_flags (flags : Z) (w : string) : Z :=
  if Py.endswith "*" w then Z.lor flags FLAG_WILDCARD else flags.

(** The parsed queries of a list of words, the flags running from word to
    word. *)
Fixpoint word_queries (flags : Z) (ws : list string) : list Query :=
  match ws with
  | [] => []
  | w :: ws' => QParsed OP_AND w (word_flags flags w) :: word_queries (word_flags flags w) ws'
  end.

(** The calls of the parser for a list of words. *)
Fixpoint word_events (flags : Z) (ws : list string) : list event :=
  match ws with
  | [] => []
  | w :: ws' => EvParse w (word_flags flags w) :: word_events (word_flags flags w) ws'
  end.

(** A word of a textual query that is neither a field match nor the start
    of a phrase. *)
Definition plain_word (w : string) : Prop :=
  w ≠ "" ∧ has_space w = false ∧ Py.contains_char ":" w = false
  ∧ Py.contains_char quote_char w = false.

(** Taking and releasing the write lock. *)
Definition is_lock_event (e : event) : bool :=
  match e with
  | EvAcquire | EvRelease => true
  | _ => false
  end.

(** What a computation adds to the trace while its caller holds the write
    lock: it neither takes nor releases it. *)
Definition grows_inside_lock (s s' : manager) : Prop :=
  ∃ t, trace s' = trace s ++ t ∧ Forall (λ e, is_lock_event e = false) t.

(** What a method called with the lock free adds to the trace: every
    engine mutation lies between an acquire and a release, and the lock is
    free at the end. *)
Definition lock_disciplined (s s' : manager) : Prop :=
  ∃ t, trace s' = trace s ++ t
       ∧ writes_locked false t = true ∧ lock_after false t = false.

(** What no method undoes: a read snapshot that shows the committed index
    still does, and the registered fields are still registered. *)
Definition steady (s s' : manager) : Prop :=
  (disk s = read_index s → disk s' = read_index s') ∧ fields s ⊆ fields s'.

(** *** The dictionary of a structured query, as [search] leaves it

    [search] pops from the dictionary it is given ([query.pop('query',
    None)]) and from the mappings in it ([v.pop('start', 0)],
    [v.pop('end', sys.maxint)]).  The computations below are those of
    [search] with the caller's dictionary passed along. *)

(** A value of the dictionary after its clause is built. *)
Definition popped (v : Py.value) : Py.value :=
  match v with
  | Py.VDict v => Py.VDict (Py.remove "end" (Py.remove "start" v))
  | _ => v
  end.

(** The result of a computation that passes a dictionary along, without
    the dictionary. *)
Definition without_dict {A B} (r : res (A * B) * manager) : res A * manager :=
  match r with
  | (Ok ab, s) => (Ok ab.1, s)
  | (Raise e, s) => (Raise e, s)
  end.

Section Popping.
Context `{Collaborators}.

Definition clause_popping (k : string) (v : Py.value) : M (Query * Py.value) :=
  match v with
  | Py.VDict v =>
      let start := (Py.pop "start" (Py.VInt 0) v).1 in
      let v := (Py.pop "start" (Py.VInt 0) v).2 in
      let end_ := (Py.pop "end" (Py.VInt Py.maxint) v).1 in
      let v := (Py.pop "end" (Py.VInt Py.maxint) v).2 in
      start <- lift (parse_timestamp_or_float start) ;;
      end_ <- lift (parse_timestamp_or_float end_) ;;
      ret (QRange k start end_, Py.VDict v)
  | Py.VList l =>
      let ors := (λ item, QField k item) <$> l in
      ret (QComposite OP_OR ors, Py.VList l)
  | _ => ret (QField k v, v)
  end.

(** The loop over the items; [seen] holds the items already visited, as
    they are left. *)
Fixpoint clauses_popping (query : list (string * Py.value)) (queries : list Query)
    (seen : list (string * Py.value)) : M (list Query * list (string * Py.value)) :=
  match query with
  | [] => ret (queries, seen)
  | (k, v) :: query' =>
      cv <- clause_popping k v ;;
      clauses_popping query' (queries ++ [cv.1]) (seen ++ [(k, cv.2)])
  end.

(** The branch of [search] for a dictionary that is not empty: the query
    and the dictionary as the call leaves it. *)
Definition search_query_popping (query : list (string * Py.value))
  : M (Query * list (string * Py.value)) :=
  let queries := [] in
  let q := (Py.pop "query" Py.VNone query).1 in
  let query := (Py.pop "query" Py.VNone query).2 in
  queries <- (if Py.truthy q then pq <- parse_query q ;; ret (queries ++ [pq])
              else ret queries) ;;
  if negb (Py.truthy (Py.VDict query)) && bool_decide (queries = []) then
    ret (QAll, query)
  else
    r <- clauses_popping query queries [] ;;
    ret (QComposite OP_AND r.1, r.2).

End Popping.

(** ** More of the concrete world *)

Module Sample.

(** The collaborators of [Demo.demo] with a converter that gives a text
    for every file. *)
Definition converting : Collaborators := {|
  uid_of n := "uid-" +:+ pretty n;
  parse_timestamp_or_float v := Ok v;
  converter filename mimetype := Ok (Some ("text of " +:+ filename));
  fromstring dm k v := Ok (Property k v v, None);
  abspath f := "/" +:+ f;
  qp_accepts := Demo.demo_accepts;
  engine_match_leaf q d := false;
  engine_sort sortby ds := ds
|}.

(** The file of the examples, and its text under [Demo.demo]. *)
Definition notes : fileref := PathRef "/notes.txt".
Definition notes_text : string := "text of /notes.txt".

(** UPDATE items for [Demo.doc1]: one whose file converts, one whose mime
    type has no converter, one whose conversion fails. *)
Definition update_item : item :=
  Item "u1" (Some "1") (Some Demo.doc1) UPDATE (FPair notes "text/plain").
Definition picture_item : item :=
  Item "u1" (Some "1") (Some Demo.doc1) UPDATE (FPair (PathRef "/a.png") "image/png").
Definition broken_item : item :=
  Item "u1" (Some "1") (Some Demo.doc1) UPDATE
    (FPair (PathRef "/b.bin") "application/x-broken").

(** An item with an operation that is none of the three. *)
Definition odd_item : item := Item "u1" None None 7 FNone.

(** A flushed manager whose index holds 1001 versions of one uid, each
    tagged [x]. *)
Definition tagged_version (n : nat) : string * stored :=
  ("v" +:+ pretty n, Stored [("uid", "u9"); ("vid", pretty n)] {["tags" := ["x"]]}).

Definition tagged_store : gmap string stored :=
  list_to_map (tagged_version <$> seq 0 1001).

Definition s_tagged : manager := {|
  write_index := tagged_store;
  disk := tagged_store;
  read_index := tagged_store;
  queue := [];
  unfinished_tasks := 0;
  indexer_running := true;
  fields := {["uid"; "vid"]};
  datamodel := [];
  language := "en";
  backingstore := None;
  uid_count := 0;
  files := ∅;
  trace := []
|}.

(** A structured query with a text and a range. *)
Definition dated_query : list (string * Py.value) :=
  [("query", Py.VStr "foo");
   ("date", Py.VDict [("start", Py.VInt 0); ("end", Py.VInt 100)])].

End Sample.

(** * Properties *)

(** Running the monadic operations on a manager given by its fields.
    The reduction is lazy and restricted to the operations themselves, so
    that the maps and strings of the state are left as they are. *)
Ltac run_monad :=
  lazy beta iota zeta delta
    [bind ret raise lift gets modify emit log warn try_except with_write_lock
     write_index_add write_index_replace write_index_delete write_index_flush
     read_index_reopen write_index_replace_document queue_put queue_task_done
     flush no_document fst snd
     with_write_index with_disk with_read_index with_queue with_fields
     with_datamodel with_uid_count with_files with_trace
     write_index disk read_index queue unfinished_tasks indexer_running fields
     datamodel language backingstore uid_count files trace] in *.

Ltac run := cbn; run_monad; rewrite <- ?app_assoc; cbn.

(** ** Laws of the computations, at a state *)

Lemma bind_Ok {A B} (m : M A) (k : A → M B) s a s1 :
  m s = (Ok a, s1) → bind m k s = k a s1.
Proof. intros Hm. unfold bind. by rewrite Hm. Qed.

Lemma bind_ret_l {A B} (a : A) (k : A → M B) s : bind (ret a) k s = k a s.
Proof. reflexivity. Qed.

Lemma bind_gets {A B} (f : manager → A) (k : A → M B) s :
  bind (gets f) k s = k (f s) s.
Proof. reflexivity. Qed.

Lemma bind_modify {B} (f : manager → manager) (k : unit → M B) s :
  bind (modify f) k s = k () (f s).
Proof. reflexivity. Qed.

Lemma bind_bind {A B C} (m : M A) (f : A → M B) (g : B → M C) s :
  bind (bind m f) g s = bind m (λ x, bind (f x) g) s.
Proof. unfold bind. by destruct (m s) as [[a|e] s1]. Qed.

(** ** The enqueue policy *)

Lemma enque_create uid vid d fs s :
  enque uid vid (Some d) CREATE fs s =
    (Ok (), synced (<[doc_id d := to_stored d]>) (write_events CREATE uid vid d)
              (file_work uid vid d fs) s).
Proof.
  destruct s. unfold enque, synced, file_work, flush_events.
  destruct (filestuff_truthy fs); run; rewrite ?app_nil_r; reflexivity.
Qed.

Lemma enque_update uid vid d fs s :
  enque uid vid (Some d) UPDATE fs s =
    (Ok (), synced (<[doc_id d := to_stored d]>) (write_events UPDATE uid vid d)
              (file_work uid vid d fs) s).
Proof.
  destruct s. unfold enque, synced, file_work, flush_events.
  destruct (filestuff_truthy fs); run; rewrite ?app_nil_r; reflexivity.
Qed.

Lemma enque_delete uid vid d doc fs s :
  enque uid vid doc DELETE fs s =
    (Ok (), synced (base.delete uid) (write_events DELETE uid vid d) [] s).
Proof.
  destruct s. unfold enque, synced, flush_events. run. rewrite ?app_nil_r. reflexivity.
Qed.

(** Any other operation is queued as it is, without a write. *)
Lemma enque_other uid vid doc op fs s :
  op ≠ CREATE → op ≠ UPDATE → op ≠ DELETE →
  enque uid vid doc op fs s = queue_put (QOne (Item uid vid doc op fs)) s.
Proof.
  intros Hc Hu Hd. unfold enque.
  apply Z.eqb_neq in Hc, Hu, Hd. rewrite Hc, Hu, Hd. reflexivity.
Qed.

(** C1. [enque] applies CREATE and UPDATE to the write connection inside
    the write lock ([add] for CREATE, [replace] for UPDATE) and flushes;
    it then queues one item, reclassified to UPDATE, exactly when
    [filestuff] is non-empty.  DELETE deletes the engine document of [uid]
    inside the lock, flushes, and queues nothing.  In the three cases every
    engine mutation of the call lies between an acquire and a release of
    the write lock, and the lock is free when the call returns. *)
Theorem enque_policy (uid : string) (vid : option string) (d : document)
    (doc : option document) (fs : filestuff) (s : manager) :
  enque uid vid (Some d) CREATE fs s =
    (Ok (), synced (<[doc_id d := to_stored d]>) (write_events CREATE uid vid d)
              (file_work uid vid d fs) s)
  ∧ enque uid vid (Some d) UPDATE fs s =
    (Ok (), synced (<[doc_id d := to_stored d]>) (write_events UPDATE uid vid d)
              (file_work uid vid d fs) s)
  ∧ enque uid vid doc DELETE fs s =
    (Ok (), synced (base.delete uid) (write_events DELETE uid vid d) [] s)
  ∧ Forall (λ oq : Z * list qdata,
      let evs := write_events oq.1 uid vid d ++ flush_events ++ (EvPut <$> oq.2) in
      writes_locked false evs = true ∧ lock_after false evs = false)
      [(CREATE, file_work uid vid d fs); (UPDATE, file_work uid vid d fs);
       (DELETE, [])].
Proof.
  split; [apply enque_create|]. split; [apply enque_update|].
  split; [apply enque_delete|].
  rewrite !Forall_cons, Forall_nil. unfold file_work.
  destruct (filestuff_truthy fs); cbn; repeat split; reflexivity.
Qed.

(** ** Resolving a version chain *)

Section Chain.
Context `{Collaborators}.

Lemma get_by_uid_prop_eq uid rev s q :
  chain_query uid rev s = Some q →
  get_by_uid_prop uid rev s =
    (Ok (MkContent <$> take 1000 (version_chain q s), length (version_chain q s)), s).
Proof.
  unfold chain_query, get_by_uid_prop, version_chain. intros Hq.
  destruct rev as [r|]; [destruct (decide (r = "tip"))|]; simplify_eq/=.
  - unfold bind at 1. unfold bind at 1. unfold backingstore_tip, bind at 1. cbn.
    destruct (backingstore s) as [b|]; simplify_eq/=.
    unfold _search, read_index_search. reflexivity.
  - unfold _search, read_index_search. reflexivity.
  - unfold _search, read_index_search. reflexivity.
Qed.

(** Resolving a chain reads the snapshot and changes nothing. *)
Lemma get_by_uid_prop_pure uid rev s r s' :
  get_by_uid_prop uid rev s = (r, s') → s' = s.
Proof.
  destruct (chain_query uid rev s) as [q|] eqn:Hq.
  - rewrite (get_by_uid_prop_eq _ _ _ _ Hq). congruence.
  - unfold chain_query in Hq. destruct rev as [r0|]; [|done].
    destruct (decide (r0 = "tip")); [|done].
    destruct (backingstore s) as [b|] eqn:Hb; [done|].
    unfold get_by_uid_prop, backingstore_tip. rewrite decide_True by done.
    unfold bind, gets. rewrite Hb. unfold raise. congruence.
Qed.

Lemma get_by_uid_prop_unbound uid rev s :
  chain_query uid rev s = None →
  get_by_uid_prop uid rev s =
    (Raise (AttributeError "'NoneType' object has no attribute 'tip'"), s).
Proof.
  unfold chain_query. intros Hq. destruct rev as [r0|]; [|done].
  destruct (decide (r0 = "tip")); [|done].
  destruct (backingstore s) as [b|] eqn:Hb; [done|].
  unfold get_by_uid_prop, backingstore_tip. rewrite decide_True by done.
  unfold bind, gets. rewrite Hb. reflexivity.
Qed.

Lemma get_by_uid_prop_inv uid rev s results count s' :
  get_by_uid_prop uid rev s = (Ok (results, count), s') →
  ∃ q, chain_query uid rev s = Some q
       ∧ results = MkContent <$> take 1000 (version_chain q s)
       ∧ count = length (version_chain q s).
Proof.
  intros Hres. destruct (chain_query uid rev s) as [q|] eqn:Hq.
  - rewrite (get_by_uid_prop_eq _ _ _ _ Hq) in Hres. exists q. by simplify_eq.
  - rewrite (get_by_uid_prop_unbound _ _ _ Hq) in Hres. discriminate.
Qed.

(** An engine that only reorders its hits returns each identity once. *)
Lemma chain_ids_NoDup q s :
  (∀ k l, engine_sort k l ≡ₚ l) →
  NoDup ((λ c, doc_id (_doc c)) <$> (MkContent <$> take 1000 (version_chain q s))).
Proof.
  intros Hsort. rewrite <- list_fmap_compose.
  eapply sublist_NoDup; [|apply fmap_sublist, sublist_take].
  unfold version_chain, matches. rewrite Hsort.
  eapply sublist_NoDup; [|apply fmap_sublist, sublist_filter].
  unfold store_docs. rewrite <- list_fmap_compose.
  apply (NoDup_fst_map_to_list (read_index s)).
Qed.

(** C10. [get_by_uid_prop] searches the fixed window [0, 1000): it yields
    the first 1000 documents of the version chain in the engine's order
    for "-vid" and nothing from rank 1000 on, while the count it returns
    is that of the whole chain. *)
Theorem get_by_uid_prop_window (uid : string) (rev : option string)
    (s : manager) (q : Query) :
  chain_query uid rev s = Some q →
  ∃ results : list Content,
    get_by_uid_prop uid rev s = (Ok (results, length (version_chain q s)), s)
    ∧ _doc <$> results = take 1000 (version_chain q s)
    ∧ length results ≤ 1000
    ∧ (∀ i, i < 1000 → _doc <$> results !! i = version_chain q s !! i)
    ∧ (∀ i, 1000 ≤ i → results !! i = None).
Proof.
  intros Hq. exists (MkContent <$> take 1000 (version_chain q s)).
  split; [by apply get_by_uid_prop_eq|].
  assert (Hlen : length (MkContent <$> take 1000 (version_chain q s)) ≤ 1000).
  { rewrite length_fmap, length_take. lia. }
  split; [|split; [done|split]].
  - rewrite <- list_fmap_compose. by rewrite list_fmap_id.
  - intros i Hi. rewrite list_lookup_fmap, <- option_fmap_compose.
    rewrite lookup_take_lt by done. by rewrite option_fmap_id.
  - intros i Hi. apply lookup_ge_None. lia.
Qed.

(** C7. [get] of an identity that the read snapshot does not hold raises
    [KeyError]; [tag] of a uid whose chain resolves to no result raises
    [KeyError] and leaves the manager, both connections included, as it
    was. *)
Theorem unknown_uid_not_found (uid tags : string) (rev : option string)
    (s : manager) :
  (store_get (read_index s) uid = None →
     get uid s = (Raise (KeyError uid), s))
  ∧ (∀ results s', get_by_uid_prop uid rev s = (Ok (results, 0), s') →
       tag uid tags rev s =
         (Raise (KeyError ("unable to apply tags to uid " +:+ uid)), s)).
Proof.
  split.
  - intros Hnone. unfold get. cbn. by rewrite Hnone.
  - intros results s' Hres.
    pose proof (get_by_uid_prop_pure _ _ _ _ _ Hres) as ->.
    unfold tag, bind. by rewrite Hres.
Qed.

(** C2. When the parser rejects the word, the [except] clause of
    [_query_parse] evaluates the name [string], which nothing binds: the
    call raises [NameError] after the one parse that failed, and no
    second parse takes place. *)
Theorem _query_parse_retry (word : string) (flags : Z) (op : option qop)
    (s : manager) :
  qp_accepts (default OP_AND op) word flags = false →
  _query_parse word flags op s =
    (Raise (NameError "string"), with_trace (trace s ++ [EvParse word flags]) s).
Proof.
  intros Hrej. unfold _query_parse, try_except, qp_parse_query.
  cbn. rewrite Hrej. reflexivity.
Qed.

(** Where the documented retry would succeed, the method raises. *)
Lemma _query_parse_departs word flags op s :
  qp_accepts (default OP_AND op) word flags = false →
  qp_accepts (default OP_AND op) word 0 = true →
  (_query_parse_documented word flags op s).1 = Ok (QParsed (default OP_AND op) word 0)
  ∧ (_query_parse word flags op s).1 = Raise (NameError "string").
Proof.
  intros Hrej Hacc. unfold _query_parse_documented, _query_parse, try_except, qp_parse_query.
  cbn. rewrite Hrej. cbn. rewrite Hacc. done.
Qed.

(** A word the parser accepts is parsed once, with the caller's flags. *)
Lemma _query_parse_accepted word flags op s :
  qp_accepts (default OP_AND op) word flags = true →
  _query_parse word flags op s =
    (Ok (QParsed (default OP_AND op) word flags),
     with_trace (trace s ++ [EvParse word flags]) s).
Proof.
  intros Hacc. unfold _query_parse, try_except, qp_parse_query.
  cbn. rewrite Hacc. reflexivity.
Qed.

End Chain.


(** ** Words of the tag grammar *)

Lemma append_nil_r (s : string) : s +:+ "" = s.
Proof.
  induction s as [|a s IH]; [reflexivity|].
  change (String a s +:+ "") with (String a (s +:+ "")). by rewrite IH.
Qed.

Lemma append_assoc (s1 s2 s3 : string) : (s1 +:+ s2) +:+ s3 = s1 +:+ (s2 +:+ s3).
Proof.
  induction s1 as [|a s1 IH]; [reflexivity|].
  change (String a ((s1 +:+ s2) +:+ s3) = String a (s1 +:+ (s2 +:+ s3))). by rewrite IH.
Qed.

Lemma split_go_word cur s :
  has_space s = false → cur +:+ s ≠ "" → Py.split_go cur s = [cur +:+ s].
Proof.
  revert cur. induction s as [|c s IH]; intros cur Hsp Hne.
  - rewrite append_nil_r in *. cbn. by rewrite decide_False.
  - cbn in Hsp. apply orb_false_iff in Hsp as [Hc Hs].
    cbn [Py.split_go]. rewrite Hc. rewrite IH; [|done|].
    + by rewrite append_assoc.
    + rewrite append_assoc. exact Hne.
Qed.

Lemma _parse_tags_remove_token t :
  plain_token t → _parse_tags ("-" +:+ t) = [(t, true, REMOVE)].
Proof.
  intros (Hne & Hlow & Hsp & Hsuf). unfold _parse_tags.
  change ("-" +:+ t) with (String "-" t). cbn [Py.lower].
  change (Py.lower_char "-") with "-"%char. rewrite Hlow.
  unfold Py.split. cbn [Py.split_go].
  change (Ascii.is_space "-") with false. cbn iota.
  rewrite split_go_word by done.
  change ("" +:+ "-" +:+ t) with (String "-" t). cbn [fmap list_fmap].
  change (Py.startswith "-" (String "-" t)) with true. cbn iota.
  change (Py.from1 (String "-" t)) with t. cbn [fst snd].
  by rewrite decide_False.
Qed.

Lemma _parse_tags_dash : _parse_tags "-" = [("", true, REMOVE)].
Proof. reflexivity. Qed.

(** ** Reading the converted text *)

Lemma take_drop n s : Py.take n s +:+ Py.drop n s = s.
Proof.
  revert s. induction n as [|n IH]; intros [|c s]; try reflexivity.
  cbn [Py.take Py.drop]. change (String c (Py.take n s +:+ Py.drop n s) = String c s).
  by rewrite IH.
Qed.

Lemma drop_length n s : String.length (Py.drop n s) = String.length s - n.
Proof.
  revert s. induction n as [|n IH]; intros [|c s]; cbn [Py.drop String.length];
    rewrite ?IH; lia.
Qed.

Lemma take_empty n s : Py.take (S n) s = "" → s = "".
Proof. by destruct s. Qed.

(** The fuel of [read_chunks] is enough: the chunks read are the whole
    text. *)
Lemma read_chunks_all fuel text :
  String.length text ≤ fuel →
  foldr String.append "" (read_chunks fuel text) = text.
Proof.
  unfold chunk_size. revert text. induction fuel as [|fuel IH]; intros text Hlen.
  - destruct text; [done|cbn in Hlen; lia].
  - cbn [read_chunks]. unfold chunk_size. destruct (decide _) as [Hempty|Hne].
    + apply take_empty in Hempty. by subst.
    + cbn [foldr]. unfold chunk_size in IH. rewrite IH.
      * apply take_drop.
      * rewrite drop_length. destruct text; [done|]. cbn in *. lia.
Qed.

(** ** Tagging *)

Lemma for_each_replace_document cs s :
  for_each cs write_index_replace_document s =
    (Ok (), with_write_index (replace_all cs)
              (with_trace (trace s ++ ((λ c, EvReplace (_doc c)) <$> cs)) s)).
Proof.
  revert s. induction cs as [|c cs IH]; intros s.
  - destruct s. run. by rewrite app_nil_r.
  - cbn [for_each]. unfold bind at 1. unfold write_index_replace_document at 1.
    cbn. rewrite IH. run. reflexivity.
Qed.

Lemma replace_all_other cs m id :
  id ∉ ids cs → replace_all cs m !! id = m !! id.
Proof.
  revert m. induction cs as [|c cs IH]; intros m Hid; [done|].
  cbn in *. apply not_elem_of_cons in Hid as [Hne Hid].
  unfold replace_all in *. cbn. rewrite IH by done. by rewrite lookup_insert_ne.
Qed.

(** Each identity written holds the last content written under it. *)
Lemma replace_all_lookup cs m id :
  id ∈ ids cs →
  ∃ c', c' ∈ cs ∧ doc_id (_doc c') = id
        ∧ replace_all cs m !! id = Some (to_stored (_doc c')).
Proof.
  revert m. induction cs as [|c0 cs IH]; intros m Hin; [by apply elem_of_nil in Hin|].
  destruct (decide (id ∈ ids cs)) as [Hlater|Hlater].
  - destruct (IH (<[doc_id (_doc c0) := to_stored (_doc c0)]> m) Hlater)
      as (c' & Hc' & Hid & Hlk).
    exists c'. split; [by right|]. split; [done|]. exact Hlk.
  - cbn in Hin. apply elem_of_cons in Hin as [->|Hin]; [|done].
    exists c0. split; [by left|]. split; [done|].
    change (replace_all (c0 :: cs) m)
      with (replace_all cs (<[doc_id (_doc c0):=to_stored (_doc c0)]> m)).
    rewrite replace_all_other by done. by rewrite lookup_insert_eq.
Qed.

Lemma replace_all_lookup_NoDup cs m c :
  NoDup (ids cs) → c ∈ cs →
  replace_all cs m !! doc_id (_doc c) = Some (to_stored (_doc c)).
Proof.
  intros Hnd Hin.
  destruct (replace_all_lookup cs m (doc_id (_doc c))) as (c' & Hc' & Hid & ->).
  { apply list_elem_of_fmap. eauto. }
  apply list_elem_of_lookup in Hin as [i Hi]. apply list_elem_of_lookup in Hc' as [j Hj].
  assert (i = j) as ->.
  { eapply NoDup_lookup; [exact Hnd| |]; unfold ids; rewrite list_lookup_fmap.
    - by rewrite Hi.
    - rewrite Hj. cbn. by rewrite Hid. }
  congruence.
Qed.

Lemma store_get_stored (m : gmap string stored) (d : document) :
  m !! doc_id d = Some (to_stored d) → store_get m (doc_id d) = Some d.
Proof. intros Hlk. unfold store_get. rewrite Hlk. by destruct d. Qed.

Section Tagging.
Context `{Collaborators}.

(** [tag] on a chain that is not empty: the edits are computed on the
    contents pulled from the read snapshot and written back to the write
    connection inside the lock; nothing is flushed. *)
Lemma tag_eq uid tags rev s results count s0 edited :
  get_by_uid_prop uid rev s = (Ok (results, count), s0) →
  count ≠ 0 →
  apply_tags (_parse_tags tags) false results = Ok edited →
  tag uid tags rev s = (Ok (), retagged edited s).
Proof.
  intros Hres Hcount Hedit.
  pose proof (get_by_uid_prop_pure _ _ _ _ _ Hres) as ->.
  unfold tag, bind at 1. rewrite Hres. cbn [fst snd].
  rewrite bool_decide_false by done.
  unfold bind at 1, lift. rewrite Hedit.
  unfold with_write_lock, bind at 1. cbn.
  rewrite for_each_replace_document. unfold retagged. run. reflexivity.
Qed.

Lemma tag_raises uid tags rev s results count s0 e :
  get_by_uid_prop uid rev s = (Ok (results, count), s0) →
  count ≠ 0 →
  apply_tags (_parse_tags tags) false results = Raise e →
  tag uid tags rev s = (Raise e, s).
Proof.
  intros Hres Hcount Hedit.
  pose proof (get_by_uid_prop_pure _ _ _ _ _ Hres) as ->.
  unfold tag, bind at 1. rewrite Hres. cbn [fst snd].
  rewrite bool_decide_false by done.
  unfold bind at 1, lift. by rewrite Hedit.
Qed.

Lemma clear_tags_data c : doc_data (_doc (clear_tags c)) !! "tags" = None.
Proof.
  unfold clear_tags. destruct (decide _) as [Hs|Hn]; cbn.
  - apply lookup_delete_eq.
  - by apply eq_None_not_Some.
Qed.

(** On the documents that [get_by_uid_prop] resolves, [tag(uid, "-")]
    does what it says: when some are resolved it deletes the ['tags']
    entry from the data blob of each of them and writes each back to the
    write connection, whatever their tags were, so each is left with no
    tags.  Every other document keeps its record. *)
Theorem tag_dash_clears (uid : string) (rev : option string) (s s0 : manager)
    (results : list Content) (count : nat) :
  get_by_uid_prop uid rev s = (Ok (results, count), s0) →
  count ≠ 0 →
  tag uid "-" rev s = (Ok (), retagged (clear_tags <$> results) s)
  ∧ (∀ c, c ∈ results →
       ∃ d, store_get (write_index (retagged (clear_tags <$> results) s))
              (doc_id (_doc c)) = Some d
            ∧ doc_data d !! "tags" = None
            ∧ tag_set d = ∅)
  ∧ (∀ id, id ∉ ids results →
       write_index (retagged (clear_tags <$> results) s) !! id = write_index s !! id).
Proof.
  intros Hres Hcount. split; [|split].
  - eapply tag_eq; [exact Hres|exact Hcount|]. reflexivity.
  - intros c Hc. cbn [write_index retagged].
    assert (Hsame : ∀ c, doc_id (_doc (clear_tags c)) = doc_id (_doc c)).
    { intros c0. unfold clear_tags. by destruct (decide _). }
    assert (Hin : doc_id (_doc c) ∈ ids (clear_tags <$> results)).
    { apply list_elem_of_fmap. exists (clear_tags c).
      split; [by rewrite Hsame|]. apply list_elem_of_fmap. eauto. }
    destruct (replace_all_lookup _ (write_index s) _ Hin) as (c' & Hc' & Hid & Hlk).
    unfold store_get. rewrite Hlk. cbn.
    eexists. split; [reflexivity|].
    apply list_elem_of_fmap in Hc' as (c0 & -> & _).
    cbn. split; [apply clear_tags_data|].
    unfold tag_set, get_property. cbn. by rewrite clear_tags_data.
  - intros id Hid. cbn [write_index retagged]. apply replace_all_other.
    unfold ids in *. rewrite <- list_fmap_compose.
    intros Hin. apply Hid. apply list_elem_of_fmap in Hin as (c & -> & Hc).
    apply list_elem_of_fmap. exists c. split; [|done].
    cbn. unfold clear_tags. by destruct (decide _).
Qed.

Lemma edit_tag_set tag mode c :
  tag_set (_doc (edit_tag tag mode c)) =
    if bool_decide (tag ∈ tag_set (_doc c)) && (mode =? REMOVE)%Z
    then tag_set (_doc c) ∖ {[tag]}
    else tag_set (_doc c) ∪ {[tag]}.
Proof.
  destruct c as [d]. unfold tag_set, edit_tag, get_property. cbn.
  rewrite lookup_insert_eq. cbn. by rewrite list_to_set_elements_L.
Qed.

(** C9. The edit of one tag removes it only when it is present and remove
    mode is asked for; in every other case it adds it.  So [tag(uid, "-t")]
    on a chain that is not empty writes back, for every document of the
    chain whose tag set lacks [t], a document whose tag set is the old one
    with [t] added. *)
Theorem untag_absent_adds (uid t : string) (rev : option string)
    (s s0 : manager) (results : list Content) (count : nat) :
  (∀ tag mode c,
     tag_set (_doc (edit_tag tag mode c)) =
       if bool_decide (tag ∈ tag_set (_doc c)) && (mode =? REMOVE)%Z
       then tag_set (_doc c) ∖ {[tag]}
       else tag_set (_doc c) ∪ {[tag]})
  ∧ ((∀ k l, engine_sort k l ≡ₚ l) →
     plain_token t →
     get_by_uid_prop uid rev s = (Ok (results, count), s0) →
     count ≠ 0 →
     tag uid ("-" +:+ t) rev s = (Ok (), retagged (edit_tag t REMOVE <$> results) s)
     ∧ ∀ c, c ∈ results → t ∉ tag_set (_doc c) →
         ∃ d, store_get (write_index (retagged (edit_tag t REMOVE <$> results) s))
                (doc_id (_doc c)) = Some d
              ∧ tag_set d = tag_set (_doc c) ∪ {[t]}
              ∧ t ∈ tag_set d).
Proof.
  split; [apply edit_tag_set|].
  intros Hsort Htok Hres Hcount. split.
  - eapply tag_eq; [exact Hres|exact Hcount|].
    rewrite _parse_tags_remove_token by done. cbn.
    destruct Htok as (Hne & _). by rewrite bool_decide_false.
  - intros c Hc Habsent. cbn [write_index retagged].
    destruct (get_by_uid_prop_inv _ _ _ _ _ _ Hres) as (q & Hq & -> & _).
    assert (Hnd : NoDup (ids (edit_tag t REMOVE <$> (MkContent <$> take 1000 (version_chain q s))))).
    { unfold ids. rewrite <- list_fmap_compose.
      pose proof (chain_ids_NoDup q s Hsort) as Hnd. exact Hnd. }
    assert (Hin : edit_tag t REMOVE c ∈ edit_tag t REMOVE <$> (MkContent <$> take 1000 (version_chain q s)))
      by (apply list_elem_of_fmap; eauto).
    pose proof (replace_all_lookup_NoDup _ (write_index s) _ Hnd Hin) as Hlk.
    apply store_get_stored in Hlk.
    exists (_doc (edit_tag t REMOVE c)). split; [exact Hlk|].
    assert (Hset : tag_set (_doc (edit_tag t REMOVE c)) = tag_set (_doc c) ∪ {[t]}).
    { rewrite edit_tag_set. by rewrite bool_decide_false. }
    split; [exact Hset|]. rewrite Hset. apply elem_of_union_r. by apply elem_of_singleton.
Qed.

End Tagging.

(** C4. On a manager whose index holds one flushed document without tags,
    [tag(uid, "alpha beta")] followed by [tag(uid, "-alpha")] leaves the
    document with the tag set {alpha}, not {beta}: [tag] writes to the write
    connection and does not flush, so the second call still reads the
    untagged document from the read snapshot and, finding no "alpha" to
    remove, adds it. *)
Theorem tag_twice_reads_stale_snapshot :
  let tag := @tag Demo.demo in
  let r := (tag "u1" "alpha beta" None ;; tag "u1" "-alpha" None) Demo.s0 in
  r.1 = Ok ()
  ∧ Demo.tags_of "d1" r.2 = Some {["alpha"]}
  ∧ Demo.tags_of "d1" r.2 ≠ Some {["beta"]}
  ∧ tag_set <$> store_get (read_index r.2) "d1" = Some ∅.
Proof.
  vm_compute. repeat split; discriminate.
Qed.

(** With a flush between the two calls the second one sees the first. *)
Example tag_twice_with_flush :
  let tag := @tag Demo.demo in
  let r := (tag "u1" "alpha beta" None ;; flush ;; tag "u1" "-alpha" None) Demo.s0 in
  r.1 = Ok () ∧ Demo.tags_of "d1" r.2 = Some {["beta"]}.
Proof.
  vm_compute. repeat split.
Qed.

(** *** A chain longer than the window *)

Section LongChain.
Existing Instance Demo.demo.
Import Demo Sample.

(** C5. [tag(uid, "-")] does not reach every document of the version
    chain.  On a manager whose index holds 1001 flushed versions of one
    uid, each tagged, the call returns normally; the 1000 versions that
    [get_by_uid_prop] resolves are left without tags and the version at
    rank 1000 of the chain keeps its tag set.  The method's comment says
    that it pulls the whole version chain; what it pulls is the window
    [0, 1000) of the search. *)
Theorem tag_dash_misses_versions :
  let chain := version_chain (QField "uid" (Py.VStr "u9")) s_tagged in
  let r := tag "u9" "-" None s_tagged in
  r.1 = Ok ()
  ∧ length chain = 1001
  ∧ Forall (λ d, tags_of (doc_id d) r.2 = Some ∅) (take 1000 chain)
  ∧ ∃ d, chain !! 1000 = Some d
         ∧ tag_set d = {["x"]}
         ∧ tags_of (doc_id d) r.2 = Some {["x"]}.
Proof.
  intros chain r.
  assert (Hlen : length chain = 1001) by (vm_compute; reflexivity).
  assert (Hres : get_by_uid_prop "u9" None s_tagged
                 = (Ok (MkContent <$> take 1000 chain, length chain), s_tagged)).
  { by apply get_by_uid_prop_eq. }
  destruct (tag_dash_clears "u9" None s_tagged s_tagged _ _ Hres)
    as (Htag & Hclear & Hother); [rewrite Hlen; discriminate|].
  subst r. rewrite Htag. cbn [fst snd].
  split; [done|]. split; [done|]. split.
  - apply Forall_forall. intros d Hd.
    destruct (Hclear (MkContent d)) as (d' & Hget & _ & Hset).
    { apply list_elem_of_fmap. eauto. }
    unfold tags_of. cbn [_doc] in Hget. rewrite Hget. cbn. by rewrite Hset.
  - eexists. split; [vm_compute; reflexivity|]. split; [vm_compute; reflexivity|].
    unfold tags_of, store_get. rewrite Hother.
    + vm_compute. reflexivity.
    + compute_done.
Qed.

End LongChain.

(** ** The textual query *)

Section Textual.
Context `{Collaborators}.

Lemma find_quote_after s pos e : find_quote s pos = Some e → pos < e.
Proof.
  revert pos. induction s as [|c s IH]; intros pos; cbn; [done|].
  destruct (decide _); [intros [= <-]; lia|]. intros He. apply IH in He. lia.
Qed.

Lemma endquote_search_after query start e :
  endquote_search query start = Some e → start < e.
Proof.
  unfold endquote_search. destruct (decide _); [|done]. apply find_quote_after.
Qed.

(** The fuel of [parse_query_loop] is enough: every turn moves [start]
    forward, so with fuel for the text that remains the loop ends because
    [start] reaches the end of the text, and more fuel changes nothing. *)
Lemma parse_query_loop_fuel fuel1 fuel2 query start flags queries s :
  String.length query ≤ start + fuel1 →
  String.length query ≤ start + fuel2 →
  parse_query_loop fuel1 query start flags queries s
  = parse_query_loop fuel2 query start flags queries s.
Proof.
  revert fuel2 start flags queries s.
  induction fuel1 as [|fuel1 IH]; intros [|fuel2] start flags queries s Hlen1 Hlen2.
  - reflexivity.
  - cbn [parse_query_loop]. rewrite decide_False by lia. reflexivity.
  - cbn [parse_query_loop]. rewrite decide_False by lia. reflexivity.
  - cbn [parse_query_loop].
    destruct (decide (start < String.length query)); [|done].
    destruct (nextword_match query start) as [word|]; [|done].
    rewrite !bind_gets.
    set (fw := if Py.contains_char ":" word then _ else _).
    set (wfs := if Py.startswith _ _ then _ else _).
    assert (Hnext : start < wfs.2).
    { subst wfs. destruct (Py.startswith _ _); [|cbn; lia].
      destruct (endquote_search _ _) as [e|] eqn:He; [|cbn; lia].
      apply endquote_search_after in He. cbn. lia. }
    clearbody wfs fw.
    destruct (_ && _).
    + apply IH; lia.
    + unfold bind. destruct (_query_parse _ _ _ _) as [[q|e] s1]; [|done].
      apply IH; lia.
Qed.

(** [parse_query] with the length of the text as fuel is the loop run to
    its end. *)
Corollary parse_query_fuel query fuel s :
  String.length query ≤ fuel →
  parse_query (Py.VStr query) s =
    bind (parse_query_loop fuel query 0 FLAG_LOVEHATE [])
         (λ queries, ret (QComposite OP_AND queries)) s.
Proof.
  intros Hlen. unfold parse_query, bind.
  by rewrite (parse_query_loop_fuel (String.length query) fuel) by lia.
Qed.

End Textual.

(** ** The structured query *)

Lemma get_remove_ne {V} (k k' : string) (d : list (string * V)) :
  k ≠ k' → Py.get k (Py.remove k' d) = Py.get k d.
Proof.
  intros Hne. induction d as [|[k0 v0] d IH]; [done|]. cbn.
  destruct (decide (k0 = k')) as [->|Hk0]; cbn.
  - rewrite IH. by rewrite decide_False.
  - by rewrite IH.
Qed.

Section Structured.
Context `{Collaborators}.

Lemma clause_spec k v c s :
  spec_clause k v c → clause k v s = (Ok c, s).
Proof.
  intros [dv lo hi Hlo Hhi|l|v' Hnd Hnl]; unfold clause.
  - unfold Py.pop. cbn [fst snd]. rewrite get_remove_ne by done.
    unfold bind, lift. rewrite Hlo, Hhi. reflexivity.
  - reflexivity.
  - destruct v'; try reflexivity; [by destruct (Hnl l)|by destruct (Hnd d)].
Qed.

Lemma clauses_spec d cs acc s :
  Forall2 (λ kv c, spec_clause kv.1 kv.2 c) d cs →
  clauses d acc s = (Ok (acc ++ cs), s).
Proof.
  intros Hcs. revert acc. induction Hcs as [|[k v] c d cs Hc _ IH]; intros acc.
  - cbn. by rewrite app_nil_r.
  - cbn [clauses]. unfold bind at 1. rewrite (clause_spec _ _ _ _ Hc).
    rewrite IH. by rewrite <- app_assoc.
Qed.

Lemma search_query_clauses d cs s :
  Forall2 (λ kv c, spec_clause kv.1 kv.2 c) (Py.remove "query" d) cs →
  Py.truthy (default Py.VNone (Py.get "query" d)) = false →
  Py.remove "query" d ≠ [] →
  search_query (Py.VDict d) s = (Ok (QComposite OP_AND cs), s).
Proof.
  intros Hcs Hfalsy Hrest. unfold search_query.
  assert (Py.truthy (Py.VDict d) = true) as ->.
  { destruct d; [done|reflexivity]. }
  cbn [negb]. unfold Py.pop. cbn [fst snd]. rewrite Hfalsy.
  unfold bind at 1, ret at 1.
  assert (Py.truthy (Py.VDict (Py.remove "query" d)) = true) as ->.
  { destruct (Py.remove "query" d); [done|reflexivity]. }
  cbn [negb andb]. unfold bind. rewrite (clauses_spec _ _ _ _ Hcs). reflexivity.
Qed.

Lemma search_query_text_and_clauses d cs s t pq s' :
  Forall2 (λ kv c, spec_clause kv.1 kv.2 c) (Py.remove "query" d) cs →
  Py.get "query" d = Some t → Py.truthy t = true →
  parse_query t s = (Ok pq, s') →
  search_query (Py.VDict d) s = (Ok (QComposite OP_AND (pq :: cs)), s').
Proof.
  intros Hcs Hget Ht Hparse. unfold search_query.
  assert (Py.truthy (Py.VDict d) = true) as ->.
  { destruct d; [done|reflexivity]. }
  cbn [negb]. unfold Py.pop. cbn [fst snd]. rewrite Hget. cbn [default from_option id].
  rewrite Ht. unfold bind at 1. unfold bind at 1. rewrite Hparse.
  unfold ret at 1. rewrite bool_decide_false by done. rewrite andb_false_r.
  unfold bind. rewrite (clauses_spec _ _ _ _ Hcs). reflexivity.
Qed.

(** C6. For a structured query, each key other than ['query'] becomes the
    clause the specification names (range, OR of field matches, field
    match), a non-empty ['query'] text is parsed by [parse_query] and its
    result comes first, and [search] hands the engine the AND of these
    clauses, in the order the dictionary is iterated.  For the example of
    the specification this is (category = a OR category = b) AND (date in
    the range of the parsed bounds 0 and 100). *)
Theorem search_query_structured (d : list (string * Py.value)) (cs : list Query)
    (s : manager) :
  (Forall2 (λ kv c, spec_clause kv.1 kv.2 c) (Py.remove "query" d) cs →
     (Py.truthy (default Py.VNone (Py.get "query" d)) = false →
      Py.remove "query" d ≠ [] →
      search_query (Py.VDict d) s = (Ok (QComposite OP_AND cs), s))
     ∧ (∀ t pq s', Py.get "query" d = Some t → Py.truthy t = true →
          parse_query t s = (Ok pq, s') →
          search_query (Py.VDict d) s = (Ok (QComposite OP_AND (pq :: cs)), s')))
  ∧ (∀ lo hi,
       parse_timestamp_or_float (Py.VInt 0) = Ok lo →
       parse_timestamp_or_float (Py.VInt 100) = Ok hi →
       let category := ("category", Py.VList [Py.VStr "a"; Py.VStr "b"]) in
       let date := ("date", Py.VDict [("start", Py.VInt 0); ("end", Py.VInt 100)]) in
       let either := QComposite OP_OR [QField "category" (Py.VStr "a");
                                       QField "category" (Py.VStr "b")] in
       search_query (Py.VDict [category; date]) s =
         (Ok (QComposite OP_AND [either; QRange "date" lo hi]), s)
       ∧ search_query (Py.VDict [date; category]) s =
         (Ok (QComposite OP_AND [QRange "date" lo hi; either]), s)).
Proof.
  split.
  - intros Hcs. split.
    + by apply search_query_clauses.
    + intros t pq s'. by apply search_query_text_and_clauses.
  - intros lo hi Hlo Hhi category date either.
    assert (Hcat : spec_clause "category" category.2 either) by apply spec_list.
    assert (Hdate : spec_clause "date" date.2 (QRange "date" lo hi))
      by (by apply spec_range).
    split; apply search_query_clauses; try done; repeat constructor; done.
Qed.

End Structured.

(** ** The worker loop *)

Section Preserves.
Context (P : manager → manager → Prop) `{!Reflexive P} `{!Transitive P}.

Lemma preserves_ret {A} (a : A) : preserves P (ret a).
Proof. intros s r s' [= <- <-]. reflexivity. Qed.

Lemma preserves_raise {A} e : preserves P (@raise A e).
Proof. intros s r s' [= <- <-]. reflexivity. Qed.

Lemma preserves_lift {A} (x : res A) : preserves P (lift x).
Proof. intros s r s' [= <- <-]. reflexivity. Qed.

Lemma preserves_gets {A} (f : manager → A) : preserves P (gets f).
Proof. intros s r s' [= <- <-]. reflexivity. Qed.

Lemma preserves_modify f : (∀ s, P s (f s)) → preserves P (modify f).
Proof. intros Hf s r s' [= <- <-]. apply Hf. Qed.

Lemma preserves_bind {A B} (m : M A) (k : A → M B) :
  preserves P m → (∀ a, preserves P (k a)) → preserves P (bind m k).
Proof.
  intros Hm Hk s r s'. unfold bind.
  destruct (m s) as [[a|e] s1] eqn:Hms.
  - intros Hks. etransitivity; [eapply Hm, Hms|eapply Hk, Hks].
  - intros [= <- <-]. eapply Hm, Hms.
Qed.

Lemma preserves_for_each {A} (l : list A) (body : A → M unit) :
  (∀ x, preserves P (body x)) → preserves P (for_each l body).
Proof.
  intros Hbody. induction l as [|x l IH]; cbn [for_each].
  - apply preserves_ret.
  - apply preserves_bind; [apply Hbody|intros _; apply IH].
Qed.

End Preserves.

Lemma count_done_app t1 t2 : count_done (t1 ++ t2) = count_done t1 + count_done t2.
Proof.
  induction t1 as [|e t1 IH]; [done|]. destruct e; cbn; rewrite ?IH; done.
Qed.

#[local] Instance same_control_refl : Reflexive same_control.
Proof. intros s. by repeat split. Qed.

#[local] Instance same_control_trans : Transitive same_control.
Proof.
  intros s1 s2 s3 (? & ? & ? & ?) (? & ? & ? & ?). repeat split; congruence.
Qed.

Lemma emit_control e :
  e ≠ EvTaskDone → preserves same_control (emit e).
Proof.
  intros He. apply preserves_modify. intros s. repeat split.
  unfold with_trace. cbn [trace]. rewrite count_done_app.
  destruct e; cbn; try lia. done.
Qed.

Lemma write_index_control f :
  preserves same_control (modify (with_write_index f)).
Proof. apply preserves_modify. intros s. by repeat split. Qed.

Lemma files_control f :
  preserves same_control (modify (with_files f)).
Proof. apply preserves_modify. intros s. by repeat split. Qed.

Lemma control_bind {A B} (m : M A) (k : A → M B) :
  preserves same_control m → (∀ a, preserves same_control (k a)) →
  preserves same_control (bind m k).
Proof. apply preserves_bind, _. Qed.

(** The steps of a computation that keeps [same_control], one at a time;
    a [match] or [if] is followed into its branches. *)
Ltac control :=
  repeat first
    [ apply preserves_ret; apply _
    | apply preserves_raise; apply _
    | apply preserves_lift; apply _
    | apply preserves_gets; apply _
    | apply write_index_control
    | apply files_control
    | apply emit_control; discriminate
    | apply control_bind; [|intros ?]
    | match goal with
      | |- preserves _ (match ?x with _ => _ end) => destruct x
      end ].

Section WorkerProperties.
Context `{Collaborators}.

Lemma process_item_control v i it :
  preserves same_control (process_item v i it).
Proof.
  unfold process_item, write_index_delete, write_index_replace, unpack_filestuff,
    os_unlink, no_document, log.
  control.
Qed.

(** One pass over a batch, by the outcome of its items. *)
Lemma indexThread_pass_run v i d q' data s :
  queue s = d :: q' → as_batch d = Ok data →
  indexThread_pass v i s =
    match for_each data (process_item v i) (entered d q' s) with
    | (Ok _, s2) =>
        match unfinished_tasks s2 with
        | S n => (Ok (), with_trace (trace s2 ++ [EvTaskDone; EvRelease])
                           (with_queue (queue s2) n s2))
        | O => (Ok (), failed s2)
        end
    | (Raise e, s2) => (Ok (), failed s2)
    end.
Proof.
  intros Hq Hd. unfold indexThread_pass, dequeue, apply_batch, failed, entered.
  destruct s. cbn in Hq. subst. run_monad. rewrite Hd. run_monad.
  rewrite <- app_assoc. cbn [app].
  destruct (for_each data (process_item v i) _) as [[[]|e] s2]; [|by destruct s2; run_monad; rewrite <- app_assoc].
  destruct s2 as [? ? ? ? [|n] ? ? ? ? ? ? ? ?]; run_monad; by rewrite <- app_assoc.
Qed.

(** What a pass over a batch guarantees. *)
Lemma indexThread_pass_batch v i d q' data s :
  queue s = d :: q' → as_batch d = Ok data →
  let r := for_each data (process_item v i) (entered d q' s) in
  ∃ s', indexThread_pass v i s = (Ok (), s')
    ∧ queue s' = q'
    ∧ indexer_running s' = indexer_running s
    ∧ (∀ e, r.1 = Raise e →
         s' = failed r.2
         ∧ unfinished_tasks s' = unfinished_tasks s
         ∧ count_done (trace s') = count_done (trace s))
    ∧ (r.1 = Ok () → 0 < unfinished_tasks s →
         trace s' = trace r.2 ++ [EvTaskDone; EvRelease]
         ∧ S (unfinished_tasks s') = unfinished_tasks s
         ∧ count_done (trace s') = S (count_done (trace s)))
    ∧ (count_done (trace s') ≠ count_done (trace s) → r.1 = Ok ()).
Proof.
  intros Hq Hd r. rewrite (indexThread_pass_run _ _ _ _ _ _ Hq Hd).
  assert (Hctl : same_control (entered d q' s) r.2).
  { eapply (preserves_for_each same_control); [apply process_item_control|].
    subst r. apply surjective_pairing. }
  fold r. destruct r as [[[]|e] s2]. all: cbn [fst snd] in *.
  all: destruct Hctl as (Hqueue & Hunf & Hrun & Hdone).
  all: unfold entered in Hqueue, Hunf, Hrun, Hdone.
  all: destruct s; cbn in Hqueue, Hunf, Hrun, Hdone |- *.
  all: rewrite count_done_app in Hdone; cbn in Hdone; rewrite Nat.add_0_r in Hdone.
  - destruct s2 as [? ? ? ? [|n] ? ? ? ? ? ? ? ?]; cbn in *; subst.
    + eexists. split; [reflexivity|]. cbn. repeat split; try done; try lia.
      all: try (intros Hne; exfalso; apply Hne).
      all: rewrite count_done_app; cbn; lia.
    + eexists. split; [reflexivity|]. cbn. repeat split; try done.
      all: rewrite count_done_app; cbn; lia.
  - destruct s2; cbn in *; subst.
    eexists. split; [reflexivity|]. cbn. repeat split; try done.
    all: try (intros Hne; exfalso; apply Hne).
    all: rewrite count_done_app; cbn; lia.
Qed.

(** An item whose operation is neither DELETE nor UPDATE. *)
Lemma process_item_unknown v i it s :
  it_op it ≠ DELETE → it_op it ≠ UPDATE →
  process_item v i it s =
    (Ok (), with_trace (trace s ++ [EvLog WARNING
              ("Unknown indexer operation ( " +:+ it_uid it +:+ ": "
               +:+ pretty (it_op it) +:+ ")")]) s).
Proof.
  intros Hd Hu. unfold process_item.
  apply Z.eqb_neq in Hd, Hu. rewrite Hd, Hu. reflexivity.
Qed.

(** A pass returns normally unless the element it takes is an empty
    sequence, and hands the rest of the queue to the next pass. *)
Lemma indexThread_pass_ok v i s :
  Forall (λ d, d ≠ QSeq []) (queue s) →
  ∃ s', indexThread_pass v i s = (Ok (), s')
        ∧ Forall (λ d, d ≠ QSeq []) (queue s')
        ∧ length (queue s') = pred (length (queue s)).
Proof.
  intros Hall. destruct (queue s) as [|d q'] eqn:Hq.
  - exists s. unfold indexThread_pass, dequeue, bind, gets. rewrite Hq. done.
  - apply Forall_cons in Hall as [Hd Hq'].
    assert (∃ data, as_batch d = Ok data) as [data Hdata].
    { destruct d as [it|[|it its]]; [by eexists| done | by eexists]. }
    destruct (indexThread_pass_batch v i d q' data s Hq Hdata) as (s' & Hrun & Hqs & _).
    exists s'. rewrite Hqs. done.
Qed.

Lemma indexThread_loop_total v i n s :
  Forall (λ d, d ≠ QSeq []) (queue s) →
  ∃ b s', indexThread_loop n v i s = (Ok b, s').
Proof.
  revert s. induction n as [|n IH]; intros s Hall.
  - by eexists _, _.
  - cbn [indexThread_loop]. unfold bind at 1, gets at 1.
    destruct (indexer_running s); [|by eexists _, _].
    destruct (indexThread_pass_ok v i s Hall) as (s' & Hpass & Hall' & _).
    unfold bind. rewrite Hpass. apply IH, Hall'.
Qed.

(** C8. A pass of the worker over a queued batch always returns normally:
    when an item of the batch raises, the exception is caught, the lock is
    released, "Error in indexer" is logged, [task_done] is not called, and
    the rest of the queue is what the next pass takes from; the queue is
    marked done exactly once, after the last item, when no item raised.  An
    item whose operation is neither DELETE nor UPDATE is logged with a
    warning and changes nothing else.  The loop therefore never ends on an
    exception of an item, however many passes it makes. *)
Theorem worker_isolates_failures (v i : bool) :
  (∀ s d q' data, queue s = d :: q' → as_batch d = Ok data →
     let r := for_each data (process_item v i) (entered d q' s) in
     ∃ s', indexThread_pass v i s = (Ok (), s')
       ∧ queue s' = q'
       ∧ indexer_running s' = indexer_running s
       ∧ (∀ e, r.1 = Raise e →
            s' = failed r.2
            ∧ unfinished_tasks s' = unfinished_tasks s
            ∧ count_done (trace s') = count_done (trace s))
       ∧ (r.1 = Ok () → 0 < unfinished_tasks s →
            trace s' = trace r.2 ++ [EvTaskDone; EvRelease]
            ∧ S (unfinished_tasks s') = unfinished_tasks s
            ∧ count_done (trace s') = S (count_done (trace s)))
       ∧ (count_done (trace s') ≠ count_done (trace s) → r.1 = Ok ()))
  ∧ (∀ it s, it_op it ≠ DELETE → it_op it ≠ UPDATE →
       process_item v i it s =
         (Ok (), with_trace (trace s ++ [EvLog WARNING
                   ("Unknown indexer operation ( " +:+ it_uid it +:+ ": "
                    +:+ pretty (it_op it) +:+ ")")]) s))
  ∧ (∀ n s, Forall (λ d, d ≠ QSeq []) (queue s) →
       ∃ b s', indexThread_loop n v i s = (Ok b, s')).
Proof.
  split; [|split].
  - intros s d q' data. apply indexThread_pass_batch.
  - intros it s. apply process_item_unknown.
  - intros n s. apply indexThread_loop_total.
Qed.

(** The one queue element that ends the worker: an empty sequence put by
    [enqueSequence], on which [data[0]] raises outside the [try] block that
    guards the batch. *)
Remark empty_sequence_ends_worker v i q' s :
  queue s = QSeq [] :: q' →
  (indexThread_pass v i s).1 = Raise IndexError.
Proof.
  intros Hq. unfold indexThread_pass, dequeue. destruct s. cbn in Hq. subst.
  reflexivity.
Qed.

End WorkerProperties.

(** ** Indexing a document *)

Section Runs.
Context (P : manager → manager → Prop) `{!Reflexive P} `{!Transitive P}.

Lemma runs_ret {A} (Q : A → Prop) (a : A) : Q a → runs P Q (ret a).
Proof. intros Ha s. by exists a, s. Qed.

Lemma runs_gets {A} (Q : A → Prop) (f : manager → A) :
  (∀ s, Q (f s)) → runs P Q (gets f).
Proof. intros Hf s. by exists (f s), s. Qed.

Lemma runs_modify f : (∀ s, P s (f s)) → runs P (λ _, True) (modify f).
Proof. intros Hf s. by exists (), (f s). Qed.

Lemma runs_bind {A B} (Q : A → Prop) (R : B → Prop) (m : M A) (k : A → M B) :
  runs P Q m → (∀ a, Q a → runs P R (k a)) → runs P R (bind m k).
Proof.
  intros Hm Hk s. destruct (Hm s) as (a & s1 & Hms & HP1 & Ha).
  destruct (Hk a Ha s1) as (b & s2 & Hks & HP2 & Hb).
  exists b, s2. unfold bind. rewrite Hms. split; [done|]. split; [|done].
  by etransitivity.
Qed.

Lemma runs_weaken {A} (Q Q' : A → Prop) (m : M A) :
  (∀ a, Q a → Q' a) → runs P Q m → runs P Q' m.
Proof.
  intros HQ Hm s. destruct (Hm s) as (a & s' & ? & ? & ?). exists a, s'. auto.
Qed.

Lemma runs_for_each {A} (l : list A) (body : A → M unit) :
  (∀ x, runs P (λ _, True) (body x)) → runs P (λ _, True) (for_each l body).
Proof.
  intros Hbody. induction l as [|x l IH]; cbn [for_each].
  - by apply runs_ret.
  - eapply runs_bind; [apply Hbody|]. intros _ _. apply IH.
Qed.

End Runs.

#[local] Instance index_frame_refl : Reflexive index_frame.
Proof. intros s. by repeat split. Qed.

#[local] Instance index_frame_trans : Transitive index_frame.
Proof.
  intros s1 s2 s3 (? & ? & ? & ? & ? & ? & ?) (? & ? & ? & ? & ? & ? & ?).
  repeat split; congruence.
Qed.

Lemma emit_frame e : runs index_frame (λ _, True) (emit e).
Proof. apply runs_modify. intros s. by repeat split. Qed.

Lemma fields_frame f :
  runs index_frame (λ _, True) (modify (λ s, with_fields (f s) s)).
Proof. apply runs_modify. intros s. by repeat split. Qed.

Lemma datamodel_frame dm : runs index_frame (λ _, True) (modify (with_datamodel dm)).
Proof. apply runs_modify. intros s. by repeat split. Qed.

Lemma with_write_lock_frame {A} (Q : A → Prop) (m : M A) :
  runs index_frame Q m → runs index_frame Q (with_write_lock m).
Proof.
  intros Hm s. unfold with_write_lock.
  destruct (emit_frame EvAcquire s) as ([] & s1 & Hacq & HP1 & _).
  destruct (Hm s1) as (a & s2 & Hms & HP2 & Ha).
  unfold bind. rewrite Hacq, Hms. eexists a, _. split; [reflexivity|].
  split; [|done]. etransitivity; [exact HP1|]. etransitivity; [exact HP2|].
  by repeat split.
Qed.

Lemma addField_frame key store exact sortable type collapse :
  runs index_frame (λ _, True) (addField key store exact sortable type collapse).
Proof.
  unfold addField.
  repeat (eapply (runs_bind index_frame (λ _, True)); [|intros _ _]).
  all: try apply fields_frame.
  all: repeat match goal with
         | |- runs _ _ (if ?b then _ else _) => destruct b
         end.
  all: first [apply emit_frame | by apply runs_ret].
Qed.

Lemma datamodel_apply_frame : runs index_frame (λ _, True) datamodel_apply.
Proof.
  unfold datamodel_apply.
  eapply (runs_bind index_frame (λ _, True)); [by apply runs_gets|]. intros dm _.
  apply runs_for_each; [apply _..|]. intros fd. apply addField_frame.
Qed.

Section IndexProperties.
Context `{Collaborators}.

Lemma map_property_frame acc kv :
  maps_all → runs index_frame (λ _, True) (map_property acc kv).
Proof.
  intros Hall s. unfold map_property. unfold bind at 1, gets at 1.
  destruct (Hall (datamodel s) kv.1 kv.2) as [[p [fd|]] Hpa].
  - unfold bind at 1, lift at 1. rewrite Hpa. cbn [fst snd].
    eapply (runs_bind index_frame (λ _, True)); [apply datamodel_frame|]. intros _ _.
    eapply (runs_bind index_frame (λ _, True)).
    + apply (fields_frame (λ s, fields s ∪ {[p_key p]})).
    + intros _ _. by apply runs_ret.
  - unfold bind at 1, lift at 1. rewrite Hpa. cbn [fst snd]. by apply runs_ret.
Qed.

Lemma map_properties_frame props acc :
  maps_all → runs index_frame (λ _, True) (map_properties props acc).
Proof.
  intros Hall. revert acc. induction props as [|kv props IH]; intros acc; cbn.
  - by apply runs_ret.
  - eapply runs_bind; [apply _|by apply map_property_frame|]. intros acc' _. apply IH.
Qed.

Lemma _mapProperties_frame props :
  maps_all → runs index_frame (λ _, True) (_mapProperties props).
Proof.
  intros Hall. unfold _mapProperties.
  eapply runs_bind; [apply _|by apply map_properties_frame|]. intros r _.
  eapply (runs_bind index_frame (λ _, True)).
  - destruct r.2; [|by apply runs_ret].
    apply with_write_lock_frame, datamodel_apply_frame.
  - intros _ _. by apply runs_ret.
Qed.

Lemma index_fields_frame props doc :
  runs index_frame (λ d, doc_id d = doc_id doc) (index_fields props doc).
Proof.
  revert doc. induction props as [|[k prop] props IH]; intros doc; cbn [index_fields].
  - by apply runs_ret.
  - eapply (runs_bind index_frame (λ _, True)); [by apply runs_gets|]. intros known _.
    destruct (negb _).
    + eapply (runs_bind index_frame (λ _, True)); [apply emit_frame|]. intros _ _. apply IH.
    + eapply runs_weaken; [|apply IH]. intros d ->. reflexivity.
Qed.

(** [index] once the logical uid, the operation, the version and the
    engine identity are settled: the properties are mapped, the fields
    built, and the document handed to [enque]. *)
Lemma index_tail uid op vid id props filename s :
  maps_all → op = CREATE ∨ op = UPDATE →
  ∃ s' doc fs,
    bind (_mapProperties props) (λ props0,
      bind (index_fields props0 (Document id [] ∅)) (λ doc0,
        bind (enque uid (Some vid) (Some doc0) op (index_filestuff filename props0))
          (λ _, ret (doc_id doc0)))) s = (Ok id, s')
    ∧ doc_id doc = id
    ∧ queue s' = queue s ++ file_work uid (Some vid) doc fs
    ∧ read_index s' !! id = Some (to_stored doc)
    ∧ write_index s' !! id = Some (to_stored doc)
    ∧ (filestuff_truthy fs = true ↔ ∃ f, filename = Some f ∧ f ≠ "")
    ∧ uid_count s' = uid_count s
    ∧ backingstore s' = backingstore s.
Proof.
  intros Hall Hop.
  destruct (_mapProperties_frame props Hall s) as (props0 & s1 & Hmap & Hf1 & _).
  destruct (index_fields_frame props0 (Document id [] ∅) s1)
    as (doc & s2 & Hfields & Hf2 & Hid).
  cbn in Hid.
  assert (Hf : index_frame s s2) by (by etransitivity).
  destruct Hf as (Hw & _ & _ & Hq & _ & Hb & Hn).
  assert (Htruthy : filestuff_truthy (index_filestuff filename props0) = true
                    ↔ ∃ f, filename = Some f ∧ f ≠ "").
  { unfold index_filestuff. destruct filename as [f|]; [destruct (decide (f = ""))|]; cbn.
    - split; [done|]. by intros (f' & [= <-] & ?).
    - split; [eauto|done].
    - split; [done|]. by intros (f' & [= ] & ?). }
  rewrite (bind_Ok _ _ _ _ _ Hmap), (bind_Ok _ _ _ _ _ Hfields).
  destruct Hop as [-> | ->].
  - rewrite (bind_Ok _ _ _ _ _ (enque_create _ _ _ _ _)).
    eexists _, doc, _. split; [by rewrite <- Hid|].
    split; [done|]. cbn. rewrite Hq, Hn, Hid, Hb.
    repeat split; try done; try apply lookup_insert_eq; apply Htruthy.
  - rewrite (bind_Ok _ _ _ _ _ (enque_update _ _ _ _ _)).
    eexists _, doc, _. split; [by rewrite <- Hid|].
    split; [done|]. cbn. rewrite Hq, Hn, Hid, Hb.
    repeat split; try done; try apply lookup_insert_eq; apply Htruthy.
Qed.

(** Stepping through the head of a computation applied to a state. *)
Ltac head_steps :=
  repeat first
    [ rewrite bind_bind | rewrite bind_gets | rewrite bind_modify | rewrite bind_ret_l ];
  cbv beta; cbn [fst snd].

(** Closing a case of [index] with [index_tail]. *)
Ltac finish_index Hall :=
  let s' := fresh "s'" in
  let doc := fresh "doc" in
  let fs := fresh "fs" in
  let Hrun := fresh "Hrun" in
  let Hrest := fresh "Hrest" in
  edestruct index_tail as (s' & doc & fs & Hrun & Hrest); [exact Hall| |];
  [|eexists s', doc, _, fs; split; [exact Hrun|exact Hrest]];
  first [by left | by right].

Lemma index_run props filename s :
  maps_all →
  ∃ s' doc vid fs,
    index props filename s = (Ok (engine_identity props s), s')
    ∧ doc_id doc = engine_identity props s
    ∧ queue s' = queue s ++ file_work (logical_uid props s) (Some vid) doc fs
    ∧ read_index s' !! engine_identity props s = Some (to_stored doc)
    ∧ write_index s' !! engine_identity props s = Some (to_stored doc)
    ∧ (filestuff_truthy fs = true ↔ ∃ f, filename = Some f ∧ f ≠ "")
    ∧ uid_count s' = (if versions s then S (uid_count_settled props s)
                      else uid_count_settled props s)
    ∧ backingstore s' = backingstore s.
Proof.
  intros Hall. unfold index, engine_identity, logical_uid, uid_count_settled, supplied_uid.
  destruct (Py.get "uid" props) as [u|] eqn:Hu; [destruct (decide (u = "")) as [->|Hne]|].
  all: unfold create_uid, log, emit; head_steps.
  all: try change (versions (with_uid_count (S (uid_count s)) s)) with (versions s).
  all: destruct (versions s) eqn:Hv; head_steps.
  all: try (destruct (_ || _); head_steps).
  all: finish_index Hall.
Qed.

(** C3. [index] returns the engine identity of the document it wrote.  On
    a versioned store that identity is a new identifier, taken from the
    generator after the logical uid is settled and different from it; on
    other stores it is the logical uid.  When [index] returns, the document
    is in both connections under that identity, nothing has been taken from
    the queue, and the file work, if any, is one pending item that carries
    the logical uid and the document.  The identifier generator is assumed
    to hand out distinct identifiers, none of which the caller supplies
    before it is produced; the data model is assumed to map every
    property. *)
Theorem index_identity (props : list (string * string)) (filename : option string)
    (s : manager) :
  maps_all →
  Inj (=) (=) uid_of →
  (∀ u n, supplied_uid props = Some u → uid_count s ≤ n → uid_of n ≠ u) →
  ∃ s' doc vid fs,
    index props filename s = (Ok (engine_identity props s), s')
    ∧ (versions s = true →
         engine_identity props s = uid_of (uid_count_settled props s)
         ∧ engine_identity props s ≠ logical_uid props s)
    ∧ (versions s = false → engine_identity props s = logical_uid props s)
    ∧ doc_id doc = engine_identity props s
    ∧ read_index s' !! engine_identity props s = Some (to_stored doc)
    ∧ write_index s' !! engine_identity props s = Some (to_stored doc)
    ∧ queue s' = queue s ++ file_work (logical_uid props s) (Some vid) doc fs
    ∧ (filestuff_truthy fs = true ↔ ∃ f, filename = Some f ∧ f ≠ "").
Proof.
  intros Hall Hinj Hfresh.
  destruct (index_run props filename s Hall)
    as (s' & doc & vid & fs & Hrun & Hid & Hq & Hr & Hw & Hfs & _).
  exists s', doc, vid, fs. split; [exact Hrun|].
  split; [|split; [|done]].
  - intros Hv. unfold engine_identity, logical_uid, uid_count_settled. rewrite Hv.
    split; [done|].
    destruct (supplied_uid props) as [u|] eqn:Hu; cbn.
    + by apply (Hfresh u).
    + intros Heq. apply Hinj in Heq. lia.
  - unfold engine_identity. intros Hv. by rewrite Hv.
Qed.

(** On a versioned store two successive calls give two identities, even
    for the same logical uid. *)
Corollary index_twice_distinct props1 props2 file1 file2 s id1 s1 id2 s2 :
  maps_all → Inj (=) (=) uid_of → versions s = true →
  index props1 file1 s = (Ok id1, s1) →
  index props2 file2 s1 = (Ok id2, s2) →
  id1 ≠ id2.
Proof.
  intros Hall Hinj Hv Hrun1 Hrun2.
  destruct (index_run props1 file1 s Hall)
    as (s1' & ? & ? & ? & Hrun1' & _ & _ & _ & _ & _ & Hn1 & Hb1).
  rewrite Hrun1 in Hrun1'. injection Hrun1' as Hid1 <-.
  destruct (index_run props2 file2 s1 Hall)
    as (s2' & ? & ? & ? & Hrun2' & _ & _ & _ & _ & _ & _ & _).
  rewrite Hrun2 in Hrun2'. injection Hrun2' as Hid2 <-.
  assert (Hv1 : versions s1 = true) by (unfold versions in *; by rewrite Hb1).
  subst id1 id2. unfold engine_identity. rewrite Hv, Hv1. rewrite Hv in Hn1.
  intros Heq. apply Hinj in Heq.
  unfold uid_count_settled in Heq at 2. rewrite Hn1 in Heq.
  destruct (supplied_uid props2); lia.
Qed.

End IndexProperties.

(** * Instances on the concrete world *)

Section Instances.
Existing Instance Demo.demo.
Import Demo.

Lemma get_by_uid_prop_window_witness :
  chain_query "u1" None s0 = Some (QField "uid" (Py.VStr "u1"))
  ∧ ∃ results : list Content,
      get_by_uid_prop "u1" None s0
        = (Ok (results, length (version_chain (QField "uid" (Py.VStr "u1")) s0)), s0)
      ∧ _doc <$> results = take 1000 (version_chain (QField "uid" (Py.VStr "u1")) s0)
      ∧ length results ≤ 1000
      ∧ (∀ i, i < 1000 →
           _doc <$> results !! i = version_chain (QField "uid" (Py.VStr "u1")) s0 !! i)
      ∧ (∀ i, 1000 ≤ i → results !! i = None).
Proof.
  split; [reflexivity|].
  apply (get_by_uid_prop_window "u1" None s0 (QField "uid" (Py.VStr "u1"))).
  reflexivity.
Defined.

(** A chain of 1001 versions: 1000 are returned, 1001 are counted. *)
Example long_chain_is_cut :
  ∃ results, get_by_uid_prop "u9" None s_long = (Ok (results, 1001), s_long)
             ∧ length results = 1000.
Proof. eexists. split; vm_compute; reflexivity. Qed.

Lemma unknown_uid_not_found_witness :
  store_get (read_index s0) "nope" = None
  ∧ get "nope" s0 = (Raise (KeyError "nope"), s0)
  ∧ get_by_uid_prop "nope" None s0 = (Ok ([], 0), s0)
  ∧ tag "nope" "alpha" None s0
    = (Raise (KeyError ("unable to apply tags to uid " +:+ "nope")), s0).
Proof.
  destruct (unknown_uid_not_found "nope" "alpha" None s0) as [Hget Htag].
  split; [reflexivity|]. split; [apply Hget; reflexivity|].
  split; [reflexivity|]. apply (Htag [] s0). reflexivity.
Defined.

Lemma _query_parse_retry_witness :
  qp_accepts (default OP_AND None) "AND" FLAG_BOOLEAN = false
  ∧ _query_parse "AND" FLAG_BOOLEAN None s0
    = (Raise (NameError "string"),
       with_trace (trace s0 ++ [EvParse "AND" FLAG_BOOLEAN]) s0).
Proof.
  split; [reflexivity|].
  apply (_query_parse_retry "AND" FLAG_BOOLEAN None s0). reflexivity.
Defined.

Lemma tag_dash_clears_witness :
  get_by_uid_prop "u1" None s1 = (Ok ([MkContent doc1_tagged], 1), s1)
  ∧ 1 ≠ 0
  ∧ tag "u1" "-" None s1 = (Ok (), retagged (clear_tags <$> [MkContent doc1_tagged]) s1)
  ∧ (∀ c, c ∈ [MkContent doc1_tagged] →
       ∃ d, store_get (write_index (retagged (clear_tags <$> [MkContent doc1_tagged]) s1))
              (doc_id (_doc c)) = Some d
            ∧ doc_data d !! "tags" = None
            ∧ tag_set d = ∅)
  ∧ (∀ id, id ∉ ids [MkContent doc1_tagged] →
       write_index (retagged (clear_tags <$> [MkContent doc1_tagged]) s1) !! id
       = write_index s1 !! id).
Proof.
  split; [reflexivity|]. split; [discriminate|].
  apply (tag_dash_clears "u1" None s1 s1 [MkContent doc1_tagged] 1);
    [reflexivity|discriminate].
Defined.

Lemma untag_absent_adds_witness :
  (∀ k l, engine_sort k l ≡ₚ l)
  ∧ plain_token "alpha"
  ∧ get_by_uid_prop "u1" None s0 = (Ok ([MkContent doc1], 1), s0)
  ∧ 1 ≠ 0
  ∧ tag "u1" ("-" +:+ "alpha") None s0
    = (Ok (), retagged (edit_tag "alpha" REMOVE <$> [MkContent doc1]) s0)
  ∧ ∀ c, c ∈ [MkContent doc1] → "alpha" ∉ tag_set (_doc c) →
      ∃ d, store_get
             (write_index (retagged (edit_tag "alpha" REMOVE <$> [MkContent doc1]) s0))
             (doc_id (_doc c)) = Some d
           ∧ tag_set d = tag_set (_doc c) ∪ {["alpha"]}
           ∧ "alpha" ∈ tag_set d.
Proof.
  assert (Hsort : ∀ k l, engine_sort k l ≡ₚ l) by reflexivity.
  assert (Htok : plain_token "alpha") by (repeat split; discriminate).
  split; [exact Hsort|]. split; [exact Htok|].
  split; [reflexivity|]. split; [discriminate|].
  destruct (untag_absent_adds "u1" "alpha" None s0 s0 [MkContent doc1] 1) as [_ Htag].
  apply Htag; [exact Hsort|exact Htok|reflexivity|discriminate].
Defined.

Lemma search_query_structured_witness :
  let d := [("category", Py.VList [Py.VStr "a"; Py.VStr "b"]);
            ("date", Py.VDict [("start", Py.VInt 0); ("end", Py.VInt 100)])] in
  let cs := [QComposite OP_OR [QField "category" (Py.VStr "a");
                               QField "category" (Py.VStr "b")];
             QRange "date" (Py.VInt 0) (Py.VInt 100)] in
  Forall2 (λ kv c, spec_clause kv.1 kv.2 c) (Py.remove "query" d) cs
  ∧ Py.truthy (default Py.VNone (Py.get "query" d)) = false
  ∧ Py.remove "query" d ≠ []
  ∧ search_query (Py.VDict d) s0 = (Ok (QComposite OP_AND cs), s0).
Proof.
  intros d cs.
  assert (Hcs : Forall2 (λ kv c, spec_clause kv.1 kv.2 c) (Py.remove "query" d) cs).
  { constructor; [apply (spec_list "category" [Py.VStr "a"; Py.VStr "b"])|].
    constructor; [apply (spec_range "date"); reflexivity|]. constructor. }
  split; [exact Hcs|]. split; [reflexivity|]. split; [discriminate|].
  destruct (search_query_structured d cs s0) as [Hgen _].
  destruct (Hgen Hcs) as [Hplain _]. apply Hplain; [reflexivity|discriminate].
Defined.

Lemma demo_maps_all : maps_all.
Proof. intros dm k v. by eexists. Qed.

Lemma demo_uid_of_inj : Inj (=) (=) uid_of.
Proof.
  intros n m Heq. cbn in Heq.
  apply (inj (String.app "uid-")) in Heq. by apply (inj pretty) in Heq.
Qed.

Lemma index_identity_witness :
  let props := [("uid", "u1"); ("vid", "2"); ("title", "notes")] in
  let filename := Some "notes.txt" in
  let s := s0_versioned in
  maps_all
  ∧ Inj (=) (=) uid_of
  ∧ (∀ u n, supplied_uid props = Some u → uid_count s ≤ n → uid_of n ≠ u)
  ∧ ∃ s' doc vid fs,
      index props filename s = (Ok (engine_identity props s), s')
      ∧ (versions s = true →
           engine_identity props s = uid_of (uid_count_settled props s)
           ∧ engine_identity props s ≠ logical_uid props s)
      ∧ (versions s = false → engine_identity props s = logical_uid props s)
      ∧ doc_id doc = engine_identity props s
      ∧ read_index s' !! engine_identity props s = Some (to_stored doc)
      ∧ write_index s' !! engine_identity props s = Some (to_stored doc)
      ∧ queue s' = queue s ++ file_work (logical_uid props s) (Some vid) doc fs
      ∧ (filestuff_truthy fs = true ↔ ∃ f, filename = Some f ∧ f ≠ "").
Proof.
  intros props filename s.
  assert (Hfresh : ∀ u n, supplied_uid props = Some u → uid_count s ≤ n → uid_of n ≠ u).
  { intros u n [= <-] _ Heq. cbn in Heq. discriminate Heq. }
  split; [exact demo_maps_all|]. split; [exact demo_uid_of_inj|].
  split; [exact Hfresh|].
  exact (index_identity props filename s demo_maps_all demo_uid_of_inj Hfresh).
Defined.

Lemma worker_isolates_failures_witness :
  let s := s0_bad in
  let r := for_each [bad_item] (process_item false false) (entered (QOne bad_item) [] s) in
  queue s = [QOne bad_item]
  ∧ as_batch (QOne bad_item) = Ok [bad_item]
  ∧ r.1 = Raise (TypeError "'NoneType' object is not iterable")
  ∧ (∃ s', indexThread_pass false false s = (Ok (), s')
       ∧ queue s' = []
       ∧ indexer_running s' = indexer_running s
       ∧ (∀ e, r.1 = Raise e →
            s' = failed r.2
            ∧ unfinished_tasks s' = unfinished_tasks s
            ∧ count_done (trace s') = count_done (trace s))
       ∧ (r.1 = Ok () → 0 < unfinished_tasks s →
            trace s' = trace r.2 ++ [EvTaskDone; EvRelease]
            ∧ S (unfinished_tasks s') = unfinished_tasks s
            ∧ count_done (trace s') = S (count_done (trace s)))
       ∧ (count_done (trace s') ≠ count_done (trace s) → r.1 = Ok ()))
  ∧ Forall (λ d, d ≠ QSeq []) (queue s)
  ∧ ∃ b s', indexThread_loop 3 false false s = (Ok b, s').
Proof.
  intros s r.
  destruct (worker_isolates_failures false false) as (Hpass & _ & Hloop).
  assert (Hall : Forall (λ d, d ≠ QSeq []) (queue s)).
  { apply Forall_cons. split; [discriminate|apply Forall_nil_2]. }
  split; [reflexivity|]. split; [reflexivity|]. split; [reflexivity|].
  split; [apply (Hpass s (QOne bad_item) [] [bad_item]); reflexivity|].
  split; [exact Hall|]. exact (Hloop 3 s Hall).
Defined.

End Instances.

(** * Further properties *)

(** ** Preservation through the control structures *)

Lemma preserves_with_write_lock {A} (P : manager → manager → Prop)
    `{!Transitive P} (m : M A) :
  (∀ s, P s (with_trace (trace s ++ [EvAcquire]) s)) →
  (∀ s, P s (with_trace (trace s ++ [EvRelease]) s)) →
  preserves P m → preserves P (with_write_lock m).
Proof.
  intros Hacq Hrel Hm s r s'. unfold with_write_lock, bind, emit, modify.
  destruct (m _) as [r1 s1] eqn:Hms. intros Heq.
  assert (r = r1 ∧ s' = with_trace (trace s1 ++ [EvRelease]) s1) as [-> ->].
  { by destruct r1; simplify_eq. }
  etransitivity; [apply Hacq|]. etransitivity; [eapply Hm, Hms|]. apply Hrel.
Qed.

Lemma preserves_try_except {A} (P : manager → manager → Prop)
    `{!Transitive P} (m : M A) (h : exn → M A) :
  preserves P m → (∀ e, preserves P (h e)) → preserves P (try_except m h).
Proof.
  intros Hm Hh s r s'. unfold try_except.
  destruct (m s) as [[a|e] s1] eqn:Hms.
  - intros [= <- <-]. eapply Hm, Hms.
  - intros Hhs. etransitivity; [eapply Hm, Hms|eapply Hh, Hhs].
Qed.

Lemma bind_lift_Ok {A B} (x : res A) (a : A) (k : A → M B) s :
  x = Ok a → bind (λ s, (x, s)) k s = k a s.
Proof. by intros ->. Qed.

(** Stepping through the head of a computation applied to a state. *)
Ltac steps :=
  repeat first
    [ rewrite bind_bind | rewrite bind_gets | rewrite bind_modify | rewrite bind_ret_l ];
  cbv beta; cbn [fst snd].

(** The steps of a computation that keeps a relation made of equations
    between fields: each update is checked by computation. *)
Ltac keep :=
  repeat first
    [ apply preserves_ret; apply _
    | apply preserves_raise; apply _
    | apply preserves_lift; apply _
    | apply preserves_gets; apply _
    | apply preserves_modify; intros ?; by repeat split
    | apply preserves_bind; [apply _| |intros ?]
    | apply preserves_for_each; [apply _..|intros ?]
    | apply preserves_with_write_lock; [apply _|intros ?; by repeat split..|]
    | apply preserves_try_except; [apply _| |intros ?]
    | match goal with
      | |- preserves _ (match ?x with _ => _ end) => destruct x
      end ].

(** ** The worker never publishes *)

#[local] Instance same_published_refl : Reflexive same_published.
Proof. intros s. by split. Qed.

#[local] Instance same_published_trans : Transitive same_published.
Proof. intros s1 s2 s3 [? ?] [? ?]. split; congruence. Qed.

Section WorkerQuiet.
Context `{Collaborators}.

Lemma process_item_published v i it :
  preserves same_published (process_item v i it).
Proof.
  unfold process_item, write_index_delete, write_index_replace, unpack_filestuff,
    os_unlink, no_document, log, emit.
  keep.
Qed.

Lemma indexThread_pass_published v i :
  preserves same_published (indexThread_pass v i).
Proof.
  unfold indexThread_pass, dequeue, apply_batch, queue_task_done, log, emit.
  keep. apply process_item_published.
Qed.

Lemma indexThread_loop_published n v i :
  preserves same_published (indexThread_loop n v i).
Proof.
  induction n as [|n IH]; cbn [indexThread_loop].
  - keep.
  - apply preserves_bind; [apply _|apply preserves_gets; apply _|].
    intros [|]; [|apply preserves_ret; apply _].
    apply preserves_bind; [apply _|apply indexThread_pass_published|].
    intros _. apply IH.
Qed.

(** X1. The worker never publishes: whatever the queue holds and however
    many passes the loop makes, the committed index and the read snapshot
    are as before, since the flush of the loop is commented out.  What the
    worker wrote is seen by readers at the next flush of a caller. *)
Theorem worker_never_publishes (n : nat) (v i : bool) (s : manager) :
  read_index (indexThread_loop n v i s).2 = read_index s
  ∧ disk (indexThread_loop n v i s).2 = disk s.
Proof.
  apply (indexThread_loop_published n v i s (indexThread_loop n v i s).1).
  apply surjective_pairing.
Qed.

Lemma with_fulltext_fields d text :
  doc_id (with_fulltext d text) = doc_id d
  ∧ doc_data (with_fulltext d text) = doc_data d
  ∧ doc_fields (with_fulltext d text)
    = doc_fields d ++ ((λ c, ("fulltext", c)) <$> fulltext_chunks text).
Proof.
  unfold with_fulltext. generalize (fulltext_chunks text). intros chunks.
  revert d. induction chunks as [|c chunks IH]; intros d; cbn.
  - by rewrite app_nil_r.
  - destruct (IH (append_field "fulltext" c d)) as (-> & -> & ->).
    cbn. by rewrite <- app_assoc.
Qed.

Lemma read_chunks_bounded fuel text :
  Forall (λ c, c ≠ "" ∧ String.length c ≤ chunk_size) (read_chunks fuel text).
Proof.
  revert text. induction fuel as [|fuel IH]; intros text; cbn [read_chunks]; [done|].
  destruct (decide _) as [|Hne]; [done|]. apply Forall_cons. split; [|apply IH].
  split; [done|]. generalize chunk_size. clear. intros n. revert text.
  induction n as [|n IH]; intros [|c text]; cbn; try lia. specialize (IH text). lia.
Qed.

Lemma process_update_run v i uid vid d ref mimetype text s :
  converter (file_name ref) mimetype = Ok (Some text) →
  ∃ t,
    process_item v i (Item uid vid (Some d) UPDATE (FPair ref mimetype)) s =
      if v && negb i then
        if decide (file_name ref ∈ files s) then
          (Ok (), after_update (<[doc_id d := to_stored (with_fulltext d text)]>)
                    (λ fs, fs ∖ {[file_name ref]})
                    (t ++ [EvReplace (with_fulltext d text); EvUnlink (file_name ref);
                           EvLog INFO ("update file content " +:+ uid +:+ ":"
                                       +:+ Py.str_opt vid)]) s)
        else
          (Raise (OSError (file_name ref)),
           after_update (<[doc_id d := to_stored (with_fulltext d text)]>) id
             (t ++ [EvReplace (with_fulltext d text)]) s)
      else
        (Ok (), after_update (<[doc_id d := to_stored (with_fulltext d text)]>) id
                  (t ++ [EvReplace (with_fulltext d text);
                         EvLog INFO ("update file content " +:+ uid +:+ ":"
                                     +:+ Py.str_opt vid)]) s).
Proof.
  intros Hconv.
  unfold process_item, unpack_filestuff.
  cbn [it_op it_uid it_vid it_doc it_filestuff].
  change (UPDATE =? DELETE)%Z with false. change (UPDATE =? UPDATE)%Z with true.
  cbv iota. steps.
  destruct (negb _ && negb _);
    [exists [EvLog WARNING ("Expected file for indexing at " +:+ file_name ref
                            +:+ ". Not Found")]
    |exists []].
  all: unfold file_name in *.
  all: unfold log, emit; steps; unfold lift; rewrite bind_lift_Ok with (1 := Hconv).
  all: unfold write_index_replace, emit; steps.
  all: fold (fulltext_chunks text); fold (with_fulltext d text).
  all: destruct (v && negb i); [unfold os_unlink; steps; destruct (decide _)|].
  all: unfold emit; steps; unfold modify, raise, after_update.
  all: destruct s; run_monad; rewrite <- ?app_assoc.
  all: rewrite (proj1 (with_fulltext_fields d text)); reflexivity.
Qed.

(** X2. An UPDATE item whose file converts to a text: the worker replaces
    the document by the document with one [fulltext] field appended for
    each chunk read; the chunks are non-empty, at most 2048 characters
    long, and put together they are the converted text.  The source file
    is removed exactly on a versioned store that does not keep files in
    place. *)
Theorem worker_indexes_fulltext (v i : bool) (uid : string) (vid : option string)
    (d : document) (ref : fileref) (mimetype text : string) (s : manager) :
  converter (file_name ref) mimetype = Ok (Some text) →
  (v && negb i = true → file_name ref ∈ files s) →
  let r := process_item v i (Item uid vid (Some d) UPDATE (FPair ref mimetype)) s in
  r.1 = Ok ()
  ∧ write_index r.2 = <[doc_id d := to_stored (with_fulltext d text)]> (write_index s)
  ∧ doc_fields (with_fulltext d text)
    = doc_fields d ++ ((λ c, ("fulltext", c)) <$> fulltext_chunks text)
  ∧ foldr String.append "" (fulltext_chunks text) = text
  ∧ Forall (λ c, c ≠ "" ∧ String.length c ≤ 2048) (fulltext_chunks text)
  ∧ files r.2 = (if v && negb i then files s ∖ {[file_name ref]} else files s).
Proof.
  intros Hconv Hfile r.
  destruct (process_update_run v i uid vid d ref mimetype text s Hconv) as [t Hrun].
  subst r. rewrite Hrun.
  assert (Hchunks : foldr String.append "" (fulltext_chunks text) = text)
    by (by apply read_chunks_all).
  pose proof (read_chunks_bounded (String.length text) text) as Hbound.
  destruct (with_fulltext_fields d text) as (_ & _ & Hfields).
  destruct (v && negb i); [rewrite decide_True by auto|]; done.
Qed.

(** X3. On a versioned store that does not keep files in place, an UPDATE
    item whose file converts but is no longer there fails with [OSError]
    after the document has been replaced: the enriched document is in the
    write connection although the item raises. *)
Theorem worker_replaces_before_unlink (uid : string) (vid : option string)
    (d : document) (ref : fileref) (mimetype text : string) (s : manager) :
  converter (file_name ref) mimetype = Ok (Some text) →
  file_name ref ∉ files s →
  let r := process_item true false (Item uid vid (Some d) UPDATE (FPair ref mimetype)) s in
  r.1 = Raise (OSError (file_name ref))
  ∧ write_index r.2 = <[doc_id d := to_stored (with_fulltext d text)]> (write_index s)
  ∧ files r.2 = files s.
Proof.
  intros Hconv Hfile r.
  destruct (process_update_run true false uid vid d ref mimetype text s Hconv) as [t Hrun].
  subst r. rewrite Hrun. cbn [andb negb]. by rewrite decide_False.
Qed.

Lemma process_update_unconverted v i uid vid doc ref mimetype x s :
  converter (file_name ref) mimetype = x →
  ∃ t,
    process_item v i (Item uid vid doc UPDATE (FPair ref mimetype)) s =
      match x with
      | Ok (Some text) => process_item v i (Item uid vid doc UPDATE (FPair ref mimetype)) s
      | Ok None =>
          (Ok (), after_update id id
                    (t ++ [EvLog DEBUG ("Conversion process failed for document "
                                        +:+ uid +:+ " " +:+ file_name ref)]) s)
      | Raise e => (Raise e, after_update id id t s)
      end.
Proof.
  intros Hconv. destruct x as [[text|]|e]; [by exists []| |].
  all: unfold process_item, unpack_filestuff.
  all: cbn [it_op it_uid it_vid it_doc it_filestuff].
  all: change (UPDATE =? DELETE)%Z with false; change (UPDATE =? UPDATE)%Z with true.
  all: cbv iota; steps.
  all: destruct (negb _ && negb _);
    [exists [EvLog WARNING ("Expected file for indexing at " +:+ file_name ref
                            +:+ ". Not Found")]
    |exists []].
  all: unfold file_name in *.
  all: unfold log, emit; steps; unfold lift, bind; rewrite Hconv.
  all: unfold modify, after_update.
  all: destruct s; run_monad; rewrite <- ?app_assoc, ?app_nil_r; reflexivity.
Qed.

(** X4. An UPDATE item whose file gives no text, because the converter
    returns a false value or raises, writes nothing: the write connection
    and the file system are as before.  A false value is logged and the
    item is done; an exception of the converter is the outcome of the
    item. *)
Theorem worker_skips_unconverted (v i : bool) (uid : string) (vid : option string)
    (doc : option document) (ref : fileref) (mimetype : string) (s : manager) :
  let r := process_item v i (Item uid vid doc UPDATE (FPair ref mimetype)) s in
  (converter (file_name ref) mimetype = Ok None →
     r.1 = Ok () ∧ write_index r.2 = write_index s ∧ files r.2 = files s)
  ∧ (∀ e, converter (file_name ref) mimetype = Raise e →
     r.1 = Raise e ∧ write_index r.2 = write_index s ∧ files r.2 = files s).
Proof.
  intros r. split.
  - intros Hconv.
    destruct (process_update_unconverted v i uid vid doc ref mimetype _ s Hconv) as [t Hrun].
    subst r. by rewrite Hrun.
  - intros e Hconv.
    destruct (process_update_unconverted v i uid vid doc ref mimetype _ s Hconv) as [t Hrun].
    subst r. by rewrite Hrun.
Qed.

End WorkerQuiet.

(** ** One lock for a batch *)

#[local] Instance grows_quietly_refl : Reflexive grows_quietly.
Proof. intros s. exists []. by rewrite app_nil_r. Qed.

#[local] Instance grows_quietly_trans : Transitive grows_quietly.
Proof.
  intros s1 s2 s3 (t1 & Ht1 & Hq1) (t2 & Ht2 & Hq2). exists (t1 ++ t2).
  split; [by rewrite Ht2, Ht1, app_assoc|]. by apply Forall_app.
Qed.

Lemma emit_quietly e :
  is_protocol_event e = false → preserves grows_quietly (emit e).
Proof.
  intros He. apply preserves_modify. intros s. exists [e]. split; [done|].
  by apply Forall_singleton.
Qed.

Lemma modify_quietly f :
  (∀ s, trace (f s) = trace s) → preserves grows_quietly (modify f).
Proof.
  intros Hf. apply preserves_modify. intros s. exists []. by rewrite app_nil_r, Hf.
Qed.

Ltac quietly :=
  repeat first
    [ apply preserves_ret; apply _
    | apply preserves_raise; apply _
    | apply preserves_lift; apply _
    | apply preserves_gets; apply _
    | apply emit_quietly; reflexivity
    | apply modify_quietly; intros ?; reflexivity
    | apply preserves_bind; [apply _| |intros ?]
    | match goal with
      | |- preserves _ (match ?x with _ => _ end) => destruct x
      end ].

Lemma writes_locked_quiet t :
  Forall (λ e, is_protocol_event e = false) t →
  ∀ tail, writes_locked true (t ++ tail) = writes_locked true tail
          ∧ lock_after true (t ++ tail) = lock_after true tail.
Proof.
  induction 1 as [|e t He _ IH]; intros tail; [done|].
  destruct (IH tail) as [IHw IHl]. destruct e; try discriminate He; cbn.
  all: rewrite ?IHw, ?IHl, ?orb_true_r; done.
Qed.

Section WorkerLock.
Context `{Collaborators}.

Lemma process_item_quietly v i it :
  preserves grows_quietly (process_item v i it).
Proof.
  unfold process_item, write_index_delete, write_index_replace, unpack_filestuff,
    os_unlink, no_document, log.
  quietly.
Qed.

(** X5. A pass over a batch, of one item or of a sequence, takes the write
    lock once: the events of the pass are the dequeue, one acquire, the
    events of the items, among which there is no lock, flush or queue
    event, and then either [task_done] and the release, or the release and
    the error log.  Every engine mutation of the pass is inside the lock
    and the lock is free at the end. *)
Theorem worker_batch_in_one_lock (v i : bool) (s : manager) (d : qdata)
    (q' : list qdata) (data : list item) :
  queue s = d :: q' → as_batch d = Ok data →
  ∃ t tail,
    trace (indexThread_pass v i s).2 = trace s ++ [EvGet d; EvAcquire] ++ t ++ tail
    ∧ Forall (λ e, is_protocol_event e = false) t
    ∧ (tail = [EvTaskDone; EvRelease]
       ∨ tail = [EvRelease; EvLog ERROR "Error in indexer"])
    ∧ writes_locked false ([EvGet d; EvAcquire] ++ t ++ tail) = true
    ∧ lock_after false ([EvGet d; EvAcquire] ++ t ++ tail) = false.
Proof.
  intros Hq Hd. rewrite (indexThread_pass_run _ _ _ _ _ _ Hq Hd).
  destruct (for_each data (process_item v i) (entered d q' s)) as [r s2] eqn:Hrun.
  assert (Hgrow : grows_quietly (entered d q' s) s2).
  { eapply (preserves_for_each grows_quietly); [apply process_item_quietly|exact Hrun]. }
  destruct Hgrow as (t & Ht & Hquiet).
  assert (Hentered : trace (entered d q' s) = trace s ++ [EvGet d; EvAcquire]) by done.
  rewrite Hentered in Ht.
  assert (Hlocked : ∀ tail, writes_locked false ([EvGet d; EvAcquire] ++ t ++ tail)
                            = writes_locked true tail
                            ∧ lock_after false ([EvGet d; EvAcquire] ++ t ++ tail)
                              = lock_after true tail).
  { intros tail. cbn. apply writes_locked_quiet, Hquiet. }
  assert (Hfail : ∃ t0 tail0,
    trace (failed s2) = trace s ++ [EvGet d; EvAcquire] ++ t0 ++ tail0
    ∧ Forall (λ e, is_protocol_event e = false) t0
    ∧ (tail0 = [EvTaskDone; EvRelease]
       ∨ tail0 = [EvRelease; EvLog ERROR "Error in indexer"])
    ∧ writes_locked false ([EvGet d; EvAcquire] ++ t0 ++ tail0) = true
    ∧ lock_after false ([EvGet d; EvAcquire] ++ t0 ++ tail0) = false).
  { exists t, [EvRelease; EvLog ERROR "Error in indexer"].
    split; [unfold failed; cbn [trace with_trace]; by rewrite Ht, <- !app_assoc|].
    split; [done|]. split; [by right|].
    by destruct (Hlocked [EvRelease; EvLog ERROR "Error in indexer"]) as [-> ->]. }
  destruct r as [[]|e]; [|exact Hfail].
  destruct (unfinished_tasks s2) as [|n]; [exact Hfail|].
  exists t, [EvTaskDone; EvRelease].
  split; [cbn [trace with_trace snd]; by rewrite Ht, <- !app_assoc|].
  split; [done|]. split; [by left|].
  by destruct (Hlocked [EvTaskDone; EvRelease]) as [-> ->].
Qed.

End WorkerLock.

(** ** The accounting of the queue *)

#[local] Instance keeps_account_refl : Reflexive keeps_account.
Proof. intros s Hacc. by split. Qed.

#[local] Instance keeps_account_trans : Transitive keeps_account.
Proof.
  intros s1 s2 s3 H12 H23 Hacc. destruct (H12 Hacc) as [Hacc2 Hd12].
  destruct (H23 Hacc2) as [Hacc3 Hd23]. split; [done|lia].
Qed.

Lemma account_frame s s' :
  queue s' = queue s → unfinished_tasks s' = unfinished_tasks s → keeps_account s s'.
Proof. intros Hq Hu Hacc. unfold accounted, debt in *. rewrite Hq, Hu. lia. Qed.

Lemma queue_put_account q : preserves keeps_account (queue_put q).
Proof.
  intros s r s' [= <- <-] Hacc. unfold accounted, debt in *. destruct s. cbn in *.
  rewrite length_app. cbn. lia.
Qed.

Ltac account :=
  repeat first
    [ apply preserves_ret; apply _
    | apply preserves_raise; apply _
    | apply preserves_lift; apply _
    | apply preserves_gets; apply _
    | apply queue_put_account
    | apply preserves_modify; intros ?; by apply account_frame
    | apply preserves_bind; [apply _| |intros ?]
    | apply preserves_for_each; [apply _..|intros ?]
    | apply preserves_with_write_lock; [apply _|intros ?; by apply account_frame..|]
    | match goal with
      | |- preserves _ (match ?x with _ => _ end) => destruct x
      end ].

Lemma enque_account uid vid doc op fs :
  preserves keeps_account (enque uid vid doc op fs).
Proof.
  unfold enque, flush, write_index_add, write_index_replace, write_index_delete,
    write_index_flush, read_index_reopen, no_document, log, emit.
  account.
Qed.

Section Accounting.
Context `{Collaborators}.

Lemma indexThread_pass_debt v i s d q' data :
  queue s = d :: q' → as_batch d = Ok data → accounted s →
  accounted (indexThread_pass v i s).2
  ∧ debt (indexThread_pass v i s).2
    = debt s + match (for_each data (process_item v i) (entered d q' s)).1 with
               | Ok _ => 0
               | Raise _ => 1
               end.
Proof.
  intros Hq Hd Hacc. rewrite (indexThread_pass_run _ _ _ _ _ _ Hq Hd).
  destruct (for_each data (process_item v i) (entered d q' s)) as [r s2] eqn:Hrun.
  assert (Hctl : same_control (entered d q' s) s2).
  { eapply (preserves_for_each same_control); [apply process_item_control|exact Hrun]. }
  destruct Hctl as (Hqueue & Hunf & _ & _).
  unfold accounted, debt in *. rewrite Hq in Hacc. cbn in Hacc, Hqueue, Hunf.
  destruct r as [[]|e]; cbn [fst snd].
  - destruct (unfinished_tasks s2) as [|n] eqn:Hn; [lia|].
    cbn. rewrite Hqueue, Hq. cbn. lia.
  - unfold failed. cbn. rewrite Hqueue, Hunf, Hq. cbn. lia.
Qed.

Lemma indexThread_pass_account v i :
  preserves keeps_account (indexThread_pass v i).
Proof.
  intros s r s' Hpass Hacc.
  destruct (queue s) as [|d q'] eqn:Hq.
  - unfold indexThread_pass, dequeue, bind, gets, ret in Hpass. rewrite Hq in Hpass.
    simplify_eq. by apply keeps_account_refl.
  - destruct (as_batch d) as [data|e] eqn:Hd.
    + destruct (indexThread_pass_debt v i s d q' data Hq Hd Hacc) as [Hacc' Hdebt].
      rewrite Hpass in Hacc', Hdebt. cbn [snd] in Hacc', Hdebt.
      split; [done|]. rewrite Hdebt. lia.
    + unfold indexThread_pass, dequeue in Hpass. revert Hpass. steps. rewrite Hq.
      unfold emit. steps. unfold lift, bind. rewrite Hd. intros [= <- <-].
      unfold accounted, debt in *. rewrite Hq in *. cbn in *. lia.
Qed.

Lemma indexThread_loop_account n v i :
  preserves keeps_account (indexThread_loop n v i).
Proof.
  induction n as [|n IH]; cbn [indexThread_loop].
  - account.
  - apply preserves_bind; [apply _|apply preserves_gets; apply _|].
    intros [|]; [|apply preserves_ret; apply _].
    apply preserves_bind; [apply _|apply indexThread_pass_account|].
    intros _. apply IH.
Qed.

(** X6. Every element put on the queue is counted as an unfinished task,
    and the count never falls below the length of the queue: [enque],
    [enqueSequence] and any number of passes of the worker keep
    [length queue <= unfinished_tasks], whatever they return, and never
    reduce the number of unfinished tasks that have left the queue.  In
    particular [task_done] is never called more often than [put]. *)
Theorem queue_accounting_kept :
  (∀ uid vid doc op fs, preserves keeps_account (enque uid vid doc op fs))
  ∧ (∀ commands, preserves keeps_account (enqueSequence commands))
  ∧ (∀ n v i, preserves keeps_account (indexThread_loop n v i)).
Proof.
  split; [|split].
  - intros. apply enque_account.
  - intros. apply queue_put_account.
  - intros. apply indexThread_loop_account.
Qed.

(** X7. A batch that raises is never marked done: after the pass that
    caught its exception, the number of unfinished tasks stays above zero
    through any number of further passes of the worker, so a [queue.join]
    (as in [complete_indexing] and in a graceful [stopIndexer]) cannot
    return. *)
Theorem failed_batch_blocks_join (v i : bool) (s : manager) (d : qdata)
    (q' : list qdata) (data : list item) (e : exn) (n : nat) :
  queue s = d :: q' → as_batch d = Ok data → accounted s →
  (for_each data (process_item v i) (entered d q' s)).1 = Raise e →
  0 < unfinished_tasks (indexThread_loop n v i (indexThread_pass v i s).2).2.
Proof.
  intros Hq Hd Hacc Hraise.
  destruct (indexThread_pass_debt v i s d q' data Hq Hd Hacc) as [Hacc1 Hdebt1].
  rewrite Hraise in Hdebt1.
  pose proof (indexThread_loop_account n v i (indexThread_pass v i s).2 _ _
                (surjective_pairing _) Hacc1) as [Hacc2 Hdebt2].
  unfold debt, accounted in *. lia.
Qed.

End Accounting.

(** ** Tagging as a fold of edits *)

Lemma _parse_tags_all tags : Forall (λ p, p.1.2 = true) (_parse_tags tags).
Proof. unfold _parse_tags. rewrite Forall_fmap. by apply Forall_true. Qed.

Lemma apply_tags_all tags bound results :
  Forall (λ p : string * bool * Z, p.1.2 = true) tags →
  apply_tags tags bound results =
    Ok ((λ c, foldl (λ c p, edit_content p c) c tags) <$> results).
Proof.
  intros Hall. revert bound results.
  induction Hall as [|[[t a] m] tags Ha _ IH]; intros bound results.
  - cbn. by rewrite list_fmap_id.
  - cbn in Ha. subst a. cbn [apply_tags negb foldl].
    unfold edit_content at 2. cbn [fst snd].
    destruct (bool_decide (t = "") && (m =? REMOVE)%Z);
      rewrite IH, <- list_fmap_compose; reflexivity.
Qed.

Lemma edit_content_id p c : doc_id (_doc (edit_content p c)) = doc_id (_doc c).
Proof.
  unfold edit_content, clear_tags, edit_tag.
  destruct (_ && _); [destruct (decide _)|]; reflexivity.
Qed.

Lemma edit_content_fields p c :
  doc_fields (_doc (edit_content p c)) = doc_fields (_doc c).
Proof.
  unfold edit_content, clear_tags, edit_tag.
  destruct (_ && _); [destruct (decide _)|]; reflexivity.
Qed.

Lemma edit_content_set p c :
  tag_set (_doc (edit_content p c)) = edit_set (tag_set (_doc c)) p.
Proof.
  unfold edit_content, edit_set. destruct (_ && _).
  - unfold tag_set, get_property. cbn. by rewrite clear_tags_data.
  - apply edit_tag_set.
Qed.

Lemma edit_fold tags c :
  let c' := foldl (λ c p, edit_content p c) c tags in
  doc_id (_doc c') = doc_id (_doc c)
  ∧ doc_fields (_doc c') = doc_fields (_doc c)
  ∧ tag_set (_doc c') = foldl edit_set (tag_set (_doc c)) tags.
Proof.
  revert c. induction tags as [|p tags IH]; intros c; [done|].
  cbn [foldl]. destruct (IH (edit_content p c)) as (Hid & Hf & Hs).
  rewrite Hid, Hf, Hs, edit_content_id, edit_content_fields, edit_content_set. done.
Qed.

Lemma edit_all_ids tags results : ids (edit_all tags results) = ids results.
Proof.
  unfold ids, edit_all. rewrite <- list_fmap_compose. apply list_fmap_ext.
  intros _ c _. cbn. apply (edit_fold (_parse_tags tags) c).
Qed.

Lemma flush_eq s : flush s = (Ok (), synced (λ m, m) [] [] s).
Proof. destruct s. unfold synced, flush_events. run. by rewrite ?app_nil_r. Qed.

Section TagEdits.
Context `{Collaborators}.

Lemma tag_edit_all uid tags rev s results count s0 :
  get_by_uid_prop uid rev s = (Ok (results, count), s0) →
  count ≠ 0 →
  tag uid tags rev s = (Ok (), retagged (edit_all tags results) s).
Proof.
  intros Hres Hcount. eapply tag_eq; [exact Hres|exact Hcount|].
  apply apply_tags_all, _parse_tags_all.
Qed.

(** X8. On a chain that is not empty [tag] never fails, whatever the tag
    string: every parsed tag has [all] set, so [used] is always bound and
    the branch that would leave it unbound is never taken.  The call
    writes back, inside the lock, one content per content of the chain,
    under the same identity; it touches neither the read snapshot, nor the
    disk, nor the queue. *)
Theorem tag_applies_every_edit (uid tags : string) (rev : option string)
    (s s0 : manager) (results : list Content) (count : nat) :
  get_by_uid_prop uid rev s = (Ok (results, count), s0) →
  count ≠ 0 →
  tag uid tags rev s = (Ok (), retagged (edit_all tags results) s)
  ∧ ids (edit_all tags results) = ids results
  ∧ dom (write_index (retagged (edit_all tags results) s))
    = dom (write_index s) ∪ list_to_set (ids results).
Proof.
  intros Hres Hcount. split; [by eapply tag_edit_all|].
  split; [apply edit_all_ids|].
  cbn [write_index retagged]. rewrite <- (edit_all_ids tags results).
  generalize (edit_all tags results) (write_index s). clear.
  intros cs. induction cs as [|c cs IH]; intros m.
  - cbn. set_solver.
  - change (replace_all (c :: cs) m)
      with (replace_all cs (<[doc_id (_doc c) := to_stored (_doc c)]> m)).
    rewrite IH, dom_insert_L. cbn. set_solver.
Qed.

Lemma get_by_uid_prop_same_reads uid rev s s' :
  read_index s' = read_index s → backingstore s' = backingstore s →
  (get_by_uid_prop uid rev s').1 = (get_by_uid_prop uid rev s).1.
Proof.
  intros Hri Hbs.
  assert (Hq : chain_query uid rev s' = chain_query uid rev s).
  { unfold chain_query. by rewrite Hbs. }
  destruct (chain_query uid rev s) as [q|] eqn:Hqs.
  - rewrite (get_by_uid_prop_eq _ _ _ _ Hq), (get_by_uid_prop_eq _ _ _ _ Hqs).
    unfold version_chain. by rewrite Hri.
  - by rewrite (get_by_uid_prop_unbound _ _ _ Hq), (get_by_uid_prop_unbound _ _ _ Hqs).
Qed.

(** The document [tag] leaves in the write connection for a content of
    the chain. *)
Lemma tag_store_get uid tags rev s s0 results count c :
  (∀ k l, engine_sort k l ≡ₚ l) →
  get_by_uid_prop uid rev s = (Ok (results, count), s0) →
  count ≠ 0 →
  c ∈ results →
  ∃ d,
    write_index (tag uid tags rev s).2 !! doc_id (_doc c) = Some (to_stored d)
    ∧ doc_id d = doc_id (_doc c)
    ∧ tag_set d = foldl edit_set (tag_set (_doc c)) (_parse_tags tags)
    ∧ doc_fields d = doc_fields (_doc c).
Proof.
  intros Hsort Hres Hcount Hc.
  rewrite (tag_edit_all _ tags _ _ _ _ _ Hres Hcount). cbn [snd].
  set (c' := foldl (λ c p, edit_content p c) c (_parse_tags tags)).
  destruct (edit_fold (_parse_tags tags) c) as (Hid & Hf & Hs). fold c' in Hid, Hf, Hs.
  exists (_doc c'). split; [|done]. rewrite <- Hid.
  apply replace_all_lookup_NoDup.
  - rewrite edit_all_ids.
    destruct (get_by_uid_prop_inv _ _ _ _ _ _ Hres) as (q & _ & -> & _).
    by apply chain_ids_NoDup.
  - unfold edit_all. apply list_elem_of_fmap. by exists c.
Qed.

(** X9. What [tag] does to the tag set of each document of the chain is
    the left-to-right fold of the parsed tags: ['-'] empties the set,
    ['-t'] removes [t] when it is there and adds it otherwise, [t] adds
    it.  The fields of the document are kept.  The edited document is in
    the write connection at once and is what [get] returns after the next
    [flush].  The engine is assumed to return each hit once. *)
Theorem tag_folds_over_tag_sets (uid tags : string) (rev : option string)
    (s s0 : manager) (results : list Content) (count : nat) (c : Content) :
  (∀ k l, engine_sort k l ≡ₚ l) →
  get_by_uid_prop uid rev s = (Ok (results, count), s0) →
  count ≠ 0 →
  c ∈ results →
  ∃ d,
    store_get (write_index (tag uid tags rev s).2) (doc_id (_doc c)) = Some d
    ∧ tag_set d = foldl edit_set (tag_set (_doc c)) (_parse_tags tags)
    ∧ doc_fields d = doc_fields (_doc c)
    ∧ (get (doc_id (_doc c)) (flush (tag uid tags rev s).2).2).1 = Ok (MkContent d).
Proof.
  intros Hsort Hres Hcount Hc.
  destruct (tag_store_get uid tags rev s s0 results count c Hsort Hres Hcount Hc)
    as (d & Hlk & Hid & Hs & Hf).
  exists d. rewrite <- Hid in *.
  split; [by apply store_get_stored|]. split; [done|]. split; [done|].
  rewrite flush_eq. cbn [snd]. unfold get, bind, gets. cbn [read_index synced].
  by rewrite (store_get_stored _ _ Hlk).
Qed.

Lemma tag_published uid tags rev : preserves same_published (tag uid tags rev).
Proof.
  intros s r s' Htag.
  destruct (get_by_uid_prop uid rev s) as [[[results count]|e] s0] eqn:Hres.
  - pose proof (get_by_uid_prop_pure _ _ _ _ _ Hres) as ->.
    destruct (decide (count = 0)) as [->|Hcount].
    + assert (Hraise : tag uid tags rev s =
                (Raise (KeyError ("unable to apply tags to uid " +:+ uid)), s)).
      { unfold tag, bind. by rewrite Hres. }
      rewrite Hraise in Htag. simplify_eq. by split.
    + rewrite (tag_edit_all _ tags _ _ _ _ _ Hres Hcount) in Htag. simplify_eq. by split.
  - pose proof (get_by_uid_prop_pure _ _ _ _ _ Hres) as ->.
    assert (Hraise : tag uid tags rev s = (Raise e, s)).
    { unfold tag, bind. by rewrite Hres. }
    rewrite Hraise in Htag. simplify_eq. by split.
Qed.

Lemma tag_backingstore uid tags rev s :
  backingstore (tag uid tags rev s).2 = backingstore s.
Proof.
  destruct (get_by_uid_prop uid rev s) as [[[results count]|e] s0] eqn:Hres.
  - pose proof (get_by_uid_prop_pure _ _ _ _ _ Hres) as ->.
    destruct (decide (count = 0)) as [->|Hcount].
    + unfold tag, bind. by rewrite Hres.
    + by rewrite (tag_edit_all _ tags _ _ _ _ _ Hres Hcount).
  - pose proof (get_by_uid_prop_pure _ _ _ _ _ Hres) as ->.
    unfold tag, bind. by rewrite Hres.
Qed.

(** X11. [tag] never flushes: whatever it returns, the read snapshot and
    the disk are as before, so [get] and [get_by_uid_prop] answer after
    the call exactly as they did before it. *)
Theorem tag_unseen_until_flush (uid tags : string) (rev : option string)
    (s : manager) :
  let s' := (tag uid tags rev s).2 in
  read_index s' = read_index s
  ∧ disk s' = disk s
  ∧ (∀ id, (get id s').1 = (get id s).1)
  ∧ (∀ uid' rev', (get_by_uid_prop uid' rev' s').1 = (get_by_uid_prop uid' rev' s).1).
Proof.
  intros s'.
  destruct (tag_published uid tags rev s _ _ (surjective_pairing _)) as [Hri Hdisk].
  fold s' in Hri, Hdisk. split; [done|]. split; [done|]. split.
  - intros id. unfold get, bind, gets. rewrite Hri.
    by destruct (store_get (read_index s) id).
  - intros uid' rev'. apply get_by_uid_prop_same_reads; [done|].
    apply tag_backingstore.
Qed.

(** X12. Two calls of [tag] on the same chain without a flush in between
    do not compose: the second call computes its edits from the same
    snapshot as the first and overwrites what the first wrote, so each
    document of the chain ends with the tags the second call alone would
    give it.  The engine is assumed to return each hit once. *)
Theorem tag_twice_keeps_last (uid tags1 tags2 : string) (rev : option string)
    (s s0 : manager) (results : list Content) (count : nat) (c : Content) :
  (∀ k l, engine_sort k l ≡ₚ l) →
  get_by_uid_prop uid rev s = (Ok (results, count), s0) →
  count ≠ 0 →
  c ∈ results →
  ∃ d,
    store_get (write_index (tag uid tags2 rev (tag uid tags1 rev s).2).2)
      (doc_id (_doc c)) = Some d
    ∧ tag_set d = foldl edit_set (tag_set (_doc c)) (_parse_tags tags2)
    ∧ store_get (write_index (tag uid tags2 rev s).2) (doc_id (_doc c)) = Some d.
Proof.
  intros Hsort Hres Hcount Hc.
  pose proof (get_by_uid_prop_pure _ _ _ _ _ Hres) as ->.
  set (s1 := (tag uid tags1 rev s).2).
  assert (Hres1 : get_by_uid_prop uid rev s1 = (Ok (results, count), s1)).
  { destruct (get_by_uid_prop uid rev s1) as [r1 s1'] eqn:Hr1.
    pose proof (get_by_uid_prop_pure _ _ _ _ _ Hr1) as ->.
    pose proof (get_by_uid_prop_same_reads uid rev s s1) as Hsame.
    rewrite Hr1, Hres in Hsame. cbn in Hsame. rewrite Hsame; [done| |].
    - apply (tag_published uid tags1 rev s _ _ (surjective_pairing _)).
    - apply tag_backingstore. }
  rewrite (tag_edit_all _ tags2 _ _ _ _ _ Hres1 Hcount).
  rewrite (tag_edit_all _ tags2 _ _ _ _ _ Hres Hcount). cbn [snd write_index retagged].
  set (c' := foldl (λ c p, edit_content p c) c (_parse_tags tags2)).
  destruct (edit_fold (_parse_tags tags2) c) as (Hid & _ & Hs). fold c' in Hid, Hs.
  assert (Hnd : NoDup (ids (edit_all tags2 results))).
  { rewrite edit_all_ids.
    destruct (get_by_uid_prop_inv _ _ _ _ _ _ Hres) as (q & _ & -> & _).
    by apply chain_ids_NoDup. }
  assert (Hin : c' ∈ edit_all tags2 results).
  { unfold edit_all. apply list_elem_of_fmap. by exists c. }
  exists (_doc c'). rewrite <- Hid.
  split; [|split; [done|]]; apply store_get_stored; by apply replace_all_lookup_NoDup.
Qed.

End TagEdits.

(** ** The shape of parsed tags *)

Lemma lower_char_idemp c : Py.lower_char (Py.lower_char c) = Py.lower_char c.
Proof. destruct c as [[] [] [] [] [] [] [] []]; reflexivity. Qed.

Lemma lower_char_space c : Ascii.is_space (Py.lower_char c) = Ascii.is_space c.
Proof. destruct c as [[] [] [] [] [] [] [] []]; reflexivity. Qed.

Lemma lower_idemp s : Py.lower (Py.lower s) = Py.lower s.
Proof. induction s as [|c s IH]; [done|]. cbn. by rewrite lower_char_idemp, IH. Qed.

Lemma lower_app s1 s2 : Py.lower (s1 +:+ s2) = Py.lower s1 +:+ Py.lower s2.
Proof.
  induction s1 as [|c s1 IH]; [done|].
  change (String c s1 +:+ s2) with (String c (s1 +:+ s2)). cbn [Py.lower].
  by rewrite IH.
Qed.

Lemma has_space_app s1 s2 : has_space (s1 +:+ s2) = has_space s1 || has_space s2.
Proof.
  induction s1 as [|c s1 IH]; [done|].
  change (String c s1 +:+ s2) with (String c (s1 +:+ s2)). cbn [has_space].
  by rewrite IH, orb_assoc.
Qed.

Lemma split_go_lower_words cur s :
  word_ok cur → Forall word_ok (Py.split_go cur (Py.lower s)).
Proof.
  revert cur. induction s as [|c s IH]; intros cur Hcur; cbn [Py.lower Py.split_go].
  - destruct (decide _); [constructor|by apply Forall_singleton].
  - destruct (Ascii.is_space (Py.lower_char c)) eqn:Hc.
    + apply Forall_app. split.
      * destruct (decide _); [constructor|by apply Forall_singleton].
      * by apply IH.
    + apply IH. destruct Hcur as [Hsp Hlow]. split.
      * rewrite has_space_app, Hsp. cbn. by rewrite Hc.
      * rewrite lower_app, Hlow. cbn. by rewrite lower_char_idemp.
Qed.

Lemma drop_word_ok n w : word_ok w → word_ok (Py.drop n w).
Proof.
  revert w. induction n as [|n IH]; intros [|c w] Hw; try done.
  cbn [Py.drop]. apply IH. destruct Hw as [Hsp Hlow]. cbn in Hsp, Hlow.
  apply orb_false_iff in Hsp as [_ Hsp]. split; [done|]. congruence.
Qed.

Lemma take_word_ok n w : word_ok w → word_ok (Py.take n w).
Proof.
  revert w. induction n as [|n IH]; intros [|c w] Hw; try done.
  destruct Hw as [Hsp Hlow]. cbn in Hsp, Hlow.
  apply orb_false_iff in Hsp as [Hc Hsp].
  destruct (IH w) as [Hsp' Hlow']; [split; [done|congruence]|].
  split; cbn [Py.take has_space Py.lower].
  - by rewrite Hc, Hsp'.
  - rewrite Hlow'. congruence.
Qed.

Lemma append_char_nonempty (s : string) c : s +:+ String c "" ≠ "".
Proof. by destruct s. Qed.

Lemma split_go_lower_length cur cur' s :
  (cur = "" ↔ cur' = "") →
  length (Py.split_go cur (Py.lower s)) = length (Py.split_go cur' s).
Proof.
  revert cur cur'. induction s as [|c s IH]; intros cur cur' Hcur;
    cbn [Py.lower Py.split_go].
  - destruct (decide (cur = "")), (decide (cur' = "")); naive_solver.
  - rewrite lower_char_space. destruct (Ascii.is_space c).
    + rewrite !length_app, (IH "" "") by done. f_equal.
      destruct (decide (cur = "")), (decide (cur' = "")); naive_solver.
    + apply IH. split; intros Habs; by apply append_char_nonempty in Habs.
Qed.

(** X10. The tag grammar is case-insensitive and whitespace-delimited:
    [_parse_tags] yields one triple for each whitespace-separated word of
    the string, each with a tag in lower case and without whitespace,
    [all] set, and the mode ADD or REMOVE; the string and its lower-case
    form parse alike. *)
Theorem parsed_tags_normal_form (tags : string) :
  Forall (λ p : string * bool * Z,
            word_ok p.1.1 ∧ p.1.2 = true ∧ (p.2 = ADD ∨ p.2 = REMOVE))
    (_parse_tags tags)
  ∧ length (_parse_tags tags) = length (Py.split tags)
  ∧ _parse_tags (Py.lower tags) = _parse_tags tags.
Proof.
  split; [|split].
  - unfold _parse_tags. rewrite Forall_fmap.
    eapply Forall_impl; [apply (split_go_lower_words "" tags); by split|].
    intros w Hw. cbn. split; [|split; [done|]].
    + assert (Hw' : word_ok (if Py.startswith "-" w then Py.from1 w else w)).
      { destruct (Py.startswith "-" w); [by apply drop_word_ok|done]. }
      destruct (Py.startswith "-" w); cbn [fst];
        destruct (decide _); try done; by apply take_word_ok.
    + destruct (Py.startswith "-" w); cbn; auto.
  - unfold _parse_tags. rewrite length_fmap. by apply split_go_lower_length.
  - unfold _parse_tags. by rewrite lower_idemp.
Qed.

(** ** Deleting *)

(** X13. [delete] removes the engine document kept under [uid] and
    flushes: the call returns normally whether or not the document
    exists, [get] of that identity then raises [KeyError], nothing is
    queued for the worker, every other identity reads after the call as
    the write connection had it before (pending writes are published by
    the flush), and a second [delete] changes no connection. *)
Theorem delete_then_get (uid : string) (s : manager) :
  let s' := (delete uid s).2 in
  (delete uid s).1 = Ok ()
  ∧ (get uid s').1 = Raise (KeyError uid)
  ∧ queue s' = queue s
  ∧ unfinished_tasks s' = unfinished_tasks s
  ∧ (∀ id, id ≠ uid → store_get (read_index s') id = store_get (write_index s) id)
  ∧ write_index (delete uid s').2 = write_index s'
  ∧ read_index (delete uid s').2 = read_index s'.
Proof.
  unfold delete.
  rewrite (enque_delete uid None (Document "" [] ∅) None FNone s). cbn [fst snd].
  rewrite (enque_delete uid None (Document "" [] ∅) None FNone). cbn [fst snd].
  cbn [synced queue unfinished_tasks read_index write_index].
  split; [done|]. split.
  - unfold get, bind, gets, store_get. cbn [read_index synced].
    by rewrite lookup_delete_eq.
  - split; [by rewrite app_nil_r|]. split; [done|]. split.
    + intros id Hne. unfold store_get. by rewrite lookup_delete_ne.
    + by rewrite delete_delete_eq.
Qed.

(** ** The fields of an indexed document *)

Lemma index_fields_eq props doc s :
  index_fields props doc s =
    (Ok (Document (doc_id doc) (doc_fields doc ++ known_fields (fields s) props)
           (doc_data doc)),
     with_trace (trace s ++ missing_warnings (fields s) props) s).
Proof.
  revert doc s. induction props as [|[k prop] props IH]; intros doc s.
  - unfold known_fields, missing_warnings. cbn. rewrite !app_nil_r.
    by destruct doc, s.
  - cbn [index_fields]. rewrite bind_gets.
    unfold known_fields, missing_warnings. rewrite !filter_cons. cbn [fst snd].
    destruct (decide (k ∈ fields s)) as [Hin|Hnin].
    + rewrite bool_decide_true by done. cbn [negb].
      rewrite IH. rewrite decide_False by (by intros ?).
      unfold known_fields, missing_warnings. cbn. by rewrite <- app_assoc.
    + rewrite bool_decide_false by done. cbn [negb].
      unfold warn, emit. rewrite bind_modify. rewrite IH.
      rewrite decide_True by done.
      unfold known_fields, missing_warnings. destruct s. cbn.
      by rewrite <- app_assoc.
Qed.

(** X14. The property-indexing loop of [index] keeps exactly the
    properties whose key is a registered field, in their order, as fields
    of the document; each other property is dropped with one warning.  The
    loop always completes and changes nothing but the trace; the identity
    and the data blob of the document are kept. *)
Theorem index_fields_registered_only (props : list (string * property))
    (doc : document) (s : manager) :
  ∃ doc',
    index_fields props doc s =
      (Ok doc', with_trace (trace s ++ missing_warnings (fields s) props) s)
    ∧ doc_id doc' = doc_id doc
    ∧ doc_data doc' = doc_data doc
    ∧ doc_fields doc' = doc_fields doc ++ known_fields (fields s) props
    ∧ (∀ k v, (k, v) ∈ known_fields (fields s) props →
         k ∈ fields s ∧ ∃ p, (k, p) ∈ props ∧ v = for_xapian p)
    ∧ length (known_fields (fields s) props)
      + length (missing_warnings (fields s) props) = length props.
Proof.
  eexists. split; [apply index_fields_eq|]. cbn. split; [done|]. split; [done|].
  split; [done|]. split.
  - intros k v Hkv. unfold known_fields in Hkv.
    apply list_elem_of_fmap in Hkv as ([k' p] & [= -> ->] & Hin).
    apply list_elem_of_filter in Hin as [Hk Hin]. cbn in *. eauto.
  - unfold known_fields, missing_warnings. rewrite !length_fmap.
    induction props as [|[k p] props IH]; [done|].
    rewrite !filter_cons. cbn [fst].
    destruct (decide (k ∈ fields s)).
    + rewrite decide_False by (by intros ?). cbn. lia.
    + rewrite decide_True by done. cbn. lia.
Qed.

(** ** Indexing, end to end *)

#[local] Instance same_surroundings_refl : Reflexive same_surroundings.
Proof. intros s. by split. Qed.

#[local] Instance same_surroundings_trans : Transitive same_surroundings.
Proof. intros s1 s2 s3 [? ?] [? ?]. split; congruence. Qed.

Section IndexEndToEnd.
Context `{Collaborators}.

Lemma map_properties_surroundings props acc :
  preserves same_surroundings (map_properties props acc).
Proof.
  revert acc. induction props as [|kv props IH]; intros acc; cbn [map_properties].
  - keep.
  - apply preserves_bind; [apply _| |intros ?; apply IH].
    unfold map_property. keep.
Qed.

Lemma _mapProperties_surroundings props :
  preserves same_surroundings (_mapProperties props).
Proof.
  unfold _mapProperties.
  apply preserves_bind; [apply _|apply map_properties_surroundings|intros r].
  unfold datamodel_apply, addField, emit. keep.
Qed.

Lemma index_filestuff_of filename props0 :
  index_filestuff filename props0 = filestuff_of filename (mimetype_of props0).
Proof. reflexivity. Qed.

Lemma index_tail_full uid op vid id props filename s :
  maps_all → op = CREATE ∨ op = UPDATE →
  ∃ s' doc mime,
    bind (_mapProperties props) (λ props0,
      bind (index_fields props0 (Document id [] ∅)) (λ doc0,
        bind (enque uid (Some vid) (Some doc0) op (index_filestuff filename props0))
          (λ _, ret (doc_id doc0)))) s = (Ok id, s')
    ∧ doc_id doc = id
    ∧ (∀ k v, (k, v) ∈ doc_fields doc → k ∈ fields s')
    ∧ write_index s' = <[id := to_stored doc]> (write_index s)
    ∧ read_index s' = write_index s'
    ∧ disk s' = write_index s'
    ∧ queue s' = queue s ++ file_work uid (Some vid) doc (filestuff_of filename mime)
    ∧ unfinished_tasks s'
      = length (file_work uid (Some vid) doc (filestuff_of filename mime))
        + unfinished_tasks s
    ∧ files s' = files s
    ∧ indexer_running s' = indexer_running s
    ∧ backingstore s' = backingstore s.
Proof.
  intros Hall Hop.
  destruct (_mapProperties_frame props Hall s) as (props0 & s1 & Hmap & Hf1 & _).
  destruct (_mapProperties_surroundings props s _ _ Hmap) as [Hfiles Hrun].
  destruct Hf1 as (Hw & _ & _ & Hq & Hu & Hb & _).
  rewrite (bind_Ok _ _ _ _ _ Hmap), (bind_Ok _ _ _ _ _ (index_fields_eq _ _ _)).
  cbn [doc_id doc_fields doc_data app].
  set (doc := Document id (known_fields (fields s1) props0) ∅).
  assert (Hfields : ∀ k v, (k, v) ∈ doc_fields doc → k ∈ fields s1).
  { intros k v Hkv. cbn in Hkv. unfold known_fields in Hkv.
    apply list_elem_of_fmap in Hkv as ([k' p] & [= -> ->] & Hin).
    by apply list_elem_of_filter in Hin as [Hk _]. }
  rewrite index_filestuff_of.
  destruct Hop as [-> | ->].
  - rewrite (bind_Ok _ _ _ _ _ (enque_create _ _ _ _ _)).
    eexists _, doc, (mimetype_of props0). split; [reflexivity|].
    cbn [synced write_index read_index disk queue unfinished_tasks files
         indexer_running backingstore fields with_trace doc_id].
    rewrite Hw, Hq, Hu, Hb, Hfiles, Hrun. by repeat split.
  - rewrite (bind_Ok _ _ _ _ _ (enque_update _ _ _ _ _)).
    eexists _, doc, (mimetype_of props0). split; [reflexivity|].
    cbn [synced write_index read_index disk queue unfinished_tasks files
         indexer_running backingstore fields with_trace doc_id].
    rewrite Hw, Hq, Hu, Hb, Hfiles, Hrun. by repeat split.
Qed.

Lemma index_full props filename s :
  maps_all →
  ∃ s' doc vid mime,
    index props filename s = (Ok (engine_identity props s), s')
    ∧ doc_id doc = engine_identity props s
    ∧ (∀ k v, (k, v) ∈ doc_fields doc → k ∈ fields s')
    ∧ write_index s' = <[engine_identity props s := to_stored doc]> (write_index s)
    ∧ read_index s' = write_index s'
    ∧ disk s' = write_index s'
    ∧ queue s' = queue s ++ file_work (logical_uid props s) (Some vid) doc
                              (filestuff_of filename mime)
    ∧ unfinished_tasks s'
      = length (file_work (logical_uid props s) (Some vid) doc
                  (filestuff_of filename mime))
        + unfinished_tasks s
    ∧ files s' = files s
    ∧ indexer_running s' = indexer_running s
    ∧ backingstore s' = backingstore s.
Proof.
  intros Hall. unfold index, engine_identity, logical_uid, uid_count_settled, supplied_uid.
  destruct (Py.get "uid" props) as [u|] eqn:Hu; [destruct (decide (u = "")) as [->|Hne]|].
  all: unfold create_uid, log, emit; steps.
  all: try change (versions (with_uid_count (S (uid_count s)) s)) with (versions s).
  all: destruct (versions s) eqn:Hv; steps.
  all: try (destruct (_ || _); steps).
  all: edestruct index_tail_full as (s' & doc & mime & Hrun & Hrest); [exact Hall| |];
    [|eexists s', doc, _, mime; split; [exact Hrun|exact Hrest]];
    first [by left | by right].
Qed.

(** X15. [index] publishes at once: when it returns, the write
    connection is the old one with the new document under the engine
    identity, the disk and the read snapshot are equal to it (so writes
    that were pending are published too), and [get] of the returned
    identity yields the document.  Every field of the document is a
    registered field.  The data model is assumed to map every property. *)
Theorem index_published_at_once (props : list (string * string))
    (filename : option string) (s : manager) :
  maps_all →
  ∃ s' doc,
    index props filename s = (Ok (doc_id doc), s')
    ∧ write_index s' = <[doc_id doc := to_stored doc]> (write_index s)
    ∧ read_index s' = write_index s'
    ∧ disk s' = write_index s'
    ∧ get (doc_id doc) s' = (Ok (MkContent doc), s')
    ∧ (∀ k v, (k, v) ∈ doc_fields doc → k ∈ fields s').
Proof.
  intros Hall.
  destruct (index_full props filename s Hall)
    as (s' & doc & vid & mime & Hrun & Hid & Hfields & Hw & Hr & Hd & _).
  exists s', doc. rewrite Hid.
  split; [done|]. split; [done|]. split; [done|]. split; [done|]. split; [|done].
  unfold get, bind, gets. rewrite Hr, Hw, <- Hid.
  rewrite (store_get_stored _ doc) by apply lookup_insert_eq. done.
Qed.

(** One pass of the worker over an UPDATE item whose file converts. *)
Lemma indexThread_pass_update v i uid vid d ref mimetype text q' s :
  queue s = QOne (Item uid vid (Some d) UPDATE (FPair ref mimetype)) :: q' →
  converter (file_name ref) mimetype = Ok (Some text) →
  (v && negb i = true → file_name ref ∈ files s) →
  0 < unfinished_tasks s →
  ∃ s', indexThread_pass v i s = (Ok (), s')
    ∧ write_index s' = <[doc_id d := to_stored (with_fulltext d text)]> (write_index s)
    ∧ read_index s' = read_index s
    ∧ disk s' = disk s
    ∧ queue s' = q'
    ∧ S (unfinished_tasks s') = unfinished_tasks s
    ∧ files s' = (if v && negb i then files s ∖ {[file_name ref]} else files s).
Proof.
  intros Hq Hconv Hfile Hunf.
  rewrite (indexThread_pass_run v i _ q' _ s Hq eq_refl).
  cbn [for_each].
  destruct (process_update_run v i uid vid d ref mimetype text
              (entered (QOne (Item uid vid (Some d) UPDATE (FPair ref mimetype))) q' s)
              Hconv) as [t Hrun].
  change (files (entered _ q' s)) with (files s) in Hrun.
  destruct (v && negb i) eqn:Hvi.
  - rewrite decide_True in Hrun by auto.
    rewrite (bind_Ok _ _ _ _ _ Hrun). cbv beta. unfold ret.
    cbn [unfinished_tasks after_update entered with_trace with_queue].
    destruct (unfinished_tasks s) as [|n] eqn:Hn; [lia|].
    eexists. split; [reflexivity|]. by repeat split.
  - rewrite (bind_Ok _ _ _ _ _ Hrun). cbv beta. unfold ret.
    cbn [unfinished_tasks after_update entered with_trace with_queue].
    destruct (unfinished_tasks s) as [|n] eqn:Hn; [lia|].
    eexists. split; [reflexivity|]. by repeat split.
Qed.

(** X16. Indexing a file, end to end.  [index] with a file name on an
    empty queue stores the document without its text and queues one
    UPDATE item; the next pass of the worker converts the file, replaces
    the document in the write connection by the document with the
    [fulltext] fields appended, and marks the task done.  The read
    snapshot still shows the document without its text until a [flush].
    The data model is assumed to map every property and the converter to
    give a text for the file. *)
Theorem index_file_then_worker (props : list (string * string)) (f text : string)
    (s : manager) :
  maps_all →
  f ≠ "" →
  queue s = [] →
  (∀ mimetype, converter (abspath f) mimetype = Ok (Some text)) →
  (versions s && negb (inplace s) = true → abspath f ∈ files s) →
  let s1 := (index props (Some f) s).2 in
  let s2 := (indexThread_pass (versions s) (inplace s) s1).2 in
  ∃ doc,
    (index props (Some f) s).1 = Ok (doc_id doc)
    ∧ read_index s1 !! doc_id doc = Some (to_stored doc)
    ∧ length (queue s1) = 1
    ∧ (indexThread_pass (versions s) (inplace s) s1).1 = Ok ()
    ∧ write_index s2 !! doc_id doc = Some (to_stored (with_fulltext doc text))
    ∧ read_index s2 = read_index s1
    ∧ queue s2 = []
    ∧ unfinished_tasks s2 = unfinished_tasks s
    ∧ read_index (flush s2).2 !! doc_id doc = Some (to_stored (with_fulltext doc text)).
Proof.
  intros Hall Hf Hq Hconv Hfile s1 s2.
  destruct (index_full props (Some f) s Hall)
    as (s' & doc & vid & mime & Hrun & Hid & _ & Hw & Hr & _ & Hq' & Hu & Hfiles & _).
  assert (Hwork : file_work (logical_uid props s) (Some vid) doc
                    (filestuff_of (Some f) mime)
                  = [QOne (Item (logical_uid props s) (Some vid) (Some doc) UPDATE
                             (FPair (PathRef (abspath f)) mime))]).
  { unfold filestuff_of. by rewrite decide_False. }
  rewrite Hwork, Hq in Hq'. rewrite Hwork in Hu. cbn in Hq', Hu.
  subst s2 s1. rewrite Hrun. cbn [fst snd].
  destruct (indexThread_pass_update (versions s) (inplace s) _ _ doc
              (PathRef (abspath f)) mime text [] s' Hq' (Hconv mime))
    as (s2 & Hpass & Hw2 & Hr2 & Hd2 & Hq2 & Hu2 & _).
  { intros Hvi. cbn. rewrite Hfiles. by apply Hfile. }
  { lia. }
  rewrite Hpass. cbn [fst snd]. exists doc. rewrite Hid.
  split; [done|]. split; [by rewrite Hr, Hw, <- Hid, lookup_insert_eq|].
  split; [by rewrite Hq'|]. split; [done|].
  assert (Hlk : write_index s2 !! doc_id doc = Some (to_stored (with_fulltext doc text))).
  { by rewrite Hw2, lookup_insert_eq. }
  rewrite <- Hid. split; [done|]. split; [done|]. split; [done|]. split; [lia|].
  by rewrite flush_eq.
Qed.

End IndexEndToEnd.

(** ** Searching only reads *)

Section Reads.
Context (P : event → Prop).

Lemma reads_ret {A} (a : A) : reads P (ret a).
Proof. intros s. exists (Ok a), []. split; [done|]. intros t. by rewrite app_nil_r. Qed.

Lemma reads_raise {A} e : reads P (@raise A e).
Proof. intros s. exists (Raise e), []. split; [done|]. intros t. by rewrite app_nil_r. Qed.

Lemma reads_lift {A} (x : res A) : reads P (lift x).
Proof. intros s. exists x, []. split; [done|]. intros t. by rewrite app_nil_r. Qed.

Lemma reads_gets {A} (f : manager → A) :
  (∀ s t, f (with_trace t s) = f s) → reads P (gets f).
Proof.
  intros Hf s. exists (Ok (f s)), []. split; [done|]. intros t.
  unfold gets. by rewrite Hf, app_nil_r.
Qed.

Lemma reads_emit e : P e → reads P (emit e).
Proof. intros He s. exists (Ok ()), [e]. split; [by apply Forall_singleton|done]. Qed.

Lemma reads_bind {A B} (m : M A) (k : A → M B) :
  reads P m → (∀ a, reads P (k a)) → reads P (bind m k).
Proof.
  intros Hm Hk s. destruct (Hm s) as ([a|e] & ev & Hev & Hrun).
  - destruct (Hk a s) as (r' & ev' & Hev' & Hrun').
    exists r', (ev ++ ev'). split; [by apply Forall_app|]. intros t.
    unfold bind. by rewrite Hrun, Hrun', app_assoc.
  - exists (Raise e), ev. split; [done|]. intros t. unfold bind. by rewrite Hrun.
Qed.

Lemma reads_try_except {A} (m : M A) (h : exn → M A) :
  reads P m → (∀ e, reads P (h e)) → reads P (try_except m h).
Proof.
  intros Hm Hh s. destruct (Hm s) as ([a|e] & ev & Hev & Hrun).
  - exists (Ok a), ev. split; [done|]. intros t. unfold try_except. by rewrite Hrun.
  - destruct (Hh e s) as (r' & ev' & Hev' & Hrun').
    exists r', (ev ++ ev'). split; [by apply Forall_app|]. intros t.
    unfold try_except. by rewrite Hrun, Hrun', app_assoc.
Qed.

Lemma reads_run {A} (m : M A) s :
  reads P m → ∃ r ev, Forall P ev ∧ m s = (r, with_trace (trace s ++ ev) s).
Proof.
  intros Hm. destruct (Hm s) as (r & ev & Hev & Hrun). exists r, ev. split; [done|].
  rewrite <- Hrun. by destruct s.
Qed.

End Reads.

Lemma reads_weaken {A} (P Q : event → Prop) (m : M A) :
  (∀ e, P e → Q e) → reads P m → reads Q m.
Proof.
  intros HPQ Hm s. destruct (Hm s) as (r & ev & Hev & Hrun). exists r, ev.
  split; [|done]. eapply Forall_impl; [exact Hev|exact HPQ].
Qed.

(** The steps of a computation that only reads. *)
Ltac reading :=
  repeat first
    [ apply reads_ret
    | apply reads_raise
    | apply reads_lift
    | apply reads_gets; reflexivity
    | apply reads_bind; [|intros ?]
    | apply reads_try_except; [|intros ?]
    | match goal with
      | |- reads _ (match ?x with _ => _ end) => destruct x
      end ].

Lemma lovehate_lor fl b :
  Z.testbit b 0 = false → lovehate_no_boolean fl → lovehate_no_boolean (Z.lor fl b).
Proof.
  intros Hb [H2 H0]. unfold lovehate_no_boolean.
  rewrite !Z.lor_spec, H2, H0, Hb. done.
Qed.

Section SearchReads.
Context `{Collaborators}.

Lemma _query_parse_rejected word flags op s :
  qp_accepts (default OP_AND op) word flags = false →
  _query_parse word flags op s =
    (Raise (NameError "string"), with_trace (trace s ++ [EvParse word flags]) s).
Proof.
  intros Hrej. unfold _query_parse, try_except, qp_parse_query.
  cbn. rewrite Hrej. reflexivity.
Qed.

Lemma _query_parse_reads (Q : Z → Prop) word flags op :
  Q flags → reads (parse_with Q) (_query_parse word flags op).
Proof.
  intros HQ s. destruct (qp_accepts (default OP_AND op) word flags) eqn:Hacc.
  - eexists _, [EvParse word flags]. split.
    + apply Forall_singleton. by exists word, flags.
    + intros t. by rewrite (_query_parse_accepted _ _ _ _ Hacc).
  - eexists _, [EvParse word flags]. split.
    + apply Forall_singleton. by exists word, flags.
    + intros t. by rewrite (_query_parse_rejected _ _ _ _ Hacc).
Qed.

Lemma parse_query_loop_reads fuel query start flags queries :
  lovehate_no_boolean flags →
  reads (parse_with lovehate_no_boolean)
    (parse_query_loop fuel query start flags queries).
Proof.
  revert start flags queries.
  induction fuel as [|fuel IH]; intros start flags queries Hfl; cbn [parse_query_loop].
  - apply reads_ret.
  - destruct (decide _); [|apply reads_ret].
    destruct (nextword_match query start) as [word|]; [|apply reads_ret].
    apply reads_bind; [by apply reads_gets|]. intros known.
    set (fw := if Py.contains_char ":" word then _ else _).
    set (wfs := if Py.startswith _ _ then _ else _).
    assert (Hwfs : lovehate_no_boolean wfs.1.2).
    { subst wfs. destruct (Py.startswith _ _); [|done].
      destruct (endquote_search _ _); [|done]. by apply lovehate_lor. }
    clearbody wfs fw. destruct (_ && _); [by apply IH|].
    assert (Hfl' : lovehate_no_boolean
                     (if Py.endswith "*" wfs.1.1 then Z.lor wfs.1.2 FLAG_WILDCARD
                      else wfs.1.2)).
    { destruct (Py.endswith _ _); [by apply lovehate_lor|done]. }
    apply reads_bind; [by apply _query_parse_reads|]. intros q. by apply IH.
Qed.

Lemma parse_query_reads query :
  reads (parse_with lovehate_no_boolean) (parse_query query).
Proof.
  unfold parse_query. destruct query; try apply reads_raise.
  apply reads_bind; [by apply parse_query_loop_reads|]. intros qs. apply reads_ret.
Qed.

Lemma clauses_reads P query queries : reads P (clauses query queries).
Proof.
  revert queries. induction query as [|[k v] query IH]; intros queries; cbn [clauses].
  - apply reads_ret.
  - apply reads_bind; [|intros c; apply IH]. unfold clause. reading.
Qed.

Lemma search_query_reads query :
  reads (parse_with lovehate_no_boolean) (search_query query).
Proof.
  unfold search_query. destruct (negb _); [apply reads_ret|].
  destruct query; try apply parse_query_reads.
  apply reads_bind.
  - destruct (Py.truthy _); [|apply reads_ret].
    apply reads_bind; [apply parse_query_reads|]. intros pq. apply reads_ret.
  - intros queries. destruct (_ && _); [apply reads_ret|].
    apply reads_bind; [apply clauses_reads|]. intros qs. apply reads_ret.
Qed.

Lemma _search_reads P q a b sortby : reads P (_search q a b sortby).
Proof. unfold _search, read_index_search. reading. Qed.

Lemma search_reads query a b order_by :
  reads (parse_with lovehate_no_boolean) (search query a b order_by).
Proof.
  unfold search. apply reads_bind; [apply search_query_reads|]. intros q.
  apply _search_reads.
Qed.

Lemma get_reads P uid : reads P (get uid).
Proof. unfold get. reading. Qed.

Lemma get_by_uid_prop_reads P uid rev : reads P (get_by_uid_prop uid rev).
Proof.
  unfold get_by_uid_prop. apply reads_bind; [|intros q; apply _search_reads].
  unfold backingstore_tip. reading.
Qed.

(** X17. [search], [parse_query], [get] and [get_by_uid_prop] only read:
    whatever they return, they leave the connections, the queue, the
    fields and every other part of the manager as they were; their result
    does not depend on what happened before, only on the state; and the
    only thing they do to the engine is to call the query parser. *)
Theorem searching_only_reads :
  (∀ query a b order_by, reads (parse_with (λ _, True)) (search query a b order_by))
  ∧ (∀ query, reads (parse_with (λ _, True)) (parse_query query))
  ∧ (∀ uid, reads (λ _, False) (get uid))
  ∧ (∀ uid rev, reads (λ _, False) (get_by_uid_prop uid rev)).
Proof.
  split; [|split; [|split]].
  - intros. eapply reads_weaken; [|apply search_reads].
    intros e (w & fl & -> & _). by exists w, fl.
  - intros. eapply reads_weaken; [|apply parse_query_reads].
    intros e (w & fl & -> & _). by exists w, fl.
  - intros. apply get_reads.
  - intros. apply get_by_uid_prop_reads.
Qed.

(** X18. Every call that [parse_query] makes to the query parser, for
    whatever text, asks for the [+]/[-] syntax (FLAG_LOVEHATE) and never
    for boolean operators (FLAG_BOOLEAN): the flags only ever gain
    FLAG_PHRASE and FLAG_WILDCARD, and after a parse error no second call
    is made. *)
Theorem parse_query_never_boolean (query : Py.value) (s : manager) :
  ∃ ev, trace (parse_query query s).2 = trace s ++ ev
        ∧ Forall (parse_with lovehate_no_boolean) ev.
Proof.
  destruct (reads_run _ (parse_query query) s (parse_query_reads query))
    as (r & ev & Hev & ->).
  by exists ev.
Qed.

End SearchReads.

(** ** The window of a search *)

Lemma window_app a b c ms :
  a ≤ b → b ≤ c → window a b ms ++ window b c ms = window a c ms.
Proof.
  intros Hab Hbc. unfold window. rewrite <- fmap_app. f_equal.
  replace (drop b ms) with (drop (b - a) (drop a ms))
    by (rewrite drop_drop; f_equal; lia).
  rewrite take_take_drop. f_equal. lia.
Qed.

Section SearchWindow.
Context `{Collaborators}.

(** [search] from a state: the query is built once, whatever the window,
    and the window is cut from its matches in the read snapshot. *)
Lemma search_eq query order_by s :
  ∃ rq ev,
    ∀ a b t,
      search query a b order_by (with_trace t s) =
        (match rq with
         | Ok q =>
             let ms := matches q (sort_spec order_by) (read_index s) in
             Ok (window a b ms, length ms)
         | Raise e => Raise e
         end, with_trace (t ++ ev) s).
Proof.
  destruct (search_query_reads query s) as ([q|e] & ev & _ & Hrun).
  - exists (Ok q), ev. intros a b t. unfold search, bind. rewrite Hrun.
    unfold _search, read_index_search, bind, gets, ret, window, sort_spec.
    cbn [fst snd]. reflexivity.
  - exists (Raise e), ev. intros a b t. unfold search, bind. by rewrite Hrun.
Qed.

(** X19. Paging composes: for a query that is not a dictionary, the hits
    of [search] for the window [a, b) followed by those of a later
    [search] for [b, c) are the hits of one [search] for [a, c).  Nothing
    is said of the counts, which are the engine's estimates.  (A
    dictionary is consumed by the call that receives it, so the statement
    is about the other queries.) *)
Theorem search_pages_compose (query : Py.value) (a b c : nat) (order_by : order)
    (s s1 s2 : manager) (r1 r2 : list Content) (n1 n2 : nat) :
  (∀ d, query ≠ Py.VDict d) →
  a ≤ b → b ≤ c →
  search query a b order_by s = (Ok (r1, n1), s1) →
  search query b c order_by s1 = (Ok (r2, n2), s2) →
  ∃ n, (search query a c order_by s).1 = Ok (r1 ++ r2, n).
Proof.
  intros _ Hab Hbc Hs1 Hs2.
  destruct (search_eq query order_by s) as (rq & ev & Hrun).
  assert (Hs : s = with_trace (trace s) s) by (by destruct s).
  rewrite Hs, Hrun in Hs1. rewrite Hs, Hrun.
  destruct rq as [q|e]; [|discriminate]. cbn zeta in *.
  injection Hs1 as <- <- <-. rewrite Hrun in Hs2. injection Hs2 as <- _ _.
  eexists. cbn [fst]. by rewrite window_app.
Qed.

(** X20. [search] with a false query ([None], the empty string, the empty
    dictionary) matches everything: no parser is called, the manager is
    left as it was, and the hits are the documents of the read snapshot
    of ranks [a, b): as many as the window and the snapshot allow, each a
    document of the snapshot.  Nothing is said of the count, which is the
    engine's estimate.  The engine is assumed to return each match
    once. *)
Theorem search_false_query_matches_all (query : Py.value) (a b : nat)
    (order_by : order) (s : manager) :
  (∀ k l, engine_sort k l ≡ₚ l) →
  Py.truthy query = false →
  ∃ results n,
    search query a b order_by s = (Ok (results, n), s)
    ∧ length results = (b - a) `min` (size (read_index s) - a)
    ∧ (∀ c, c ∈ results →
         store_get (read_index s) (doc_id (_doc c)) = Some (_doc c)).
Proof.
  intros Hsort Hfalse.
  set (ms := matches QAll (sort_spec order_by) (read_index s)).
  assert (Hms : ms ≡ₚ store_docs (read_index s)).
  { subst ms. unfold matches. rewrite Hsort. cbn [qmatch].
    generalize (store_docs (read_index s)). intros l.
    induction l as [|d l IH]; [done|]. rewrite filter_cons.
    rewrite decide_True by done. by rewrite IH. }
  assert (Hlen : length ms = size (read_index s)).
  { rewrite Hms. unfold store_docs. by rewrite length_fmap, length_map_to_list. }
  exists (window a b ms), (length ms). split; [|split].
  - unfold search, search_query. rewrite Hfalse. cbn [negb].
    rewrite bind_ret_l. unfold _search, read_index_search.
    rewrite bind_bind, bind_gets, !bind_ret_l. unfold ret. cbn [fst snd].
    fold (sort_spec order_by). by fold ms.
  - unfold window. rewrite length_fmap, length_take, length_drop, Hlen. done.
  - intros c Hc. unfold window in Hc.
    apply list_elem_of_fmap in Hc as (d & -> & Hd). cbn.
    apply subseteq_take, subseteq_drop in Hd. rewrite Hms in Hd.
    unfold store_docs in Hd. apply list_elem_of_fmap in Hd as ([id b0] & -> & Hd).
    apply elem_of_map_to_list in Hd. unfold store_get. cbn. by rewrite Hd.
Qed.

End SearchWindow.

(** ** Words of a textual query *)

Lemma length_append (s1 s2 : string) :
  String.length (s1 +:+ s2) = String.length s1 + String.length s2.
Proof.
  induction s1 as [|c s1 IH]; [done|].
  change (String c s1 +:+ s2) with (String c (s1 +:+ s2)). cbn. by rewrite IH.
Qed.

Lemma drop_append (s1 s2 : string) : Py.drop (String.length s1) (s1 +:+ s2) = s2.
Proof. induction s1 as [|c s1 IH]; [by destruct s2|]. exact IH. Qed.

Lemma nonspace_run_word w : has_space w = false → nonspace_run w = w.
Proof.
  induction w as [|c w IH]; [done|]. cbn [nonspace_run has_space]. intros Hsp.
  apply orb_false_iff in Hsp as [-> Hsp]. by rewrite IH.
Qed.

Lemma nonspace_run_prefix w c rest :
  has_space w = false → Ascii.is_space c = true →
  nonspace_run (w +:+ String c rest) = w.
Proof.
  intros Hsp Hc. induction w as [|c' w IH].
  - change ("" +:+ String c rest) with (String c rest). cbn [nonspace_run].
    by rewrite Hc.
  - cbn [has_space] in Hsp. apply orb_false_iff in Hsp as [Hc' Hsp].
    change (String c' w +:+ String c rest) with (String c' (w +:+ String c rest)).
    cbn [nonspace_run]. by rewrite Hc', IH.
Qed.

Lemma split_colon_suffix_quote w :
  Py.contains_char quote_char w = false →
  Py.contains_char quote_char (split_colon w).2 = false.
Proof.
  induction w as [|c w IH]; [done|]. cbn. intros Hq.
  apply orb_false_iff in Hq as [Hc Hq]. destruct (decide _); [done|]. by apply IH.
Qed.

Lemma startswith_quote w :
  Py.contains_char quote_char w = false →
  Py.startswith (String quote_char "") w = false.
Proof.
  destruct w as [|c w]; [done|]. cbn. intros Hq.
  apply orb_false_iff in Hq as [Hc _]. apply bool_decide_eq_false in Hc.
  unfold Py.startswith. cbn. apply bool_decide_eq_false. destruct w; congruence.
Qed.

Lemma split_colon_append f v :
  Py.contains_char ":" f = false → split_colon (f +:+ ":" +:+ v) = (f, v).
Proof.
  induction f as [|c f IH]; [done|]. cbn [Py.contains_char]. intros Hc.
  apply orb_false_iff in Hc as [Hc Hf]. apply bool_decide_eq_false in Hc.
  change (String c f +:+ ":" +:+ v) with (String c (f +:+ ":" +:+ v)).
  cbn [split_colon]. rewrite decide_False by done. by rewrite IH.
Qed.

Lemma contains_char_append c s1 s2 :
  Py.contains_char c (s1 +:+ s2) = Py.contains_char c s1 || Py.contains_char c s2.
Proof.
  induction s1 as [|c' s1 IH]; [done|].
  change (String c' s1 +:+ s2) with (String c' (s1 +:+ s2)). cbn.
  by rewrite IH, orb_assoc.
Qed.

Lemma bind_Raise {A B} (m : M A) (k : A → M B) s e s1 :
  m s = (Raise e, s1) → bind m k s = (Raise e, s1).
Proof. intros Hm. unfold bind. by rewrite Hm. Qed.

Lemma bind_ext {A B} (m : M A) (k1 k2 : A → M B) s :
  (∀ a s', k1 a s' = k2 a s') → bind m k1 s = bind m k2 s.
Proof. intros Hk. unfold bind. destruct (m s) as [[a|e] s']; [apply Hk|done]. Qed.

Section TextualWords.
Context `{Collaborators}.

Lemma parse_query_loop_past_end fuel query start flags queries s :
  String.length query ≤ start →
  parse_query_loop fuel query start flags queries s = (Ok queries, s).
Proof.
  intros Hlen. destruct fuel; [done|]. cbn [parse_query_loop].
  by rewrite decide_False by lia.
Qed.

Lemma parse_query_loop_at_blank fuel w c1 c2 rest flags queries s :
  Ascii.is_space c2 = true →
  parse_query_loop fuel (w +:+ String c1 (String c2 rest))
    (String.length w + 1) flags queries s = (Ok queries, s).
Proof.
  intros Hc2. destruct fuel; [done|]. cbn [parse_query_loop].
  destruct (decide _); [|done].
  unfold nextword_match.
  replace (Py.drop (String.length w + 1) (w +:+ String c1 (String c2 rest)))
    with (String c2 rest).
  - cbn [nonspace_run]. rewrite Hc2. by rewrite decide_True.
  - replace (String.length w + 1) with (String.length (w +:+ String c1 "")).
    + change (String c1 (String c2 rest)) with (String c1 "" +:+ String c2 rest).
      by rewrite <- append_assoc, drop_append.
    + rewrite length_append. cbn. lia.
Qed.

(** One turn of the loop on a word without double quote. *)
Lemma parse_query_loop_word_at fuel query start word flags queries s :
  start < String.length query →
  nextword_match query start = Some word →
  Py.contains_char quote_char word = false →
  parse_query_loop (S fuel) query start flags queries s =
    let fw :=
      if Py.contains_char ":" word then
        (if decide ((split_colon word).1 ∈ fields s) then Some (split_colon word).1
         else None, (split_colon word).2)
      else (None, word) in
    if bool_decide (fw.1 ≠ None) && bool_decide (fw.1 ≠ Some "") then
      parse_query_loop fuel query (start + String.length word + 1) flags
        (queries ++ [QField (default "" fw.1) (Py.VStr fw.2)]) s
    else
      bind (_query_parse fw.2 (word_flags flags fw.2) None)
        (λ q, parse_query_loop fuel query (start + String.length word + 1)
                (word_flags flags fw.2) (queries ++ [q])) s.
Proof.
  intros Hlen Hnext Hq. cbn [parse_query_loop].
  rewrite decide_True by done. rewrite Hnext, bind_gets. cbv zeta.
  set (fw := if Py.contains_char ":" word then _ else _).
  assert (Hstart : Py.startswith (String quote_char "") fw.2 = false).
  { apply startswith_quote. subst fw. destruct (Py.contains_char ":" word); [|done].
    by apply split_colon_suffix_quote. }
  rewrite Hstart. cbn [fst snd]. unfold word_flags. by destruct (_ && _).
Qed.

Lemma parse_query_loop_word fuel query word flags queries s :
  0 < String.length query →
  nextword_match query 0 = Some word →
  Py.contains_char quote_char word = false →
  parse_query_loop (S fuel) query 0 flags queries s =
    let fw :=
      if Py.contains_char ":" word then
        (if decide ((split_colon word).1 ∈ fields s) then Some (split_colon word).1
         else None, (split_colon word).2)
      else (None, word) in
    if bool_decide (fw.1 ≠ None) && bool_decide (fw.1 ≠ Some "") then
      parse_query_loop fuel query (String.length word + 1) flags
        (queries ++ [QField (default "" fw.1) (Py.VStr fw.2)]) s
    else
      let flags' := if Py.endswith "*" fw.2 then Z.lor flags FLAG_WILDCARD else flags in
      bind (_query_parse fw.2 flags' None)
        (λ q, parse_query_loop fuel query (String.length word + 1) flags'
                (queries ++ [q])) s.
Proof. apply parse_query_loop_word_at. Qed.

Lemma nextword_match_prefix w c rest :
  w ≠ "" → has_space w = false → Ascii.is_space c = true →
  nextword_match (w +:+ String c rest) 0 = Some w.
Proof.
  intros Hne Hsp Hc. unfold nextword_match.
  change (Py.drop 0 (w +:+ String c rest)) with (w +:+ String c rest).
  rewrite nonspace_run_prefix by done. by rewrite decide_False.
Qed.

Lemma nextword_match_word w :
  w ≠ "" → has_space w = false → nextword_match w 0 = Some w.
Proof.
  intros Hne Hsp. unfold nextword_match. change (Py.drop 0 w) with w.
  rewrite nonspace_run_word by done. by rewrite decide_False.
Qed.

Lemma length_nonempty (w : string) : w ≠ "" → 0 < String.length w.
Proof. destruct w; [done|]. cbn. lia. Qed.

(** X21. [parse_query] stops at the first word that is followed by
    two whitespace characters, and drops what comes after it; a text that
    begins with whitespace yields the empty conjunction without any call
    of the parser.  (After a word the scan resumes one character past its
    end, and ends as soon as no word starts where it stands.)  The word is
    taken without double quote so that no phrase is looked for. *)
Theorem parse_query_stops_at_blank (w rest : string) (c1 c2 : ascii) (s : manager) :
  (w ≠ "" → has_space w = false → Py.contains_char quote_char w = false →
   Ascii.is_space c1 = true → Ascii.is_space c2 = true →
   parse_query (Py.VStr (w +:+ String c1 (String c2 rest))) s
   = parse_query (Py.VStr w) s)
  ∧ (Ascii.is_space c1 = true →
     parse_query (Py.VStr (String c1 rest)) s = (Ok (QComposite OP_AND []), s)).
Proof.
  split.
  - intros Hne Hsp Hq Hc1 Hc2. unfold parse_query.
    set (q1 := w +:+ String c1 (String c2 rest)).
    assert (Hl1 : 0 < String.length q1).
    { subst q1. rewrite length_append. cbn. lia. }
    pose proof (length_nonempty w Hne) as Hl2.
    assert (Hloop : parse_query_loop (String.length q1) q1 0 FLAG_LOVEHATE [] s
                    = parse_query_loop (String.length w) w 0 FLAG_LOVEHATE [] s).
    { destruct (String.length q1) as [|n1] eqn:Hn1; [lia|].
      destruct (String.length w) as [|n2] eqn:Hn2; [lia|].
      rewrite (parse_query_loop_word n1 q1 w); [|lia|by apply nextword_match_prefix|done].
      rewrite (parse_query_loop_word n2 w w); [|lia|by apply nextword_match_word|done].
      cbv zeta. rewrite Hn2. destruct (_ && _).
      - subst q1. rewrite <- Hn2, parse_query_loop_at_blank by done.
        by rewrite parse_query_loop_past_end by lia.
      - apply bind_ext. intros q s'.
        subst q1. rewrite <- Hn2, parse_query_loop_at_blank by done.
        by rewrite parse_query_loop_past_end by lia. }
    unfold bind. by rewrite Hloop.
  - intros Hc1. unfold parse_query. cbn [String.length parse_query_loop].
    rewrite decide_True by lia. unfold nextword_match.
    change (Py.drop 0 (String c1 rest)) with (String c1 rest).
    cbn [nonspace_run]. rewrite Hc1. by rewrite decide_True.
Qed.

(** X22. A word [field:value]: when [field] is a registered field the
    word becomes the field match of [value] and the query parser is not
    called; when it is not, the prefix is dropped without a warning and
    only [value] is handed to the parser.  Field and value are taken
    without whitespace and double quote, the field without colon. *)
Theorem parse_query_field_word (f v : string) (s : manager) :
  f ≠ "" → has_space f = false → has_space v = false →
  Py.contains_char ":" f = false →
  Py.contains_char quote_char f = false → Py.contains_char quote_char v = false →
  parse_query (Py.VStr (f +:+ ":" +:+ v)) s =
    if decide (f ∈ fields s) then (Ok (QComposite OP_AND [QField f (Py.VStr v)]), s)
    else (q <- _query_parse v (if Py.endswith "*" v
                               then Z.lor FLAG_LOVEHATE FLAG_WILDCARD
                               else FLAG_LOVEHATE) None ;;
          ret (QComposite OP_AND [q])) s.
Proof.
  intros Hne Hsf Hsv Hcf Hqf Hqv. unfold parse_query.
  set (word := f +:+ ":" +:+ v).
  assert (Hword : word ≠ "") by (subst word; by destruct f).
  assert (Hsp : has_space word = false).
  { subst word. by rewrite !has_space_app, Hsf, Hsv. }
  assert (Hq : Py.contains_char quote_char word = false).
  { subst word. by rewrite !contains_char_append, Hqf, Hqv. }
  assert (Hcolon : Py.contains_char ":" word = true).
  { subst word. rewrite !contains_char_append. cbn. by rewrite orb_true_r. }
  pose proof (length_nonempty word Hword) as Hl.
  destruct (String.length word) as [|n] eqn:Hn; [lia|].
  unfold bind at 1.
  rewrite (parse_query_loop_word n word word); [|lia|by apply nextword_match_word|done].
  cbv zeta. rewrite Hcolon. subst word. rewrite split_colon_append by done.
  cbn [fst snd]. destruct (decide (f ∈ fields s)); cbn [fst snd].
  - rewrite bool_decide_true by done. rewrite bool_decide_true by congruence.
    cbn [andb default from_option id]. rewrite parse_query_loop_past_end by lia. done.
  - rewrite bool_decide_false by (by intros Hx; apply Hx). cbn [andb].
    unfold bind. destruct (_query_parse _ _ _ _) as [[q|e] s']; [|done].
    rewrite parse_query_loop_past_end by lia. done.
Qed.

Lemma nextword_match_at pre w tail :
  w ≠ "" → has_space w = false →
  (tail = "" ∨ ∃ c rest, tail = String c rest ∧ Ascii.is_space c = true) →
  nextword_match (pre +:+ w +:+ tail) (String.length pre) = Some w.
Proof.
  intros Hne Hsp Htail. unfold nextword_match. rewrite drop_append.
  destruct Htail as [->|(c & rest & -> & Hc)].
  - rewrite append_nil_r, nonspace_run_word by done. by rewrite decide_False.
  - rewrite nonspace_run_prefix by done. by rewrite decide_False.
Qed.

Lemma with_trace_app s t1 t2 :
  with_trace (trace (with_trace (trace s ++ t1) s) ++ t2) (with_trace (trace s ++ t1) s)
  = with_trace (trace s ++ t1 ++ t2) s.
Proof. destruct s. cbn. by rewrite <- app_assoc. Qed.

(** One turn of the loop on a plain word that the parser accepts. *)
Lemma parse_query_loop_plain fuel pre w tail flags queries s :
  plain_word w →
  (tail = "" ∨ ∃ c rest, tail = String c rest ∧ Ascii.is_space c = true) →
  qp_accepts OP_AND w (word_flags flags w) = true →
  parse_query_loop (S fuel) (pre +:+ w +:+ tail) (String.length pre) flags queries s =
    parse_query_loop fuel (pre +:+ w +:+ tail) (String.length pre + String.length w + 1)
      (word_flags flags w) (queries ++ [QParsed OP_AND w (word_flags flags w)])
      (with_trace (trace s ++ [EvParse w (word_flags flags w)]) s).
Proof.
  intros (Hne & Hsp & Hcolon & Hq) Htail Hacc.
  rewrite (parse_query_loop_word_at fuel _ _ w); [| |by apply nextword_match_at|done].
  - cbv zeta. rewrite Hcolon. cbn [fst snd].
    rewrite bool_decide_false by (by intros Hx; apply Hx). cbn [andb].
    by rewrite (bind_Ok _ _ _ _ _ (_query_parse_accepted w _ None s Hacc)).
  - rewrite !length_append. pose proof (length_nonempty w Hne). lia.
Qed.

Lemma parse_query_loop_words ws pre fuel flags queries s :
  Forall plain_word ws →
  (∀ w fl, w ∈ ws → qp_accepts OP_AND w fl = true) →
  String.length (pre +:+ join_words ws) ≤ String.length pre + fuel →
  parse_query_loop fuel (pre +:+ join_words ws) (String.length pre) flags queries s =
    (Ok (queries ++ word_queries flags ws),
     with_trace (trace s ++ word_events flags ws) s).
Proof.
  intros Hws. revert pre fuel flags queries s.
  induction Hws as [|w ws Hw Hws IH]; intros pre fuel flags queries s Hacc Hfuel.
  - cbn [join_words word_queries word_events]. rewrite !app_nil_r.
    rewrite parse_query_loop_past_end by (rewrite length_append; cbn; lia).
    by destruct s.
  - pose proof (length_nonempty w (proj1 Hw)) as Hlw.
    assert (Haccw : qp_accepts OP_AND w (word_flags flags w) = true).
    { apply Hacc. by left. }
    destruct ws as [|w' ws'].
    + cbn [join_words word_queries word_events] in *.
      rewrite length_append in Hfuel. destruct fuel as [|fuel]; [lia|].
      replace (pre +:+ w) with (pre +:+ w +:+ "") by (by rewrite append_nil_r).
      rewrite (parse_query_loop_plain fuel pre w "") by auto.
      rewrite parse_query_loop_past_end; [done|].
      rewrite !length_append. cbn. lia.
    + change (join_words (w :: w' :: ws'))
        with (w +:+ String " " (join_words (w' :: ws'))) in *.
      rewrite !length_append in Hfuel. cbn [String.length] in Hfuel.
      destruct fuel as [|fuel]; [lia|].
      rewrite (parse_query_loop_plain fuel pre w) by eauto.
      assert (Hpre : String.length pre + String.length w + 1
                     = String.length (pre +:+ w +:+ " ")).
      { rewrite !length_append. cbn. lia. }
      assert (Hquery : pre +:+ w +:+ String " " (join_words (w' :: ws'))
                       = (pre +:+ w +:+ " ") +:+ join_words (w' :: ws')).
      { by rewrite !append_assoc. }
      rewrite Hpre, Hquery. rewrite IH.
      * cbn [word_queries word_events]. rewrite <- app_assoc. cbn [app].
        by rewrite with_trace_app.
      * intros w0 fl Hin. apply Hacc. by right.
      * rewrite <- Hquery, <- Hpre, !length_append. cbn [String.length]. lia.
Qed.

Lemma word_queries_sticky flags ws j q :
  Z.testbit flags 4 = true →
  word_queries flags ws !! j = Some q →
  ∃ w fl, q = QParsed OP_AND w fl ∧ Z.testbit fl 4 = true.
Proof.
  revert flags j. induction ws as [|w ws IH]; intros flags j Hfl Hq; [done|].
  assert (Hfl' : Z.testbit (word_flags flags w) 4 = true).
  { unfold word_flags. destruct (Py.endswith _ _); [|done].
    by rewrite Z.lor_spec, Hfl. }
  destruct j as [|j]; cbn in Hq.
  - injection Hq as <-. eauto.
  - eapply IH; [exact Hfl'|exact Hq].
Qed.

(** X23. A text made of plain words separated by single spaces, each
    accepted by the parser: [parse_query] yields the conjunction of one
    parsed query per word, in order, and calls the parser once per word.
    The flags run from word to word and are never reset: from the first
    word that ends with a star on, every word is parsed with the wildcard
    flag, whether it has a star or not. *)
Theorem parse_query_plain_words (ws : list string) (s : manager) :
  Forall plain_word ws →
  (∀ w fl, w ∈ ws → qp_accepts OP_AND w fl = true) →
  parse_query (Py.VStr (join_words ws)) s =
    (Ok (QComposite OP_AND (word_queries FLAG_LOVEHATE ws)),
     with_trace (trace s ++ word_events FLAG_LOVEHATE ws) s)
  ∧ length (word_queries FLAG_LOVEHATE ws) = length ws
  ∧ (∀ i j wi q,
       i ≤ j → ws !! i = Some wi → Py.endswith "*" wi = true →
       word_queries FLAG_LOVEHATE ws !! j = Some q →
       ∃ wj fl, q = QParsed OP_AND wj fl ∧ Z.testbit fl 4 = true).
Proof.
  intros Hws Hacc. split; [|split].
  - unfold parse_query.
    rewrite (bind_Ok _ _ _ _ _
               (parse_query_loop_words ws "" _ FLAG_LOVEHATE [] s Hws Hacc
                  (Nat.le_refl _))).
    reflexivity.
  - generalize FLAG_LOVEHATE. induction ws as [|w ws IH]; intros fl; [done|].
    cbn. f_equal. apply IH; [by inversion Hws|]. intros w0 fl0 Hin. apply Hacc. by right.
  - clear Hws Hacc. generalize FLAG_LOVEHATE.
    induction ws as [|w ws IH]; intros flags i j wi q Hij Hi Hstar Hq; [done|].
    destruct i as [|i].
    + cbn in Hi. injection Hi as ->.
      assert (Hfl : Z.testbit (word_flags flags wi) 4 = true).
      { unfold word_flags. rewrite Hstar. rewrite Z.lor_spec. cbn. apply orb_true_r. }
      destruct j as [|j]; cbn in Hq.
      * injection Hq as <-. eauto.
      * eapply word_queries_sticky; [exact Hfl|exact Hq].
    + destruct j as [|j]; [lia|]. cbn in Hi, Hq.
      eapply (IH (word_flags flags w) i j); [lia|exact Hi|exact Hstar|exact Hq].
Qed.

Lemma find_quote_first body rest pos :
  Py.contains_char quote_char body = false →
  find_quote (body +:+ String quote_char rest) pos = Some (pos + String.length body + 1).
Proof.
  revert pos. induction body as [|c body IH]; intros pos Hq.
  - change ("" +:+ String quote_char rest) with (String quote_char rest).
    cbn [find_quote String.length]. rewrite decide_True by done. f_equal. lia.
  - cbn [Py.contains_char] in Hq. apply orb_false_iff in Hq as [Hc Hq].
    apply bool_decide_eq_false in Hc.
    change (String c body +:+ String quote_char rest)
      with (String c (body +:+ String quote_char rest)).
    cbn [find_quote String.length]. rewrite decide_False by done.
    rewrite IH by done. f_equal. lia.
Qed.

Lemma take_length (s : string) : Py.take (String.length s) s = s.
Proof. induction s as [|c s IH]; [done|]. cbn. by rewrite IH. Qed.

Lemma endswith_star_quote (s : string) :
  Py.endswith "*" (s +:+ String quote_char "") = false.
Proof.
  unfold Py.endswith. apply andb_false_iff. left. apply bool_decide_eq_false.
  rewrite length_append. cbn [String.length].
  replace (String.length s + 1 - 1) with (String.length s) by lia.
  rewrite drop_append. discriminate.
Qed.

(** X28. A quoted phrase of several words: when the text is a double
    quote, a first word, whitespace, a body without double quote and a
    closing double quote, [parse_query] hands the parser the whole text,
    quotes included, once, with the phrase flag added to the flags, and
    yields the conjunction of that one query.  The first word is taken
    without whitespace, colon and double quote. *)
Theorem parse_query_phrase (w body : string) (c : ascii) (s : manager) :
  let q := String quote_char "" in
  let text := (q +:+ w +:+ String c body) +:+ q in
  has_space w = false → Py.contains_char ":" w = false →
  Py.contains_char quote_char w = false → Py.contains_char quote_char body = false →
  Ascii.is_space c = true →
  parse_query (Py.VStr text) s =
    (p <- _query_parse text (Z.lor FLAG_LOVEHATE FLAG_PHRASE) None ;;
     ret (QComposite OP_AND [p])) s.
Proof.
  intros q text Hsp Hcolon Hqw Hqb Hc. unfold parse_query.
  set (word := q +:+ w).
  assert (Htext : text = word +:+ String c (body +:+ q)).
  { subst text word q. cbn. by rewrite !append_assoc. }
  assert (Hlen : String.length text = String.length word + 1 + String.length body + 1).
  { rewrite Htext, !length_append. cbn [String.length]. rewrite length_append. cbn. lia. }
  assert (Hnext : nextword_match text 0 = Some word).
  { rewrite Htext. apply nextword_match_prefix; [by subst word q| |done].
    subst word q. rewrite has_space_app, Hsp. reflexivity. }
  destruct (String.length text) as [|n] eqn:Hn; [lia|].
  unfold bind at 1. cbn [parse_query_loop]. rewrite decide_True by lia.
  rewrite Hnext, bind_gets. cbv zeta.
  assert (Hcw : Py.contains_char ":" word = false).
  { subst word q. rewrite contains_char_append, Hcolon. reflexivity. }
  rewrite Hcw. cbn [fst snd].
  assert (Hstart : Py.startswith (String quote_char "") word = true) by done.
  rewrite Hstart.
  assert (Hsearch : endquote_search text (0 + String.length word + 1)
                    = Some (S n)).
  { unfold endquote_search. rewrite decide_True by lia.
    replace (0 + String.length word + 1) with (String.length (word +:+ String c ""))
      by (rewrite length_append; cbn; lia).
    rewrite Htext at 1.
    change (String c (body +:+ q)) with (String c "" +:+ (body +:+ q)).
    rewrite <- append_assoc, drop_append. subst q.
    rewrite find_quote_first by done. f_equal. rewrite length_append. cbn. lia. }
  rewrite Hsearch. cbn [fst snd].
  change (Py.drop 0 text) with text.
  replace (S n - 0) with (String.length text) by lia. rewrite take_length.
  cbn [bool_decide andb]. rewrite bool_decide_false by (by intros Hx; apply Hx).
  cbn [andb].
  assert (Hstar : Py.endswith "*" text = false) by apply endswith_star_quote.
  rewrite Hstar. unfold bind.
  destruct (_query_parse _ _ _ _) as [[p|e] s']; [|done].
  rewrite parse_query_loop_past_end by lia. done.
Qed.

End TextualWords.

(** ** The queue, from producer to worker *)

Section ProducerToWorker.
Context `{Collaborators}.

(** X24. An operation that is none of CREATE, UPDATE and DELETE goes
    through the whole pipeline without touching the index: [enque] writes
    nothing, does not flush, and queues the item as it is; the pass of the
    worker that takes it logs one warning inside the lock and marks the
    task done. *)
Theorem unknown_operation_end_to_end (uid : string) (vid : option string)
    (doc : option document) (op : Z) (fs : filestuff) (v i : bool) (s : manager) :
  op ≠ CREATE → op ≠ UPDATE → op ≠ DELETE →
  queue s = [] →
  let it := Item uid vid doc op fs in
  let s1 := (enque uid vid doc op fs s).2 in
  let s2 := (indexThread_pass v i s1).2 in
  (enque uid vid doc op fs s).1 = Ok ()
  ∧ queue s1 = [QOne it]
  ∧ trace s1 = trace s ++ [EvPut (QOne it)]
  ∧ (indexThread_pass v i s1).1 = Ok ()
  ∧ queue s2 = []
  ∧ unfinished_tasks s2 = unfinished_tasks s
  ∧ trace s2 = trace s1 ++ [EvGet (QOne it); EvAcquire;
                            EvLog WARNING ("Unknown indexer operation ( " +:+ uid +:+ ": "
                                           +:+ pretty op +:+ ")");
                            EvTaskDone; EvRelease]
  ∧ write_index s2 = write_index s ∧ disk s2 = disk s ∧ read_index s2 = read_index s.
Proof.
  intros Hc Hu Hd Hq it s1 s2. subst s2 s1.
  rewrite (enque_other _ _ _ _ _ _ Hc Hu Hd). fold it.
  set (s1 := (queue_put (QOne it) s).2).
  assert (Hq1 : queue s1 = [QOne it]).
  { subst s1. cbn. by rewrite Hq. }
  rewrite (indexThread_pass_run v i (QOne it) [] [it] s1 Hq1 eq_refl).
  cbn [for_each].
  rewrite (bind_Ok _ _ _ _ _ (process_item_unknown v i it _ Hd Hu)). unfold ret.
  subst s1. destruct s. cbn in Hq. subst. cbn.
  rewrite <- !app_assoc. by repeat split.
Qed.

(** X25. The worker takes the queue in order, one element for each pass:
    while it runs, and as long as no empty sequence is queued, [n] passes
    return normally and leave the queue without its first [n] elements,
    whatever the items do; the worker is still running afterwards. *)
Theorem worker_takes_in_order (n : nat) (v i : bool) (s : manager) :
  indexer_running s = true →
  Forall (λ d, d ≠ QSeq []) (queue s) →
  ∃ s', indexThread_loop n v i s = (Ok false, s')
        ∧ queue s' = drop n (queue s)
        ∧ indexer_running s' = true.
Proof.
  revert s. induction n as [|n IH]; intros s Hrun Hall.
  - exists s. cbn [indexThread_loop]. rewrite bind_gets, Hrun. by rewrite drop_0.
  - cbn [indexThread_loop]. rewrite bind_gets, Hrun.
    destruct (queue s) as [|d q'] eqn:Hq.
    + assert (Hpass : indexThread_pass v i s = (Ok (), s)).
      { unfold indexThread_pass, dequeue, bind, gets. by rewrite Hq. }
      rewrite (bind_Ok _ _ _ _ _ Hpass).
      destruct (IH s Hrun) as (s' & Hloop & Hq' & Hrun'); [by rewrite Hq|].
      exists s'. rewrite Hloop, Hq', Hq. by rewrite drop_nil.
    + apply Forall_cons in Hall as [Hd Hall].
      assert (∃ data, as_batch d = Ok data) as [data Hdata].
      { destruct d as [it|[|it its]]; [by eexists|done|by eexists]. }
      destruct (indexThread_pass_batch v i d q' data s Hq Hdata)
        as (s1 & Hpass & Hq1 & Hrun1 & _).
      rewrite (bind_Ok _ _ _ _ _ Hpass).
      destruct (IH s1) as (s' & Hloop & Hq' & Hrun'); [congruence|by rewrite Hq1|].
      exists s'. rewrite Hloop, Hq', Hq1. done.
Qed.

End ProducerToWorker.

(** ** The discipline of the write lock *)

Lemma lock_app h t1 t2 :
  writes_locked h (t1 ++ t2) = writes_locked h t1 && writes_locked (lock_after h t1) t2
  ∧ lock_after h (t1 ++ t2) = lock_after (lock_after h t1) t2.
Proof.
  revert h. induction t1 as [|e t1 IH]; intros h; [done|].
  pose proof (IH h) as [Hh1 Hh2]. pose proof (IH true) as [Ht1 Ht2].
  pose proof (IH false) as [Hf1 Hf2].
  destruct e; cbn; rewrite ?Hh1, ?Hh2, ?Ht1, ?Ht2, ?Hf1, ?Hf2, ?andb_assoc; done.
Qed.

Lemma inside_lock t :
  Forall (λ e, is_lock_event e = false) t →
  writes_locked true t = true ∧ lock_after true t = true.
Proof.
  induction 1 as [|e t He _ [IHw IHl]]; [done|].
  destruct e; try discriminate He; cbn; rewrite ?orb_true_r; done.
Qed.

#[local] Instance grows_inside_lock_refl : Reflexive grows_inside_lock.
Proof. intros s. exists []. by rewrite app_nil_r. Qed.

#[local] Instance grows_inside_lock_trans : Transitive grows_inside_lock.
Proof.
  intros s1 s2 s3 (t1 & Ht1 & Hq1) (t2 & Ht2 & Hq2). exists (t1 ++ t2).
  split; [by rewrite Ht2, Ht1, app_assoc|]. by apply Forall_app.
Qed.

#[local] Instance lock_disciplined_refl : Reflexive lock_disciplined.
Proof. intros s. exists []. by rewrite app_nil_r. Qed.

#[local] Instance lock_disciplined_trans : Transitive lock_disciplined.
Proof.
  intros s1 s2 s3 (t1 & Ht1 & Hw1 & Hl1) (t2 & Ht2 & Hw2 & Hl2). exists (t1 ++ t2).
  split; [by rewrite Ht2, Ht1, app_assoc|].
  destruct (lock_app false t1 t2) as [-> ->]. by rewrite Hw1, Hl1, Hw2, Hl2.
Qed.

Lemma emit_inside e :
  is_lock_event e = false → preserves grows_inside_lock (emit e).
Proof.
  intros He. apply preserves_modify. intros s. exists [e]. split; [done|].
  by apply Forall_singleton.
Qed.

Lemma modify_inside f :
  (∀ s, trace (f s) = trace s) → preserves grows_inside_lock (modify f).
Proof.
  intros Hf. apply preserves_modify. intros s. exists []. by rewrite app_nil_r, Hf.
Qed.

Lemma emit_disciplined e :
  is_lock_event e = false → is_write e = false →
  preserves lock_disciplined (emit e).
Proof.
  intros He Hw. apply preserves_modify. intros s. exists [e]. split; [done|].
  destruct e; try discriminate He; try discriminate Hw; done.
Qed.

Lemma modify_disciplined f :
  (∀ s, trace (f s) = trace s) → preserves lock_disciplined (modify f).
Proof.
  intros Hf. apply preserves_modify. intros s. exists []. by rewrite app_nil_r, Hf.
Qed.

Lemma with_write_lock_disciplined {A} (m : M A) :
  preserves grows_inside_lock m → preserves lock_disciplined (with_write_lock m).
Proof.
  intros Hm s r s'. unfold with_write_lock, bind, emit, modify.
  destruct (m _) as [r1 s1] eqn:Hms. intros Heq.
  assert (r = r1 ∧ s' = with_trace (trace s1 ++ [EvRelease]) s1) as [-> ->].
  { by destruct r1; simplify_eq. }
  destruct (Hm _ _ _ Hms) as (t & Ht & Hin).
  exists ([EvAcquire] ++ t ++ [EvRelease]). split.
  - cbn [trace with_trace] in *. rewrite Ht. by rewrite <- !app_assoc.
  - cbn [app writes_locked lock_after].
    destruct (lock_app true t [EvRelease]) as [-> ->].
    by destruct (inside_lock t Hin) as [-> ->].
Qed.

(** The steps of a computation run while the lock is held. *)
Ltac inside :=
  repeat first
    [ apply preserves_ret; apply _
    | apply preserves_raise; apply _
    | apply preserves_lift; apply _
    | apply preserves_gets; apply _
    | apply emit_inside; reflexivity
    | apply modify_inside; intros ?; reflexivity
    | apply preserves_bind; [apply _| |intros ?]
    | apply preserves_for_each; [apply _..|intros ?]
    | match goal with
      | |- preserves _ (match ?x with _ => _ end) => destruct x
      end ].

(** The steps of a method that takes the lock for its engine mutations. *)
Ltac disciplined :=
  repeat first
    [ apply preserves_ret; apply _
    | apply preserves_raise; apply _
    | apply preserves_lift; apply _
    | apply preserves_gets; apply _
    | apply with_write_lock_disciplined; inside
    | apply emit_disciplined; reflexivity
    | apply modify_disciplined; intros ?; reflexivity
    | apply preserves_bind; [apply _| |intros ?]
    | apply preserves_for_each; [apply _..|intros ?]
    | apply preserves_try_except; [apply _| |intros ?]
    | match goal with
      | |- preserves _ (match ?x with _ => _ end) => destruct x
      end ].

Lemma flush_disciplined : preserves lock_disciplined flush.
Proof. unfold flush, write_index_flush, read_index_reopen. disciplined. Qed.

Lemma enque_disciplined uid vid doc op fs :
  preserves lock_disciplined (enque uid vid doc op fs).
Proof.
  unfold enque, flush, write_index_add, write_index_replace, write_index_delete,
    write_index_flush, read_index_reopen, no_document, log, queue_put.
  disciplined.
Qed.

Section LockDiscipline.
Context `{Collaborators}.

Lemma tag_disciplined uid tags rev : preserves lock_disciplined (tag uid tags rev).
Proof.
  unfold tag, get_by_uid_prop, backingstore_tip, _search, read_index_search,
    write_index_replace_document.
  disciplined.
Qed.

Lemma map_properties_disciplined props acc :
  preserves lock_disciplined (map_properties props acc).
Proof.
  revert acc. induction props as [|kv props IH]; intros acc; cbn [map_properties].
  - disciplined.
  - apply preserves_bind; [apply _| |intros ?; apply IH].
    unfold map_property. disciplined.
Qed.

Lemma index_fields_disciplined props doc :
  preserves lock_disciplined (index_fields props doc).
Proof.
  revert doc. induction props as [|[k p] props IH]; intros doc; cbn [index_fields].
  - disciplined.
  - apply preserves_bind; [apply _|apply preserves_gets; apply _|]. intros known.
    destruct (negb _); [|apply IH].
    apply preserves_bind; [apply _| |intros ?; apply IH].
    unfold warn. disciplined.
Qed.

Lemma index_disciplined props filename :
  preserves lock_disciplined (index props filename).
Proof.
  unfold index.
  apply preserves_bind; [apply _| |intros uo].
  { unfold create_uid. disciplined. }
  apply preserves_bind; [apply _|apply preserves_gets; apply _|]. intros v.
  apply preserves_bind; [apply _| |intros vi].
  { unfold create_uid, log. disciplined. }
  apply preserves_bind; [apply _| |intros props0].
  { unfold _mapProperties.
    apply preserves_bind; [apply _|apply map_properties_disciplined|]. intros r.
    unfold datamodel_apply, addField. disciplined. }
  apply preserves_bind; [apply _|apply index_fields_disciplined|]. intros doc.
  apply preserves_bind; [apply _|apply enque_disciplined|]. intros _.
  apply preserves_ret; apply _.
Qed.

Lemma indexThread_pass_disciplined v i :
  preserves lock_disciplined (indexThread_pass v i).
Proof.
  unfold indexThread_pass, dequeue, apply_batch, queue_task_done, log.
  apply preserves_bind; [apply _| |intros data].
  { disciplined. }
  destruct data as [data|]; [|apply preserves_ret; apply _].
  apply preserves_try_except; [apply _| |intros e; disciplined].
  apply with_write_lock_disciplined.
  apply preserves_bind; [apply _| |intros ?; inside].
  apply preserves_for_each; [apply _..|]. intros it.
  unfold process_item, write_index_delete, write_index_replace, unpack_filestuff,
    os_unlink, no_document, log.
  inside.
Qed.

Lemma indexThread_loop_disciplined n v i :
  preserves lock_disciplined (indexThread_loop n v i).
Proof.
  induction n as [|n IH]; cbn [indexThread_loop].
  - disciplined.
  - apply preserves_bind; [apply _|apply preserves_gets; apply _|].
    intros [|]; [|apply preserves_ret; apply _].
    apply preserves_bind; [apply _|apply indexThread_pass_disciplined|].
    intros _. apply IH.
Qed.

Lemma addField_trace key store exact sortable type collapse s :
  ∃ t1 t2 action,
    trace (addField key store exact sortable type collapse s).2
    = trace s ++ t1 ++ EvFieldAction key action :: t2
    ∧ Forall (λ e, is_lock_event e = false) (t1 ++ EvFieldAction key action :: t2).
Proof.
  unfold addField. destruct s, store, exact, sortable, collapse; run_monad.
  all: rewrite <- ?app_assoc; cbn [app].
  all: first
    [ by eexists [], _, _; split; [reflexivity|repeat constructor]
    | by eexists [_], _, _; split; [reflexivity|repeat constructor] ].
Qed.

(** X27. Every method that changes the index takes the write lock for it:
    whatever [enque], [index], [tag], [delete], [flush] and any number of
    passes of the worker do and return, each engine mutation they make
    lies between an acquire and a release of the lock, and the lock is
    free when they end, also when they end with an exception.  [addField]
    alone does not take the lock: its field actions are outside it unless
    its caller holds it. *)
Theorem mutations_take_the_lock :
  (∀ uid vid doc op fs, preserves lock_disciplined (enque uid vid doc op fs))
  ∧ (∀ props filename, preserves lock_disciplined (index props filename))
  ∧ (∀ uid tags rev, preserves lock_disciplined (tag uid tags rev))
  ∧ (∀ uid, preserves lock_disciplined (delete uid))
  ∧ preserves lock_disciplined flush
  ∧ (∀ n v i, preserves lock_disciplined (indexThread_loop n v i))
  ∧ (∀ key store exact sortable type collapse s,
       ¬ lock_disciplined s (addField key store exact sortable type collapse s).2).
Proof.
  split; [intros; apply enque_disciplined|].
  split; [intros; apply index_disciplined|].
  split; [intros; apply tag_disciplined|].
  split; [intros; apply enque_disciplined|].
  split; [apply flush_disciplined|].
  split; [intros; apply indexThread_loop_disciplined|].
  intros key store exact sortable type collapse s (t & Ht & Hw & _).
  destruct (addField_trace key store exact sortable type collapse s)
    as (t1 & t2 & action & Ht' & Hin).
  rewrite Ht' in Ht. apply app_inv_head in Ht. subst t.
  assert (Hfree : ∀ t, Forall (λ e, is_lock_event e = false) t →
                       lock_after false t = false).
  { induction 1 as [|e t0 He _ IH]; [done|]. by destruct e. }
  apply Forall_app in Hin as [Hin1 Hin2].
  destruct (lock_app false t1 (EvFieldAction key action :: t2)) as [Heq _].
  rewrite Heq, (Hfree t1 Hin1) in Hw. cbn in Hw. by rewrite andb_false_r in Hw.
Qed.

End LockDiscipline.

(** ** What no method undoes *)

#[local] Instance steady_refl : Reflexive steady.
Proof. intros s. by split. Qed.

#[local] Instance steady_trans : Transitive steady.
Proof.
  intros s1 s2 s3 [Hs12 Hf12] [Hs23 Hf23]. split; [auto|]. by etransitivity.
Qed.

Lemma flush_steady : preserves steady flush.
Proof. intros s r s' Hrun. rewrite flush_eq in Hrun. simplify_eq. by split. Qed.

Lemma modify_steady f :
  (∀ s, disk (f s) = disk s) → (∀ s, read_index (f s) = read_index s) →
  (∀ s, fields s ⊆ fields (f s)) →
  preserves steady (modify f).
Proof.
  intros Hd Hr Hf. apply preserves_modify. intros s. split; [|apply Hf].
  by rewrite Hd, Hr.
Qed.

(** The steps of a method that keeps the steady state. *)
Ltac steadily :=
  repeat first
    [ apply preserves_ret; apply _
    | apply preserves_raise; apply _
    | apply preserves_lift; apply _
    | apply preserves_gets; apply _
    | apply flush_steady
    | apply modify_steady; intros ?; [reflexivity|reflexivity|cbn; set_solver]
    | apply preserves_bind; [apply _| |intros ?]
    | apply preserves_for_each; [apply _..|intros ?]
    | apply preserves_with_write_lock; [apply _|intros ?; by split..|]
    | apply preserves_try_except; [apply _| |intros ?]
    | match goal with
      | |- preserves _ (match ?x with _ => _ end) => destruct x
      end ].

Lemma enque_steady uid vid doc op fs : preserves steady (enque uid vid doc op fs).
Proof.
  unfold enque, write_index_add, write_index_replace, write_index_delete,
    no_document, log, queue_put, emit.
  steadily.
Qed.

Lemma addField_steady key store exact sortable type collapse :
  preserves steady (addField key store exact sortable type collapse).
Proof. unfold addField, emit. steadily. Qed.

Section Steady.
Context `{Collaborators}.

Lemma tag_steady uid tags rev : preserves steady (tag uid tags rev).
Proof.
  unfold tag, get_by_uid_prop, backingstore_tip, _search, read_index_search,
    write_index_replace_document, emit.
  steadily.
Qed.

Lemma map_properties_steady props acc : preserves steady (map_properties props acc).
Proof.
  revert acc. induction props as [|kv props IH]; intros acc; cbn [map_properties].
  - steadily.
  - apply preserves_bind; [apply _| |intros ?; apply IH].
    unfold map_property. steadily.
Qed.

Lemma index_fields_steady props doc : preserves steady (index_fields props doc).
Proof.
  revert doc. induction props as [|[k p] props IH]; intros doc; cbn [index_fields].
  - steadily.
  - apply preserves_bind; [apply _|apply preserves_gets; apply _|]. intros known.
    destruct (negb _); [|apply IH].
    apply preserves_bind; [apply _| |intros ?; apply IH].
    unfold warn, emit. steadily.
Qed.

Lemma index_steady props filename : preserves steady (index props filename).
Proof.
  unfold index.
  apply preserves_bind; [apply _| |intros uo].
  { unfold create_uid. steadily. }
  apply preserves_bind; [apply _|apply preserves_gets; apply _|]. intros v.
  apply preserves_bind; [apply _| |intros vi].
  { unfold create_uid, log, emit. steadily. }
  apply preserves_bind; [apply _| |intros props0].
  { unfold _mapProperties.
    apply preserves_bind; [apply _|apply map_properties_steady|]. intros r.
    unfold datamodel_apply, addField, emit. steadily. }
  apply preserves_bind; [apply _|apply index_fields_steady|]. intros doc.
  apply preserves_bind; [apply _|apply enque_steady|]. intros _.
  apply preserves_ret; apply _.
Qed.

Lemma indexThread_loop_steady n v i : preserves steady (indexThread_loop n v i).
Proof.
  induction n as [|n IH]; cbn [indexThread_loop].
  - steadily.
  - apply preserves_bind; [apply _|apply preserves_gets; apply _|].
    intros [|]; [|apply preserves_ret; apply _].
    apply preserves_bind; [apply _| |intros _; apply IH].
    unfold indexThread_pass, dequeue, apply_batch, queue_task_done, log.
    apply preserves_bind; [apply _| |intros data].
    { unfold emit. steadily. }
    destruct data as [data|]; [|apply preserves_ret; apply _].
    apply preserves_try_except; [apply _| |intros e; unfold emit; steadily].
    apply preserves_with_write_lock; [apply _|intros ?; by split..|].
    apply preserves_bind; [apply _| |intros ?; unfold emit; steadily].
    apply preserves_for_each; [apply _..|]. intros it.
    unfold process_item, write_index_delete, write_index_replace, unpack_filestuff,
      os_unlink, no_document, log, emit.
    steadily.
Qed.

(** X26. Two things no method undoes.  A read snapshot that shows the
    committed index still shows it after [enque], [index], [tag],
    [delete], [flush], [addField] and any number of passes of the worker:
    the index is never committed without the read connection being
    reopened.  And the set of registered fields only grows.  Both hold
    whatever the method returns. *)
Theorem snapshot_and_fields_kept :
  (∀ uid vid doc op fs, preserves steady (enque uid vid doc op fs))
  ∧ (∀ props filename, preserves steady (index props filename))
  ∧ (∀ uid tags rev, preserves steady (tag uid tags rev))
  ∧ (∀ uid, preserves steady (delete uid))
  ∧ preserves steady flush
  ∧ (∀ key store exact sortable type collapse,
       preserves steady (addField key store exact sortable type collapse))
  ∧ (∀ n v i, preserves steady (indexThread_loop n v i)).
Proof.
  split; [intros; apply enque_steady|].
  split; [intros; apply index_steady|].
  split; [intros; apply tag_steady|].
  split; [intros; apply enque_steady|].
  split; [apply flush_steady|].
  split; [intros; apply addField_steady|].
  intros; apply indexThread_loop_steady.
Qed.

End Steady.

(** ** The dictionary of a structured query *)

Lemma get_remove_eq {V} (k : string) (d : list (string * V)) :
  Py.get k (Py.remove k d) = None.
Proof.
  induction d as [|[k0 v0] d IH]; [done|]. cbn.
  destruct (decide (k0 = k)); [done|]. cbn. by rewrite decide_False.
Qed.

Lemma get_fmap_snd {V} (f : V → V) (k : string) (d : list (string * V)) :
  Py.get k ((λ kv, (kv.1, f kv.2)) <$> d) = f <$> Py.get k d.
Proof.
  induction d as [|[k0 v0] d IH]; [done|]. cbn. by destruct (decide (k0 = k)).
Qed.

Section PoppingProperties.
Context `{Collaborators}.

Lemma clause_popping_eq k v s :
  clause k v s = without_dict (clause_popping k v s)
  ∧ ∀ c v' s', clause_popping k v s = (Ok (c, v'), s') → v' = popped v.
Proof.
  destruct v as [| | | |dv|]; try (split; [reflexivity|by intros ? ? ? [= <- <- <-]]).
  unfold clause, clause_popping, bind, lift, ret, without_dict. cbn [fst snd].
  destruct (parse_timestamp_or_float _) as [lo|e]; [|split; [done|by intros]].
  destruct (parse_timestamp_or_float _) as [hi|e]; [|split; [done|by intros]].
  split; [done|]. by intros ? ? ? [= <- <- <-].
Qed.

Lemma clauses_popping_eq query queries seen s :
  clauses query queries s = without_dict (clauses_popping query queries seen s)
  ∧ ∀ qs d' s', clauses_popping query queries seen s = (Ok (qs, d'), s') →
      d' = seen ++ ((λ kv, (kv.1, popped kv.2)) <$> query).
Proof.
  revert queries seen s. induction query as [|[k v] query IH]; intros queries seen s.
  - split; [done|]. intros ? ? ? [= <- <- <-]. by rewrite app_nil_r.
  - cbn [clauses clauses_popping]. unfold bind.
    destruct (clause_popping_eq k v s) as [-> Hv].
    destruct (clause_popping k v s) as [[[c v']|e] s1]; cbn [without_dict fst snd].
    + rewrite (Hv c v' s1 eq_refl).
      destruct (IH (queries ++ [c]) (seen ++ [(k, popped v)]) s1) as [-> Hd].
      split; [done|]. intros qs d' s' Hrun. rewrite (Hd _ _ _ Hrun).
      by rewrite <- app_assoc.
    + split; [done|by intros].
Qed.

(** X29. [search] consumes the dictionary it is given.  For a dictionary
    that is not empty the call builds the query of [search_query], and
    when it returns it has removed the key ['query'] from the caller's
    dictionary and the keys ['start'] and ['end'] from every mapping in
    it; the other items are left as they were.  A later [search] with the
    same object therefore has no text clause, and each of its ranges runs
    from the default lower bound to the default upper bound. *)
Theorem search_consumes_its_dictionary (d : list (string * Py.value)) (s : manager) :
  d ≠ [] →
  search_query (Py.VDict d) s = without_dict (search_query_popping d s)
  ∧ ∀ q d' s', search_query_popping d s = (Ok (q, d'), s') →
      d' = (λ kv, (kv.1, popped kv.2)) <$> Py.remove "query" d
      ∧ Py.get "query" d' = None
      ∧ ∀ k v s2, (k, Py.VDict v) ∈ d' →
          Py.get "start" v = None ∧ Py.get "end" v = None
          ∧ clause k (Py.VDict v) s2 =
              (lo <- lift (parse_timestamp_or_float (Py.VInt 0)) ;;
               hi <- lift (parse_timestamp_or_float (Py.VInt Py.maxint)) ;;
               ret (QRange k lo hi)) s2.
Proof.
  intros Hd.
  assert (Htruthy : Py.truthy (Py.VDict d) = true) by (by destruct d).
  unfold search_query, search_query_popping. rewrite Htruthy. cbn [negb].
  set (first := if Py.truthy _ then _ else _).
  destruct (first s) as [[queries|e] s1] eqn:Hfirst.
  2:{ rewrite !(bind_Raise _ _ _ _ _ Hfirst). split; [done|by intros]. }
  rewrite !(bind_Ok _ _ _ _ _ Hfirst).
  cbv zeta. destruct (_ && _) eqn:Hempty.
  - split; [done|]. intros q d' s' [= <- <- <-].
    apply andb_true_iff in Hempty as [Hrest _].
    unfold Py.pop in *. cbn [fst snd] in *.
    destruct (Py.remove "query" d) as [|kv rest] eqn:Hrem; [|done].
    split; [done|]. split; [done|].
    intros k v s2 Hin. by apply elem_of_nil in Hin.
  - unfold Py.pop. cbn [fst snd]. unfold bind.
    destruct (clauses_popping_eq (Py.remove "query" d) queries [] s1) as [-> Hleft].
    destruct (clauses_popping _ _ _ s1) as [[[qs d0]|e] s2] eqn:Hrun;
      cbn [without_dict fst snd]; [|split; [done|by intros]].
    split; [done|]. intros q d' s' [= <- <- <-].
    rewrite (Hleft _ _ _ eq_refl). cbn [app]. split; [done|]. split.
    + by rewrite get_fmap_snd, get_remove_eq.
    + intros k v s3 Hin. apply list_elem_of_fmap in Hin as ([k0 v0] & Heq & _).
      cbn in Heq. injection Heq as -> Hv.
      destruct v0 as [| | | |dv|]; try discriminate Hv. cbn in Hv. injection Hv as ->.
      assert (Hs : Py.get "start" (Py.remove "end" (Py.remove "start" dv)) = None).
      { rewrite get_remove_ne by done. apply get_remove_eq. }
      assert (He : Py.get "end" (Py.remove "end" (Py.remove "start" dv)) = None).
      { apply get_remove_eq. }
      revert Hs He. generalize (Py.remove "end" (Py.remove "start" dv)).
      intros v Hs He. split; [done|]. split; [done|].
      unfold clause, Py.pop. cbn [fst snd].
      rewrite (get_remove_ne "end" "start") by done. by rewrite Hs, He.
Qed.

End PoppingProperties.

(** * Further instances on the concrete world *)

Section FurtherInstances.
Existing Instance Demo.demo.
Import Demo Sample.

Lemma worker_indexes_fulltext_witness :
  let r := process_item false false update_item s0 in
  converter (file_name notes) "text/plain" = Ok (Some notes_text)
  ∧ (false && negb false = true → file_name notes ∈ files s0)
  ∧ r.1 = Ok ()
  ∧ write_index r.2
    = <[doc_id doc1 := to_stored (with_fulltext doc1 notes_text)]> (write_index s0)
  ∧ doc_fields (with_fulltext doc1 notes_text)
    = doc_fields doc1 ++ ((λ c, ("fulltext", c)) <$> fulltext_chunks notes_text)
  ∧ foldr String.append "" (fulltext_chunks notes_text) = notes_text
  ∧ Forall (λ c, c ≠ "" ∧ String.length c ≤ 2048) (fulltext_chunks notes_text)
  ∧ files r.2 = files s0.
Proof.
  intros r.
  assert (Hconv : converter (file_name notes) "text/plain" = Ok (Some notes_text))
    by reflexivity.
  assert (Hfile : false && negb false = true → file_name notes ∈ files s0)
    by discriminate.
  split; [exact Hconv|]. split; [exact Hfile|].
  exact (worker_indexes_fulltext false false "u1" (Some "1") doc1 notes "text/plain"
           notes_text s0 Hconv Hfile).
Defined.

Lemma worker_replaces_before_unlink_witness :
  let r := process_item true false update_item s0 in
  converter (file_name notes) "text/plain" = Ok (Some notes_text)
  ∧ (file_name notes ∉ files s0)
  ∧ r.1 = Raise (OSError (file_name notes))
  ∧ write_index r.2
    = <[doc_id doc1 := to_stored (with_fulltext doc1 notes_text)]> (write_index s0)
  ∧ files r.2 = files s0.
Proof.
  intros r.
  assert (Hconv : converter (file_name notes) "text/plain" = Ok (Some notes_text))
    by reflexivity.
  assert (Hfile : file_name notes ∉ files s0) by apply not_elem_of_empty.
  split; [exact Hconv|]. split; [exact Hfile|].
  exact (worker_replaces_before_unlink "u1" (Some "1") doc1 notes "text/plain"
           notes_text s0 Hconv Hfile).
Defined.

Lemma worker_skips_unconverted_witness :
  let r1 := process_item false false picture_item s0 in
  let r2 := process_item false false broken_item s0 in
  converter "/a.png" "image/png" = Ok None
  ∧ (r1.1 = Ok () ∧ write_index r1.2 = write_index s0 ∧ files r1.2 = files s0)
  ∧ converter "/b.bin" "application/x-broken" = Raise (ExternalError "converter")
  ∧ (r2.1 = Raise (ExternalError "converter")
     ∧ write_index r2.2 = write_index s0 ∧ files r2.2 = files s0).
Proof.
  intros r1 r2.
  split; [reflexivity|]. split.
  - apply (proj1 (worker_skips_unconverted false false "u1" (Some "1") (Some doc1)
                    (PathRef "/a.png") "image/png" s0)).
    reflexivity.
  - split; [reflexivity|].
    apply (proj2 (worker_skips_unconverted false false "u1" (Some "1") (Some doc1)
                    (PathRef "/b.bin") "application/x-broken" s0)).
    reflexivity.
Defined.

Lemma worker_batch_in_one_lock_witness :
  queue s0_bad = [QOne bad_item]
  ∧ as_batch (QOne bad_item) = Ok [bad_item]
  ∧ ∃ t tail,
      trace (indexThread_pass false false s0_bad).2
      = trace s0_bad ++ [EvGet (QOne bad_item); EvAcquire] ++ t ++ tail
      ∧ Forall (λ e, is_protocol_event e = false) t
      ∧ (tail = [EvTaskDone; EvRelease]
         ∨ tail = [EvRelease; EvLog ERROR "Error in indexer"])
      ∧ writes_locked false ([EvGet (QOne bad_item); EvAcquire] ++ t ++ tail) = true
      ∧ lock_after false ([EvGet (QOne bad_item); EvAcquire] ++ t ++ tail) = false.
Proof.
  split; [reflexivity|]. split; [reflexivity|].
  apply (worker_batch_in_one_lock false false s0_bad (QOne bad_item) [] [bad_item]);
    reflexivity.
Defined.

Lemma queue_accounting_kept_witness :
  let s' := (enque "u1" (Some "1") (Some doc1) UPDATE (FPair notes "text/plain") s0).2 in
  accounted s0 ∧ accounted s' ∧ debt s0 ≤ debt s'.
Proof.
  intros s'.
  assert (Hacc : accounted s0) by (unfold accounted; cbn; lia).
  split; [exact Hacc|].
  exact (proj1 queue_accounting_kept "u1" (Some "1") (Some doc1) UPDATE
           (FPair notes "text/plain") s0 _ _ (surjective_pairing _) Hacc).
Defined.

Lemma failed_batch_blocks_join_witness :
  queue s0_bad = [QOne bad_item]
  ∧ as_batch (QOne bad_item) = Ok [bad_item]
  ∧ accounted s0_bad
  ∧ (for_each [bad_item] (process_item false false) (entered (QOne bad_item) [] s0_bad)).1
    = Raise (TypeError "'NoneType' object is not iterable")
  ∧ 0 < unfinished_tasks
          (indexThread_loop 3 false false (indexThread_pass false false s0_bad).2).2.
Proof.
  assert (Hacc : accounted s0_bad) by (unfold accounted; cbn; lia).
  split; [reflexivity|]. split; [reflexivity|]. split; [exact Hacc|].
  split; [reflexivity|].
  apply (failed_batch_blocks_join false false s0_bad (QOne bad_item) [] [bad_item]
           (TypeError "'NoneType' object is not iterable") 3);
    [reflexivity|reflexivity|exact Hacc|reflexivity].
Defined.

Lemma tag_applies_every_edit_witness :
  let results := [MkContent doc1] in
  get_by_uid_prop "u1" None s0 = (Ok (results, 1), s0)
  ∧ 1 ≠ 0
  ∧ tag "u1" "Alpha -beta" None s0
    = (Ok (), retagged (edit_all "Alpha -beta" results) s0)
  ∧ ids (edit_all "Alpha -beta" results) = ids results
  ∧ dom (write_index (retagged (edit_all "Alpha -beta" results) s0))
    = dom (write_index s0) ∪ list_to_set (ids results).
Proof.
  intros results. split; [reflexivity|]. split; [discriminate|].
  apply (tag_applies_every_edit "u1" "Alpha -beta" None s0 s0 results 1);
    [reflexivity|discriminate].
Defined.

Lemma tag_folds_over_tag_sets_witness :
  let c := MkContent doc1_tagged in
  (∀ k l, engine_sort k l ≡ₚ l)
  ∧ get_by_uid_prop "u1" None s1 = (Ok ([c], 1), s1)
  ∧ 1 ≠ 0
  ∧ c ∈ [c]
  ∧ ∃ d,
      store_get (write_index (tag "u1" "-x z" None s1).2) (doc_id (_doc c)) = Some d
      ∧ tag_set d = foldl edit_set (tag_set (_doc c)) (_parse_tags "-x z")
      ∧ doc_fields d = doc_fields (_doc c)
      ∧ (get (doc_id (_doc c)) (flush (tag "u1" "-x z" None s1).2).2).1
        = Ok (MkContent d).
Proof.
  intros c.
  assert (Hsort : ∀ k l, engine_sort k l ≡ₚ l) by reflexivity.
  assert (Hin : c ∈ [c]) by constructor.
  split; [exact Hsort|]. split; [reflexivity|]. split; [discriminate|].
  split; [exact Hin|].
  apply (tag_folds_over_tag_sets "u1" "-x z" None s1 s1 [c] 1 c);
    [exact Hsort|reflexivity|discriminate|exact Hin].
Defined.

Lemma tag_twice_keeps_last_witness :
  let c := MkContent doc1 in
  (∀ k l, engine_sort k l ≡ₚ l)
  ∧ get_by_uid_prop "u1" None s0 = (Ok ([c], 1), s0)
  ∧ 1 ≠ 0
  ∧ c ∈ [c]
  ∧ ∃ d,
      store_get (write_index (tag "u1" "-alpha" None (tag "u1" "alpha beta" None s0).2).2)
        (doc_id (_doc c)) = Some d
      ∧ tag_set d = foldl edit_set (tag_set (_doc c)) (_parse_tags "-alpha")
      ∧ store_get (write_index (tag "u1" "-alpha" None s0).2) (doc_id (_doc c)) = Some d.
Proof.
  intros c.
  assert (Hsort : ∀ k l, engine_sort k l ≡ₚ l) by reflexivity.
  assert (Hin : c ∈ [c]) by constructor.
  split; [exact Hsort|]. split; [reflexivity|]. split; [discriminate|].
  split; [exact Hin|].
  apply (tag_twice_keeps_last "u1" "alpha beta" "-alpha" None s0 s0 [c] 1 c);
    [exact Hsort|reflexivity|discriminate|exact Hin].
Defined.

Lemma index_published_at_once_witness :
  let props := [("title", "notes")] in
  maps_all
  ∧ ∃ s' doc,
      index props None s0 = (Ok (doc_id doc), s')
      ∧ write_index s' = <[doc_id doc := to_stored doc]> (write_index s0)
      ∧ read_index s' = write_index s'
      ∧ disk s' = write_index s'
      ∧ get (doc_id doc) s' = (Ok (MkContent doc), s')
      ∧ (∀ k v, (k, v) ∈ doc_fields doc → k ∈ fields s').
Proof.
  intros props. split; [exact demo_maps_all|].
  exact (index_published_at_once props None s0 demo_maps_all).
Defined.

Lemma delete_then_get_witness :
  let s' := (delete "d1" s0).2 in
  (get "d1" s0).1 = Ok (MkContent doc1)
  ∧ (get "d1" s').1 = Raise (KeyError "d1")
  ∧ queue s' = queue s0
  ∧ ("nope" ≠ "d1" →
     store_get (read_index s') "nope" = store_get (write_index s0) "nope").
Proof.
  intros s'.
  destruct (delete_then_get "d1" s0) as (_ & Hget & Hq & _ & Hother & _).
  split; [reflexivity|]. split; [exact Hget|]. split; [exact Hq|].
  exact (Hother "nope").
Defined.

Lemma index_fields_registered_only_witness :
  let props := [("uid", Property "uid" "u1" "u1"); ("title", Property "title" "t" "t")] in
  ∃ doc',
    index_fields props (Document "d9" [] ∅) s0 =
      (Ok doc', with_trace (trace s0 ++ [EvWarn "Missing field configuration for title"]) s0)
    ∧ doc_fields doc' = [("uid", "u1")].
Proof.
  intros props.
  destruct (index_fields_registered_only props (Document "d9" [] ∅) s0)
    as (doc' & Hrun & _ & _ & Hfields & _).
  exists doc'. split; [exact Hrun|exact Hfields].
Defined.

Lemma search_pages_compose_witness :
  let r := search Py.VNone 0 1 ONone s0 in
  let r' := search Py.VNone 1 2 ONone r.2 in
  (∀ d, Py.VNone ≠ Py.VDict d)
  ∧ 0 ≤ 1 ∧ 1 ≤ 2
  ∧ r = (Ok ([MkContent doc1], 1), s0)
  ∧ r' = (Ok ([], 1), s0)
  ∧ ∃ n, (search Py.VNone 0 2 ONone s0).1 = Ok ([MkContent doc1] ++ [], n).
Proof.
  intros r r'.
  assert (Hq : ∀ d, Py.VNone ≠ Py.VDict d) by discriminate.
  assert (Hr : r = (Ok ([MkContent doc1], 1), s0)) by reflexivity.
  assert (Hr' : search Py.VNone 1 2 ONone s0 = (Ok ([], 1), s0)) by reflexivity.
  split; [exact Hq|]. split; [lia|]. split; [lia|]. split; [exact Hr|].
  split; [subst r'; rewrite Hr; exact Hr'|].
  apply (search_pages_compose Py.VNone 0 1 2 ONone s0 s0 s0 [MkContent doc1] [] 1 1);
    [exact Hq|lia|lia|exact Hr|exact Hr'].
Defined.

Lemma search_false_query_matches_all_witness :
  (∀ k l, engine_sort k l ≡ₚ l)
  ∧ Py.truthy (Py.VStr "") = false
  ∧ ∃ results n,
      search (Py.VStr "") 0 10 ONone s0 = (Ok (results, n), s0)
      ∧ length results = (10 - 0) `min` (size (read_index s0) - 0)
      ∧ (∀ c, c ∈ results →
           store_get (read_index s0) (doc_id (_doc c)) = Some (_doc c)).
Proof.
  assert (Hsort : ∀ k l, engine_sort k l ≡ₚ l) by reflexivity.
  split; [exact Hsort|]. split; [reflexivity|].
  apply (search_false_query_matches_all (Py.VStr "") 0 10 ONone s0);
    [exact Hsort|reflexivity].
Defined.

Lemma parse_query_stops_at_blank_witness :
  ("foo" ≠ "" ∧ has_space "foo" = false ∧ Py.contains_char quote_char "foo" = false
   ∧ Ascii.is_space " " = true)
  ∧ parse_query (Py.VStr ("foo" +:+ String " " (String " " "bar"))) s0
    = parse_query (Py.VStr "foo") s0
  ∧ parse_query (Py.VStr (String " " "bar")) s0 = (Ok (QComposite OP_AND []), s0).
Proof.
  split; [repeat split; discriminate || reflexivity|].
  destruct (parse_query_stops_at_blank "foo" "bar" " " " " s0) as [Hcut Hlead].
  split; [apply Hcut; discriminate || reflexivity|apply Hlead; reflexivity].
Defined.

Lemma parse_query_field_word_witness :
  ("uid" ≠ "" ∧ has_space "uid" = false ∧ has_space "u1" = false
   ∧ Py.contains_char ":" "uid" = false
   ∧ Py.contains_char quote_char "uid" = false
   ∧ Py.contains_char quote_char "u1" = false)
  ∧ parse_query (Py.VStr ("uid" +:+ ":" +:+ "u1")) s0
    = (Ok (QComposite OP_AND [QField "uid" (Py.VStr "u1")]), s0).
Proof.
  split; [repeat split; discriminate || reflexivity|].
  rewrite (parse_query_field_word "uid" "u1" s0); [reflexivity|..];
    discriminate || reflexivity.
Defined.

Lemma parse_query_plain_words_witness :
  let ws := ["foo*"; "bar"] in
  Forall plain_word ws
  ∧ (∀ w fl, w ∈ ws → qp_accepts OP_AND w fl = true)
  ∧ parse_query (Py.VStr (join_words ws)) s0
    = (Ok (QComposite OP_AND (word_queries FLAG_LOVEHATE ws)),
       with_trace (trace s0 ++ word_events FLAG_LOVEHATE ws) s0)
  ∧ word_queries FLAG_LOVEHATE ws
    = [QParsed OP_AND "foo*" 20; QParsed OP_AND "bar" 20].
Proof.
  intros ws.
  assert (Hws : Forall plain_word ws).
  { repeat constructor; discriminate. }
  assert (Hacc : ∀ w fl, w ∈ ws → qp_accepts OP_AND w fl = true).
  { intros w fl Hin. cbn. unfold demo_accepts.
    apply elem_of_cons in Hin as [->|Hin];
      [|apply elem_of_cons in Hin as [->|Hin]; [|by apply elem_of_nil in Hin]].
    all: by rewrite andb_false_r. }
  split; [exact Hws|]. split; [exact Hacc|].
  split; [|reflexivity].
  exact (proj1 (parse_query_plain_words ws s0 Hws Hacc)).
Defined.

Lemma parse_query_phrase_witness :
  let q := String quote_char "" in
  let text := (q +:+ "this" +:+ String " " "that") +:+ q in
  (has_space "this" = false ∧ Py.contains_char ":" "this" = false
   ∧ Py.contains_char quote_char "this" = false
   ∧ Py.contains_char quote_char "that" = false
   ∧ Ascii.is_space " " = true)
  ∧ parse_query (Py.VStr text) s0
    = (Ok (QComposite OP_AND [QParsed OP_AND text 6]),
       with_trace (trace s0 ++ [EvParse text 6]) s0).
Proof.
  intros q text. split; [repeat split; reflexivity|].
  rewrite (parse_query_phrase "this" "that" " " s0); reflexivity.
Defined.

Lemma unknown_operation_end_to_end_witness :
  let s1 := (enque "u1" None None 7 FNone s0).2 in
  let s2 := (indexThread_pass false false s1).2 in
  (7%Z ≠ CREATE ∧ 7%Z ≠ UPDATE ∧ 7%Z ≠ DELETE ∧ queue s0 = [])
  ∧ (enque "u1" None None 7 FNone s0).1 = Ok ()
  ∧ queue s1 = [QOne odd_item]
  ∧ trace s1 = trace s0 ++ [EvPut (QOne odd_item)]
  ∧ (indexThread_pass false false s1).1 = Ok ()
  ∧ queue s2 = []
  ∧ unfinished_tasks s2 = unfinished_tasks s0
  ∧ trace s2 = trace s1 ++ [EvGet (QOne odd_item); EvAcquire;
                            EvLog WARNING ("Unknown indexer operation ( " +:+ "u1" +:+ ": "
                                           +:+ pretty 7%Z +:+ ")");
                            EvTaskDone; EvRelease]
  ∧ write_index s2 = write_index s0 ∧ disk s2 = disk s0 ∧ read_index s2 = read_index s0.
Proof.
  intros s1 s2. split; [repeat split; discriminate || reflexivity|].
  apply (unknown_operation_end_to_end "u1" None None 7 FNone false false s0);
    discriminate || reflexivity.
Defined.

Lemma worker_takes_in_order_witness :
  indexer_running s0_bad = true
  ∧ Forall (λ d, d ≠ QSeq []) (queue s0_bad)
  ∧ ∃ s', indexThread_loop 2 false false s0_bad = (Ok false, s')
          ∧ queue s' = drop 2 (queue s0_bad)
          ∧ indexer_running s' = true.
Proof.
  assert (Hall : Forall (λ d, d ≠ QSeq []) (queue s0_bad)).
  { apply Forall_cons. split; [discriminate|apply Forall_nil_2]. }
  split; [reflexivity|]. split; [exact Hall|].
  exact (worker_takes_in_order 2 false false s0_bad eq_refl Hall).
Defined.

Lemma mutations_take_the_lock_witness :
  lock_disciplined s0 (tag "u1" "alpha" None s0).2
  ∧ ¬ lock_disciplined s0 (addField "title" true false false "string" false s0).2.
Proof.
  destruct mutations_take_the_lock as (_ & _ & Htag & _ & _ & _ & Hfield).
  split.
  - exact (Htag "u1" "alpha" None s0 _ _ (surjective_pairing _)).
  - exact (Hfield "title" true false false "string" false s0).
Defined.

Lemma snapshot_and_fields_kept_witness :
  let s' := (indexThread_loop 2 false false s0_bad).2 in
  disk s0_bad = read_index s0_bad
  ∧ disk s' = read_index s'
  ∧ fields s0_bad ⊆ fields s'.
Proof.
  intros s'.
  assert (Hsync : disk s0_bad = read_index s0_bad) by reflexivity.
  destruct snapshot_and_fields_kept as (_ & _ & _ & _ & _ & _ & Hloop).
  destruct (Hloop 2 false false s0_bad _ _ (surjective_pairing _)) as [Hkeep Hfields].
  split; [exact Hsync|]. split; [exact (Hkeep Hsync)|exact Hfields].
Defined.

Lemma search_consumes_its_dictionary_witness :
  dated_query ≠ []
  ∧ search_query (Py.VDict dated_query) s0
    = without_dict (search_query_popping dated_query s0)
  ∧ ∃ q s', search_query_popping dated_query s0 = (Ok (q, [("date", Py.VDict [])]), s')
  ∧ ∀ k v s2, (k, Py.VDict v) ∈ [("date", Py.VDict [])] →
      Py.get "start" v = None ∧ Py.get "end" v = None
      ∧ clause k (Py.VDict v) s2 =
          (lo <- lift (parse_timestamp_or_float (Py.VInt 0)) ;;
           hi <- lift (parse_timestamp_or_float (Py.VInt Py.maxint)) ;;
           ret (QRange k lo hi)) s2.
Proof.
  assert (Hne : dated_query ≠ []) by discriminate.
  destruct (search_consumes_its_dictionary dated_query s0 Hne) as [Hsame Hleft].
  split; [exact Hne|]. split; [exact Hsame|].
  eexists _, _. split; [reflexivity|].
  exact (proj2 (proj2 (Hleft _ _ _ eq_refl))).
Defined.

End FurtherInstances.

Section ConvertingInstance.
Import Demo Sample.
Existing Instance Sample.converting.

Lemma converting_maps_all : maps_all.
Proof. intros dm k v. by eexists. Qed.

Lemma index_file_then_worker_witness :
  let props := [("title", "notes")] in
  let s1 := (index props (Some "notes.txt") s0).2 in
  let s2 := (indexThread_pass (versions s0) (inplace s0) s1).2 in
  maps_all
  ∧ "notes.txt" ≠ ""
  ∧ queue s0 = []
  ∧ (∀ mimetype, converter (abspath "notes.txt") mimetype = Ok (Some notes_text))
  ∧ (versions s0 && negb (inplace s0) = true → abspath "notes.txt" ∈ files s0)
  ∧ ∃ doc,
      (index props (Some "notes.txt") s0).1 = Ok (doc_id doc)
      ∧ read_index s1 !! doc_id doc = Some (to_stored doc)
      ∧ length (queue s1) = 1
      ∧ (indexThread_pass (versions s0) (inplace s0) s1).1 = Ok ()
      ∧ write_index s2 !! doc_id doc = Some (to_stored (with_fulltext doc notes_text))
      ∧ read_index s2 = read_index s1
      ∧ queue s2 = []
      ∧ unfinished_tasks s2 = unfinished_tasks s0
      ∧ read_index (flush s2).2 !! doc_id doc
        = Some (to_stored (with_fulltext doc notes_text)).
Proof.
  intros props s1 s2.
  assert (Hne : "notes.txt" ≠ "") by discriminate.
  assert (Hconv : ∀ mimetype,
            converter (abspath "notes.txt") mimetype = Ok (Some notes_text))
    by reflexivity.
  assert (Hfile : versions s0 && negb (inplace s0) = true →
                  abspath "notes.txt" ∈ files s0) by discriminate.
  split; [exact converting_maps_all|]. split; [exact Hne|]. split; [reflexivity|].
  split; [exact Hconv|]. split; [exact Hfile|].
  exact (index_file_then_worker props "notes.txt" notes_text s0 converting_maps_all
           Hne eq_refl Hconv Hfile).
Defined.

End ConvertingInstance.
